(** * RBAC layer and light schema migration of the ERP application

    Shallow embedding of [app/rbac.py] (permission expansion, [can],
    [require_perm], [bootstrap_rbac]) and of the [ensure_schema] routine
    of [app/__init__.py], followed by the properties established about
    them.

    Conventions.
    - A Python [str] is a list of Unicode code points ([pystr]); literals
      are written as UTF-8 text and decoded by [py].
    - A Python [set] of strings is a [gset pystr]; iterating over it is
      [elements], an order the program does not control.
    - A Python [dict] keyed by strings is a [gmap pystr _]; a dict or
      list literal that is only iterated keeps its order as a list.
    - The ORM tables are lists of rows in the order queries return them;
      the identity of a row (the Python object) is its position in the
      table, and rows are only ever appended.  The session and the
      database are one state: [db.session.add], [flush] and [commit]
      make no difference to what the queries of the same run see.
    - [flask_login.current_user] is an explicit argument.
    - The database behind [ensure_schema] is a parameter: a world of
      any type, changed by the five calls the routine makes, each of
      which may raise. *)

From stdpp Require Import gmap list strings.
From Stdlib Require Import NArith Ascii.

Local Open Scope N_scope.

(* ===================================================================== *)
(** ** Python strings *)
(* ===================================================================== *)

Module PyStr.

Abbreviation pystr := (list N).

Definition byte_val (a : ascii) : N := N_of_ascii a.

(** UTF-8 decoding of a byte sequence (only used to write literals). *)
Fixpoint utf8_decode (bs : list N) : pystr :=
  match bs with
  | [] => []
  | b0 :: r0 =>
    if b0 <? 128 then b0 :: utf8_decode r0
    else if b0 <? 224 then
      match r0 with
      | b1 :: r1 =>
        (N.shiftl (N.land b0 31) 6 + N.land b1 63) :: utf8_decode r1
      | [] => [b0]
      end
    else if b0 <? 240 then
      match r0 with
      | b1 :: b2 :: r2 =>
        (N.shiftl (N.land b0 15) 12 + N.shiftl (N.land b1 63) 6
         + N.land b2 63) :: utf8_decode r2
      | _ => b0 :: r0
      end
    else
      match r0 with
      | b1 :: b2 :: b3 :: r3 =>
        (N.shiftl (N.land b0 7) 18 + N.shiftl (N.land b1 63) 12
         + N.shiftl (N.land b2 63) 6 + N.land b3 63) :: utf8_decode r3
      | _ => b0 :: r0
      end
  end.

Fixpoint bytes_of (s : string) : list N :=
  match s with
  | EmptyString => []
  | String.String a r => byte_val a :: bytes_of r
  end.

Definition py (s : string) : pystr := utf8_decode (bytes_of s).

(** [str.isspace] on one code point, CPython's [_PyUnicode_IsWhitespace]. *)
Definition is_space (c : N) : bool :=
  ((9 <=? c) && (c <=? 13)) || ((28 <=? c) && (c <=? 32))
  || (c =? 133) || (c =? 160) || (c =? 5760)
  || ((8192 <=? c) && (c <=? 8202))
  || (c =? 8232) || (c =? 8233) || (c =? 8239) || (c =? 8287)
  || (c =? 12288).

Fixpoint lstrip (s : pystr) : pystr :=
  match s with
  | [] => []
  | c :: r => if is_space c then lstrip r else s
  end.

Definition rstrip (s : pystr) : pystr := reverse (lstrip (reverse s)).

(** [s.strip()] *)
Definition strip (s : pystr) : pystr := rstrip (lstrip s).

Definition colon : N := 58.

(** [":" in s] *)
Definition has_colon (s : pystr) : bool := bool_decide (colon ∈ s).

(** [s.split(":", 1)[0]]: the text before the first colon. *)
Fixpoint before_colon (s : pystr) : pystr :=
  match s with
  | [] => []
  | c :: r => if c =? colon then [] else c :: before_colon r
  end.

Definition is_ascii (c : N) : bool := c <? 128.
Definition ascii_upper (c : N) : N :=
  if (97 <=? c) && (c <=? 122) then c - 32 else c.
Definition ascii_lower (c : N) : N :=
  if (65 <=? c) && (c <=? 90) then c + 32 else c.

Section Capitalize.
(** [str.capitalize] on text with a code point outside ASCII follows
    the Unicode case tables of the interpreter; it is a parameter. *)
Variable unicode_capitalize : pystr → pystr.

(** [s.capitalize()] *)
Definition capitalize (s : pystr) : pystr :=
  if forallb is_ascii s then
    match s with
    | [] => []
    | c :: r => ascii_upper c :: map ascii_lower r
    end
  else unicode_capitalize s.
End Capitalize.

End PyStr.
Import PyStr.

(* ===================================================================== *)
(** ** Permission equivalences and the two access checks *)
(* ===================================================================== *)

(** [PERM_EQUIVALENTS], as the association list the dict literal lists. *)
Definition PERM_EQUIVALENTS_items : list (pystr * gset pystr) :=
  [ (py "statsimpact:view", {[ py "statsimpact:view"; py "stats:view" ]});
    (py "bilan:view", {[ py "bilan:view"; py "bilans:view" ]});
    (py "bilans:lourds:view", {[ py "bilans:lourds:view"; py "bilans:view" ]});
    (py "participants:update",
       {[ py "participants:update"; py "participants:edit" ]});
    (py "participants:write",
       {[ py "participants:write"; py "participants:edit" ]});
    (py "participant:edit", {[ py "participant:edit"; py "participants:edit" ]});
    (py "projets_edit", {[ py "projets_edit"; py "projets:edit" ]}) ].

Definition PERM_EQUIVALENTS : gmap pystr (gset pystr) :=
  list_to_map PERM_EQUIVALENTS_items.

(** [_expand_perm(code)]; [None] is Python's [None], which the [or]
    fallback of the first line turns into the empty string. *)
Definition _expand_perm (code : option pystr) : gset pystr :=
  let code := strip (default [] code) in
  if bool_decide (code = []) then ∅
  else match PERM_EQUIVALENTS !! code with
       | Some eqs => eqs
       | None => {[ code ]}
       end.

(** The object behind [current_user]: [has_perm] is [None] when
    [getattr(current_user, "has_perm", None)] is not callable. *)
Record user_proxy := {
  is_authenticated : bool;
  has_perm : option (pystr → bool);
}.

(** [any(has_perm_fn(c) for c in wanted)] *)
Definition any_perm (has_perm_fn : pystr → bool) (wanted : gset pystr) : bool :=
  existsb has_perm_fn (elements wanted).

(** [can(code)] *)
Definition can (current_user : user_proxy) (code : option pystr) : bool :=
  if negb (is_authenticated current_user) then false
  else match has_perm current_user with
       | None => false
       | Some has_perm_fn =>
         let wanted := _expand_perm code in
         if bool_decide (wanted = ∅) then false
         else any_perm has_perm_fn wanted
       end.

(** What a call of a view returns: [abort(status)] or the view's value. *)
Inductive response (R : Type) : Type :=
  | Abort (status : nat)
  | Return (r : R).
Arguments Abort {R} status.
Arguments Return {R} r.

(** The wrapper that [require_perm(code)] puts around the view [fn],
    called on the view's arguments. *)
Definition require_perm {A R : Type} (code : option pystr) (fn : A → R)
    (current_user : user_proxy) (args : A) : response R :=
  if negb (is_authenticated current_user) then Abort 401%nat
  else match has_perm current_user with
       | None => Abort 403%nat
       | Some has_perm_fn =>
         let wanted := _expand_perm code in
         if bool_decide (wanted = ∅) then Abort 403%nat
         else if negb (any_perm has_perm_fn wanted) then Abort 403%nat
         else Return (fn args)
       end.

(* ===================================================================== *)
(** ** The RBAC tables and [bootstrap_rbac] *)
(* ===================================================================== *)

(** [DEFAULT_PERMS] *)
Definition DEFAULT_PERMS : list (pystr * pystr) :=
  [ (py "dashboard:view", py "Voir le dashboard");
    (py "subventions:view", py "Voir les subventions");
    (py "subventions:edit", py "Créer/éditer les subventions");
    (py "subventions:delete", py "Supprimer les subventions");
    (py "depenses:view", py "Voir les dépenses");
    (py "depenses:create", py "Créer des dépenses");
    (py "depenses:delete", py "Supprimer les dépenses");
    (py "budget:delete", py "Supprimer une ligne budgétaire");
    (py "projets:view", py "Voir les projets");
    (py "projets:edit", py "Créer/éditer les projets");
    (py "projets:delete", py "Supprimer les projets");
    (py "participants:view", py "Voir les participants");
    (py "participants:edit", py "Créer/éditer les participants");
    (py "participants:delete", py "Supprimer les participants");
    (py "inventaire:view", py "Voir l'inventaire");
    (py "inventaire:edit", py "Créer/éditer l'inventaire");
    (py "emargement:view", py "Voir l'émargement");
    (py "pedagogie:view", py "Voir la pédagogie");
    (py "stats:view", py "Voir les stats (secteur)");
    (py "stats:view_all", py "Voir les stats (tous secteurs)");
    (py "statsimpact:view", py "Voir les données ateliers (secteur)");
    (py "statsimpact:view_all", py "Voir les données ateliers (tous secteurs)");
    (py "controle:view", py "Accéder au contrôle");
    (py "bilans:view", py "Voir les bilans");
    (py "activite:delete", py "Supprimer une activité");
    (py "activite:purge", py "Purger des activités");
    (py "ateliers:view", py "Voir les ateliers");
    (py "ateliers:sync", py "Synchroniser les ateliers");
    (py "admin:users", py "Gérer les utilisateurs");
    (py "admin:rbac", py "Gérer les droits (RBAC)") ].

(** [ROLE_TEMPLATES]: role code and its ["perms"] list, in the order of
    the dict literal (the order [.items()] iterates in). *)
Definition ROLE_TEMPLATES : list (pystr * list pystr) :=
  [ (py "admin_tech",
      [ py "dashboard:view"; py "admin:users"; py "admin:rbac" ]);
    (py "direction", DEFAULT_PERMS.*1);
    (py "finance",
      [ py "dashboard:view";
        py "subventions:view"; py "subventions:edit"; py "subventions:delete";
        py "depenses:view"; py "depenses:create"; py "depenses:delete";
        py "projets:view"; py "projets:edit"; py "projets:delete";
        py "participants:view"; py "inventaire:view"; py "emargement:view";
        py "stats:view"; py "bilans:view";
        py "ateliers:view"; py "ateliers:sync" ]);
    (py "responsable_secteur",
      [ py "dashboard:view";
        py "subventions:view";
        py "depenses:view"; py "depenses:create";
        py "projets:view"; py "projets:edit";
        py "participants:view"; py "participants:edit";
        py "inventaire:view"; py "emargement:view";
        py "pedagogie:view"; py "stats:view"; py "bilans:view";
        py "ateliers:view"; py "ateliers:sync" ]) ].

(** The [mapping] dict of [_category_from_code]. *)
Definition category_mapping : gmap pystr pystr :=
  list_to_map
  [ (py "dashboard", py "Dashboard");
    (py "subventions", py "Subventions");
    (py "depenses", py "Dépenses");
    (py "budget", py "Budget");
    (py "projets", py "Projets");
    (py "participants", py "Participants");
    (py "inventaire", py "Inventaire");
    (py "emargement", py "Émargement");
    (py "pedagogie", py "Pédagogie");
    (py "stats", py "Stats");
    (py "statsimpact", py "Stats impact");
    (py "bilans", py "Bilans");
    (py "ateliers", py "Ateliers");
    (py "admin", py "Admin") ].

(** The [legacy_map] dict of [bootstrap_rbac]. *)
Definition legacy_map_items : list (pystr * pystr) :=
  [ (py "directrice", py "direction");
    (py "direction", py "direction");
    (py "financiere", py "finance");
    (py "financière", py "finance");
    (py "finance", py "finance");
    (py "responsable_secteur", py "responsable_secteur");
    (py "admin_tech", py "admin_tech") ].

Definition legacy_map : gmap pystr pystr := list_to_map legacy_map_items.

(** Rows of the three ORM tables.  A nullable column is an [option];
    [r_permissions] and [u_roles] hold row positions of the referenced
    table.  [u_roles] is [None] for a user object without a [roles]
    attribute ([hasattr(u, "roles")] false). *)
Record Permission := {
  p_code : pystr;
  p_label : option pystr;
  p_category : option pystr;
}.

Record Role := {
  r_code : pystr;
  r_label : option pystr;
  r_permissions : list nat;
}.

Record User := {
  u_role : option pystr;
  u_roles : option (list nat);
}.

Record database := {
  permissions : list Permission;
  roles : list Role;
  users : list User;
}.

Global Instance Permission_eq_dec : EqDecision Permission.
Proof. solve_decision. Defined.
Global Instance Role_eq_dec : EqDecision Role.
Proof. solve_decision. Defined.
Global Instance User_eq_dec : EqDecision User.
Proof. solve_decision. Defined.
Global Instance database_eq_dec : EqDecision database.
Proof. solve_decision. Defined.

(** [{p.code: p for p in rows}], rows numbered from [i]: a later row
    with the same code replaces an earlier one. *)
Fixpoint index_by_code (i : nat) (rows : list Permission)
    (acc : gmap pystr nat) : gmap pystr nat :=
  match rows with
  | [] => acc
  | p :: rest => index_by_code (S i) rest (<[p_code p := i]> acc)
  end.

Definition by_code (rows : list Permission) : gmap pystr nat :=
  index_by_code 0 rows ∅.

(** [Role.query.filter_by(code=code).first()] *)
Definition first_role (rs : list Role) (code : pystr) : option (nat * Role) :=
  list_find (λ r, r_code r = code) rs.

Section Bootstrap.
Variable unicode_capitalize : pystr → pystr.

(** [_category_from_code(code)] *)
Definition _category_from_code (code : pystr) : pystr :=
  let module := strip (if has_colon code then before_colon code else code) in
  default (capitalize unicode_capitalize module) (category_mapping !! module).

(** Body of the loop over [DEFAULT_PERMS]; the state is the table as
    the session sees it and the [changed] flag. *)
Definition perm_step (existing : gmap pystr nat)
    (st : list Permission * bool) (entry : pystr * pystr)
    : list Permission * bool :=
  let '(rows, changed) := st in
  let '(code, label) := entry in
  match existing !! code with
  | None =>
    (rows ++ [ {| p_code := code; p_label := Some label;
                  p_category := Some (_category_from_code code) |} ], true)
  | Some i =>
    match rows !! i with
    | None => (rows, changed)
    | Some p =>
      let '(p, changed) :=
        if bool_decide (p_label p ≠ Some label)
        then ({| p_code := p_code p; p_label := Some label;
                 p_category := p_category p |}, true)
        else (p, changed) in
      let new_cat := _category_from_code code in
      let '(p, changed) :=
        if bool_decide (p_category p ≠ Some new_cat)
        then ({| p_code := p_code p; p_label := p_label p;
                 p_category := Some new_cat |}, true)
        else (p, changed) in
      (<[i := p]> rows, changed)
    end
  end.

(** The Permissions block: table afterwards and final [changed]. *)
Definition sync_permissions (rows : list Permission)
    : list Permission * bool :=
  foldl (perm_step (by_code rows)) (rows, false) DEFAULT_PERMS.

(** Body of the loop over [ROLE_TEMPLATES.items()]. *)
Definition role_step (perms_by_code : gmap pystr nat)
    (rs : list Role) (tpl : pystr * list pystr) : list Role :=
  let '(role_code, perms) := tpl in
  let '(i, rs) :=
    match first_role rs role_code with
    | Some (i, _) => (i, rs)
    | None =>
      (length rs,
       rs ++ [ {| r_code := role_code; r_label := Some role_code;
                  r_permissions := [] |} ])
    end in
  let wanted : gset pystr := list_to_set perms in
  let granted := omap (λ c, perms_by_code !! c) (elements wanted) in
  alter (λ r, {| r_code := r_code r; r_label := r_label r;
                 r_permissions := granted |}) i rs.

Definition sync_roles (rows : list Permission) (rs : list Role)
    : list Role :=
  foldl (role_step (by_code rows)) rs ROLE_TEMPLATES.

(** [(u.role or "responsable_secteur").strip()] mapped through
    [legacy_map.get(legacy, legacy)]. *)
Definition legacy_target (role : option pystr) : pystr :=
  let legacy :=
    strip match role with
          | None | Some [] => py "responsable_secteur"
          | Some r => r
          end in
  default legacy (legacy_map !! legacy).

(** Body of the loop over [User.query.all()]. *)
Definition sync_user (rs : list Role) (u : User) : User :=
  match u_roles u with
  | None => u
  | Some mine =>
    match first_role rs (legacy_target (u_role u)) with
    | Some (j, _) =>
      if bool_decide (j ∈ mine) then u
      else {| u_role := u_role u; u_roles := Some (mine ++ [j]) |}
    | None => u
    end
  end.

(** [bootstrap_rbac()]; [create_all_ok] tells whether [db.create_all()]
    returned (otherwise the failure is logged and nothing is done).  The
    three blocks run in turn: permissions, roles (on the permission
    table as the first block left it), users (on the roles as the second
    block left them). *)
Definition bootstrap_rbac (create_all_ok : bool) (db : database)
    : database :=
  if negb create_all_ok then db
  else
    let rows := (sync_permissions (permissions db)).1 in
    let rs := sync_roles rows (roles db) in
    {| permissions := rows;
       roles := rs;
       users := sync_user rs <$> users db |}.

End Bootstrap.

(* ===================================================================== *)
(** ** [ensure_schema]: the light migration of [create_app] *)
(* ===================================================================== *)

(** Calls that reach the database, in the order they are made.  The flag
    of [EvExecute], [EvCommit] and [EvRollback] tells whether the call
    returned ([true]) or raised ([false]). *)
Inductive event :=
  | EvHasTable (table : pystr)
  | EvGetColumns (table : pystr)
  | EvExecute (sql : pystr) (ok : bool)
  | EvCommit (ok : bool)
  | EvRollback (ok : bool).

Global Instance event_eq_dec : EqDecision event.
Proof. solve_decision. Defined.

(** The database and session behind [db], of any type [W], and the calls
    made so far. *)
Record state (W : Type) := { world : W; trace : list event }.
Arguments world {W} _.
Arguments trace {W} _.

(** A computation either returns a value or raises ([None]). *)
Definition M (W A : Type) : Type := state W → option A * state W.

Global Instance M_ret {W} : MRet (M W) := λ A a st, (Some a, st).

Global Instance M_bind {W} : MBind (M W) := λ A B k m st,
  match m st with
  | (Some a, st') => k a st'
  | (None, st') => (None, st')
  end.

(** [try: body except Exception: handler] *)
Definition try_except {W A} (body handler : M W A) : M W A :=
  λ st, match body st with
        | (Some a, st') => (Some a, st')
        | (None, st') => handler st'
        end.

(** The two statements of [ensure_schema] that are not column
    additions: the unique index (the same text for both dialects) and
    the Postgres-only relaxation of [depense.ligne_budget_id]. *)
Definition PRESENCE_INDEX_sql : pystr :=
  py "CREATE UNIQUE INDEX IF NOT EXISTS idx_uq_presence_session_participant ON presence_activite(session_id, participant_id)".

Definition DROP_NOT_NULL_sql : pystr :=
  py "ALTER TABLE depense ALTER COLUMN ligne_budget_id DROP NOT NULL".

Section EnsureSchema.
Context {W : Type}.
(** [insp.has_table], [insp.get_columns] (the column names, [None]
    when the call raises), [db.session.execute], [db.session.commit]
    and [db.session.rollback] (whether they return). *)
Variable insp_has_table : pystr → W → option bool * W.
Variable insp_get_columns : pystr → W → option (list pystr) * W.
Variable session_execute : pystr → W → bool * W.
Variable session_commit : W → bool * W.
Variable session_rollback : W → bool * W.
(** [db.engine.dialect.name] *)
Variable dialect : pystr.

Definition call {A} (e : event) (r : option A) (w : W) (st : state W)
    : option A * state W :=
  (r, {| world := w; trace := trace st ++ [e] |}).

Definition has_table (name : pystr) : M W bool :=
  λ st, let '(r, w) := insp_has_table name (world st) in
        call (EvHasTable name) (Some (default false r)) w st.

(** [{c["name"] for c in insp.get_columns(table)}], the empty set when
    the call raises. *)
Definition column_names (table : pystr) : M W (gset pystr) :=
  λ st, let '(r, w) := insp_get_columns table (world st) in
        call (EvGetColumns table)
             (Some match r with
                   | Some names => list_to_set names
                   | None => ∅
                   end) w st.

Definition get_cols (table : pystr) : M W (gset pystr) :=
  present ← has_table table;
  if negb present then mret ∅ else column_names table.

Definition exec_sql (sql : pystr) : M W unit :=
  λ st, let '(ok, w) := session_execute sql (world st) in
        call (EvExecute sql ok) (if ok then Some tt else None) w st.

Definition commit : M W unit :=
  λ st, let '(ok, w) := session_commit (world st) in
        call (EvCommit ok) (if ok then Some tt else None) w st.

Definition rollback : M W unit :=
  λ st, let '(ok, w) := session_rollback (world st) in
        call (EvRollback ok) (if ok then Some tt else None) w st.

Definition add_col (table col sql_sqlite sql_pg : pystr) : M W unit :=
  cols ← get_cols table;
  if bool_decide (col ∈ cols) then mret tt
  else if bool_decide (dialect = py "sqlite") then exec_sql sql_sqlite
  else exec_sql sql_pg.

Definition create_index (sql_sqlite sql_pg : pystr) : M W unit :=
  if bool_decide (dialect = py "sqlite") then exec_sql sql_sqlite
  else exec_sql sql_pg.

(** 1) Finance: [nature] on [ligne_budget]. *)
Definition body_ligne_budget : M W unit :=
  add_col (py "ligne_budget") (py "nature")
    (py "ALTER TABLE ligne_budget ADD COLUMN nature VARCHAR(10) NOT NULL DEFAULT 'charge'")
    (py "ALTER TABLE ligne_budget ADD COLUMN IF NOT EXISTS nature VARCHAR(10) NOT NULL DEFAULT 'charge'") ;;
  commit.

(** 2) Kiosk and soft-delete columns of [session_activite]. *)
Definition body_session_activite : M W unit :=
  add_col (py "session_activite") (py "is_deleted")
    (py "ALTER TABLE session_activite ADD COLUMN is_deleted BOOLEAN NOT NULL DEFAULT 0")
    (py "ALTER TABLE session_activite ADD COLUMN IF NOT EXISTS is_deleted BOOLEAN NOT NULL DEFAULT FALSE") ;;
  add_col (py "session_activite") (py "deleted_at")
    (py "ALTER TABLE session_activite ADD COLUMN deleted_at DATETIME")
    (py "ALTER TABLE session_activite ADD COLUMN IF NOT EXISTS deleted_at TIMESTAMP") ;;
  add_col (py "session_activite") (py "kiosk_open")
    (py "ALTER TABLE session_activite ADD COLUMN kiosk_open BOOLEAN NOT NULL DEFAULT 0")
    (py "ALTER TABLE session_activite ADD COLUMN IF NOT EXISTS kiosk_open BOOLEAN NOT NULL DEFAULT FALSE") ;;
  add_col (py "session_activite") (py "kiosk_pin")
    (py "ALTER TABLE session_activite ADD COLUMN kiosk_pin VARCHAR(10)")
    (py "ALTER TABLE session_activite ADD COLUMN IF NOT EXISTS kiosk_pin VARCHAR(10)") ;;
  add_col (py "session_activite") (py "kiosk_token")
    (py "ALTER TABLE session_activite ADD COLUMN kiosk_token VARCHAR(64)")
    (py "ALTER TABLE session_activite ADD COLUMN IF NOT EXISTS kiosk_token VARCHAR(64)") ;;
  add_col (py "session_activite") (py "kiosk_opened_at")
    (py "ALTER TABLE session_activite ADD COLUMN kiosk_opened_at DATETIME")
    (py "ALTER TABLE session_activite ADD COLUMN IF NOT EXISTS kiosk_opened_at TIMESTAMP") ;;
  commit.

(** 3) Soft-delete columns of [atelier_activite]. *)
Definition body_atelier_activite : M W unit :=
  add_col (py "atelier_activite") (py "is_deleted")
    (py "ALTER TABLE atelier_activite ADD COLUMN is_deleted BOOLEAN NOT NULL DEFAULT 0")
    (py "ALTER TABLE atelier_activite ADD COLUMN IF NOT EXISTS is_deleted BOOLEAN NOT NULL DEFAULT FALSE") ;;
  add_col (py "atelier_activite") (py "deleted_at")
    (py "ALTER TABLE atelier_activite ADD COLUMN deleted_at DATETIME")
    (py "ALTER TABLE atelier_activite ADD COLUMN IF NOT EXISTS deleted_at TIMESTAMP") ;;
  commit.

(** 4) Complementary columns of [participant]. *)
Definition body_participant : M W unit :=
  add_col (py "participant") (py "signature_path")
    (py "ALTER TABLE participant ADD COLUMN signature_path VARCHAR(255)")
    (py "ALTER TABLE participant ADD COLUMN IF NOT EXISTS signature_path VARCHAR(255)") ;;
  add_col (py "participant") (py "sexe")
    (py "ALTER TABLE participant ADD COLUMN sexe VARCHAR(20)")
    (py "ALTER TABLE participant ADD COLUMN IF NOT EXISTS sexe VARCHAR(20)") ;;
  add_col (py "participant") (py "type_public")
    (py "ALTER TABLE participant ADD COLUMN type_public VARCHAR(50)")
    (py "ALTER TABLE participant ADD COLUMN IF NOT EXISTS type_public VARCHAR(50)") ;;
  add_col (py "participant") (py "ville")
    (py "ALTER TABLE participant ADD COLUMN ville VARCHAR(100)")
    (py "ALTER TABLE participant ADD COLUMN IF NOT EXISTS ville VARCHAR(100)") ;;
  add_col (py "participant") (py "quartier_id")
    (py "ALTER TABLE participant ADD COLUMN quartier_id INTEGER")
    (py "ALTER TABLE participant ADD COLUMN IF NOT EXISTS quartier_id INTEGER") ;;
  commit.

(** 5) Soft-delete columns of [archive_emargement]. *)
Definition body_archive_emargement : M W unit :=
  add_col (py "archive_emargement") (py "is_deleted")
    (py "ALTER TABLE archive_emargement ADD COLUMN is_deleted BOOLEAN NOT NULL DEFAULT 0")
    (py "ALTER TABLE archive_emargement ADD COLUMN IF NOT EXISTS is_deleted BOOLEAN NOT NULL DEFAULT FALSE") ;;
  add_col (py "archive_emargement") (py "deleted_at")
    (py "ALTER TABLE archive_emargement ADD COLUMN deleted_at DATETIME")
    (py "ALTER TABLE archive_emargement ADD COLUMN IF NOT EXISTS deleted_at TIMESTAMP") ;;
  commit.

(** 6) Unique index against duplicate presences. *)
Definition body_presence_index : M W unit :=
  create_index PRESENCE_INDEX_sql PRESENCE_INDEX_sql ;;
  commit.

(** 7) Invoice-line and project-charge columns of [depense]. *)
Definition body_depense : M W unit :=
  add_col (py "depense") (py "facture_ligne_id")
    (py "ALTER TABLE depense ADD COLUMN facture_ligne_id INTEGER")
    (py "ALTER TABLE depense ADD COLUMN IF NOT EXISTS facture_ligne_id INTEGER") ;;
  add_col (py "depense") (py "facture_quantite")
    (py "ALTER TABLE depense ADD COLUMN facture_quantite INTEGER NOT NULL DEFAULT 1")
    (py "ALTER TABLE depense ADD COLUMN IF NOT EXISTS facture_quantite INTEGER NOT NULL DEFAULT 1") ;;
  add_col (py "depense") (py "charge_projet_id")
    (py "ALTER TABLE depense ADD COLUMN charge_projet_id INTEGER")
    (py "ALTER TABLE depense ADD COLUMN IF NOT EXISTS charge_projet_id INTEGER") ;;
  (if bool_decide (dialect = py "postgresql")
   then try_except
          (exec_sql DROP_NOT_NULL_sql)
          (mret tt)
   else mret tt) ;;
  commit.

(** The seven bodies, in the order [ensure_schema] runs them. *)
Definition group_bodies : list (M W unit) :=
  [ body_ligne_budget; body_session_activite; body_atelier_activite;
    body_participant; body_archive_emargement; body_presence_index;
    body_depense ].

(** [ensure_schema()] once [dialect] and the inspector are at hand.  An
    exception of the [rollback] in a handler is not caught: it leaves
    [ensure_schema] and the groups below are not run. *)
Definition ensure_schema : M W unit :=
  try_except body_ligne_budget rollback ;;
  try_except body_session_activite rollback ;;
  try_except body_atelier_activite rollback ;;
  try_except body_participant rollback ;;
  try_except body_archive_emargement rollback ;;
  try_except body_presence_index rollback ;;
  try_except body_depense rollback.

End EnsureSchema.


(* ===================================================================== *)
(** ** The role checks [has_role] and [has_any_role] *)
(* ===================================================================== *)

(** Exceptions the functions below let out ([DatabaseError] stands for
    whatever a database call raised), and the result of a call that may
    raise one. *)
Inductive py_exception := ValueError | TypeError | SystemExit | DatabaseError.

Inductive outcome (A : Type) : Type :=
  | Returns (a : A)
  | Raises (e : py_exception).
Arguments Returns {A} a.
Arguments Raises {A} e.

(** What [getattr(current_user, "role_codes", [])] finds: nothing, an
    iterable of codes, or an object that can be neither searched with
    [in] nor turned into a set (a bound method, as [bootstrap_user.py]
    calls it), on which both raise [TypeError]. *)
Inductive role_codes_attr :=
  | RcMissing
  | RcCodes (codes : list pystr)
  | RcNotIterable.

(** The user object as the role checks see it; [m_has_role] and
    [m_has_any_role] are [None] when the attribute is not callable. *)
Record member := {
  m_user : user_proxy;
  m_has_role : option (pystr → bool);
  m_has_any_role : option (list pystr → bool);
  m_role_codes : role_codes_attr;
}.

(** [has_role(code)] *)
Definition has_role (current_user : member) (code : pystr) : outcome bool :=
  if negb (is_authenticated (m_user current_user)) then Returns false
  else match m_has_role current_user with
       | Some has_role_fn => Returns (has_role_fn code)
       | None =>
         match m_role_codes current_user with
         | RcMissing => Returns (bool_decide (code ∈ @nil pystr))
         | RcCodes role_codes => Returns (bool_decide (code ∈ role_codes))
         | RcNotIterable => Raises TypeError
         end
       end.

(** [has_any_role(codes)] *)
Definition has_any_role (current_user : member) (codes : list pystr)
    : outcome bool :=
  if negb (is_authenticated (m_user current_user)) then Returns false
  else match m_has_any_role current_user with
       | Some has_any_role_fn => Returns (has_any_role_fn codes)
       | None =>
         match m_role_codes current_user with
         | RcMissing =>
           let role_codes : gset pystr := list_to_set [] in
           Returns (existsb (λ code, bool_decide (code ∈ role_codes)) codes)
         | RcCodes l =>
           let role_codes : gset pystr := list_to_set l in
           Returns (existsb (λ code, bool_decide (code ∈ role_codes)) codes)
         | RcNotIterable => Raises TypeError
         end
       end.

(* ===================================================================== *)
(** ** [bootstrap_user.py]: [ensure_user] and [main] *)
(* ===================================================================== *)

(** [s.lower()]; as for [capitalize], the case tables beyond ASCII are a
    parameter. *)
Definition lower (unicode_lower : pystr → pystr) (s : pystr) : pystr :=
  if forallb is_ascii s then map ascii_lower s else unicode_lower s.

(** A row of the user table with the columns [ensure_user] touches; the
    legacy role and the RBAC roles are the [User] of [bootstrap_rbac].
    [Cred] is whatever [set_password] stores. *)
Record Account (Cred : Type) := {
  a_email : pystr;
  a_nom : pystr;
  a_secteur : option pystr;
  a_cred : Cred;
  a_user : User;
}.
Arguments a_email {Cred} _.
Arguments a_nom {Cred} _.
Arguments a_secteur {Cred} _.
Arguments a_cred {Cred} _.
Arguments a_user {Cred} _.

Record site (Cred : Type) := {
  s_permissions : list Permission;
  s_roles : list Role;
  s_accounts : list (Account Cred);
}.
Arguments s_permissions {Cred} _.
Arguments s_roles {Cred} _.
Arguments s_accounts {Cred} _.

(** The three tables as [bootstrap_rbac] sees them. *)
Definition site_db {Cred} (d : site Cred) : database :=
  {| permissions := s_permissions d;
     roles := s_roles d;
     users := a_user <$> s_accounts d |}.

Definition with_user {Cred} (a : Account Cred) (u : User) : Account Cred :=
  {| a_email := a_email a; a_nom := a_nom a; a_secteur := a_secteur a;
     a_cred := a_cred a; a_user := u |}.

(** The legacy role [ensure_user] writes for an RBAC role code. *)
Definition legacy_for (role_code : pystr) : pystr :=
  if bool_decide (role_code = py "direction") then py "directrice"
  else role_code.

(** What the database calls on the way of [main] do: whether the
    [db.create_all()] and the [ensure_schema()] of [create_app] and the
    [db.create_all()] of [main] return, and whether the
    [db.create_all()] inside each of the two [bootstrap_rbac()] does. *)
Record script_env := {
  app_create_all : bool;
  app_ensure_schema : bool;
  app_rbac_create_all : bool;
  main_create_all : bool;
  main_rbac_create_all : bool;
}.

Section BootstrapUser.
Variable unicode_capitalize : pystr → pystr.
Variable unicode_lower : pystr → pystr.
Context {Cred : Type}.
(** [u.set_password(password)] on the stored credential, the credential
    of a user just built, and whether user objects have a [roles]
    attribute. *)
Variable set_password : pystr → Cred → Cred.
Variable no_password : Cred.
Variable user_has_roles : bool.

(** [bootstrap_rbac()] on the full rows: the users keep their other
    columns. *)
Definition bootstrap_site (create_all_ok : bool) (d : site Cred) : site Cred :=
  let db := bootstrap_rbac unicode_capitalize create_all_ok (site_db d) in
  {| s_permissions := permissions db;
     s_roles := roles db;
     s_accounts := zip_with with_user (s_accounts d) (users db) |}.

(** [User.query.filter_by(email=email).first()] *)
Definition first_account (accounts : list (Account Cred)) (email : pystr)
    : option (nat * Account Cred) :=
  list_find (λ a, a_email a = email) accounts.

(** [User(email=email, nom=nom or "Utilisateur")] *)
Definition new_account (email : pystr) (nom : option pystr) : Account Cred :=
  {| a_email := email;
     a_nom := match nom with
              | None | Some [] => py "Utilisateur"
              | Some n => n
              end;
     a_secteur := None;
     a_cred := no_password;
     a_user := {| u_role := None;
                  u_roles := if user_has_roles then Some [] else None |} |}.

(** The assignments [ensure_user] makes on the user object before it
    commits it. *)
Definition prepare_account (password role_code : pystr)
    (secteur : option pystr) (a : Account Cred) : Account Cred :=
  {| a_email := a_email a;
     a_nom := a_nom a;
     a_secteur := match secteur with
                  | Some s => Some s
                  | None => a_secteur a
                  end;
     a_cred := set_password password (a_cred a);
     a_user := {| u_role := Some (legacy_for role_code);
                  u_roles := u_roles (a_user a) |} |}.

(** [if role not in u.roles: u.roles.append(role)], skipped without a
    [roles] attribute. *)
Definition attach_role (j : nat) (a : Account Cred) : Account Cred :=
  match u_roles (a_user a) with
  | None => a
  | Some mine =>
    if bool_decide (j ∈ mine) then a
    else with_user a {| u_role := u_role (a_user a);
                        u_roles := Some (mine ++ [j]) |}
  end.

(** [ensure_user(email, password, role_code, nom, secteur)]: the state
    afterwards, the position of the user and [created], for a database
    that accepts the commits. *)
Definition ensure_user (email : option pystr) (password role_code : pystr)
    (nom secteur : option pystr) (d : site Cred)
    : outcome (site Cred * (nat * bool)) :=
  let email := lower unicode_lower (strip (default [] email)) in
  if bool_decide (email = []) then Raises ValueError
  else
    let '(i, created, accounts) :=
      match first_account (s_accounts d) email with
      | Some (i, _) => (i, false, s_accounts d)
      | None => (length (s_accounts d), true,
                 s_accounts d ++ [new_account email nom])
      end in
    let accounts := alter (prepare_account password role_code secteur)
                          i accounts in
    let '(j, rs) :=
      match first_role (s_roles d) role_code with
      | Some (j, _) => (j, s_roles d)
      | None =>
        (length (s_roles d),
         s_roles d ++ [ {| r_code := role_code; r_label := Some role_code;
                           r_permissions := [] |} ])
      end in
    Returns ({| s_permissions := s_permissions d;
                s_roles := rs;
                s_accounts := alter (attach_role j) i accounts |},
             (i, created)).

(** The [choices] of [--role]. *)
Definition role_choices : list pystr :=
  [ py "direction"; py "finance"; py "responsable_secteur"; py "admin_tech" ].

(** What [main()] does to the database for parsed arguments: [argparse]
    exits on a role that is not among the choices; [create_app()] runs
    [db.create_all()], [ensure_schema()] and [bootstrap_rbac()]; [main]
    then runs [db.create_all()], [bootstrap_rbac()] and [ensure_user].
    An exception of the two [db.create_all()] written out here or of
    [ensure_schema()] is let through; [bootstrap_rbac] catches the one
    of its own [db.create_all()] and returns, after which the script
    goes on.  The report [main] prints afterwards is left out. *)
Definition main (env : script_env) (email : option pystr)
    (password role : pystr) (nom secteur : option pystr) (d : site Cred)
    : outcome (site Cred * (nat * bool)) :=
  if bool_decide (role ∉ role_choices) then Raises SystemExit
  else if negb (app_create_all env) then Raises DatabaseError
  else if negb (app_ensure_schema env) then Raises DatabaseError
  else
    let d := bootstrap_site (app_rbac_create_all env) d in
    if negb (main_create_all env) then Raises DatabaseError
    else
      let d := bootstrap_site (main_rbac_create_all env) d in
      ensure_user email password role nom secteur d.

End BootstrapUser.

(* ===================================================================== *)
(** ** Sample users and data used by the examples *)
(* ===================================================================== *)

(** A signed-in user who holds [bilans:view] only. *)
Definition rbac_admin : user_proxy :=
  {| is_authenticated := true;
     has_perm := Some (λ c, bool_decide (c = py "bilans:view")) |}.


(** A user who holds exactly the permission written with a leading
    blank, and a signed-out user whose [has_perm] accepts everything. *)
Definition padded_only : user_proxy :=
  {| is_authenticated := true;
     has_perm := Some (λ c, bool_decide (c = py " admin:rbac")) |}.

Definition signed_out : user_proxy :=
  {| is_authenticated := false; has_perm := Some (λ _, true) |}.


(** A database before the first bootstrap: one default permission with
    no label yet, one permission of the site's own, a [direction] role
    that holds only the latter, and three users (the last one without a
    [roles] attribute). *)
Definition sample_db : database :=
  {| permissions :=
       [ {| p_code := py "admin:rbac"; p_label := None; p_category := None |};
         {| p_code := py "site:custom"; p_label := Some (py "Custom");
            p_category := Some (py "Site") |} ];
     roles :=
       [ {| r_code := py "direction"; r_label := Some (py "Direction");
            r_permissions := [1%nat] |} ];
     users :=
       [ {| u_role := Some (py "directrice"); u_roles := Some [] |};
         {| u_role := None; u_roles := Some [0%nat] |};
         {| u_role := Some (py "finance"); u_roles := None |} ] |}.

(** A permission table in which two rows carry the code [stats:view],
    both with a label of the site's own. *)
Definition shadowed_db : database :=
  {| permissions :=
       [ {| p_code := py "stats:view"; p_label := Some (py "old");
            p_category := None |};
         {| p_code := py "stats:view"; p_label := Some (py "older");
            p_category := None |} ];
     roles := [];
     users := [] |}.

(** A signed-in user object without role methods, whose [role_codes] is
    a plain list. *)
Definition plain_member : member :=
  {| m_user := rbac_admin;
     m_has_role := None;
     m_has_any_role := None;
     m_role_codes := RcCodes [py "finance"; py "direction"] |}.

(** A database with a role of the site's own and two roles carrying the
    code [direction]. *)
Definition two_directions_db : database :=
  {| permissions :=
       [ {| p_code := py "site:custom"; p_label := Some (py "Custom");
            p_category := Some (py "Site") |} ];
     roles :=
       [ {| r_code := py "direction"; r_label := Some (py "Direction");
            r_permissions := [0%nat] |};
         {| r_code := py "benevole"; r_label := None;
            r_permissions := [0%nat] |};
         {| r_code := py "direction"; r_label := Some (py "Bis");
            r_permissions := [] |} ];
     users := [] |}.

(** The sample tables with one account; the credential is the password
    set last, if any. *)
Definition keep_last (password : pystr) (_ : option pystr) : option pystr :=
  Some password.

Definition sample_site : site (option pystr) :=
  {| s_permissions := permissions sample_db;
     s_roles := roles sample_db;
     s_accounts :=
       [ {| a_email := py "chef@asso.fr"; a_nom := py "Chef";
            a_secteur := Some (py "nord"); a_cred := None;
            a_user := {| u_role := Some (py "directrice");
                         u_roles := Some [] |} |} ] |}.

(** The call that gives the sample account the [finance] role, and the
    state it leaves. *)
Definition repair_chef (d : site (option pystr))
    : outcome (site (option pystr) * (nat * bool)) :=
  ensure_user id keep_last None true (Some (py " Chef@Asso.fr "))
    (py "secret") (py "finance") (Some (py "Autre")) None d.

Definition repaired_site : site (option pystr) :=
  match repair_chef sample_site with
  | Returns (d', _) => d'
  | Raises _ => sample_site
  end.

(** The script run for a new finance user on the sample tables, when
    every database call returns and when the tables cannot be created
    inside the two bootstraps, and the state each run leaves. *)
Definition all_well : script_env :=
  {| app_create_all := true; app_ensure_schema := true;
     app_rbac_create_all := true; main_create_all := true;
     main_rbac_create_all := true |}.

Definition bootstraps_skipped : script_env :=
  {| app_create_all := true; app_ensure_schema := true;
     app_rbac_create_all := false; main_create_all := true;
     main_rbac_create_all := false |}.

Definition script_run (env : script_env) (role : pystr)
    (d : site (option pystr))
    : outcome (site (option pystr) * (nat * bool)) :=
  main id id keep_last None true env (Some (py "compta@asso.fr"))
    (py "secret") role (Some (py "Compta")) None d.

Definition script_site (env : script_env) : site (option pystr) :=
  match script_run env (py "finance") sample_site with
  | Returns (d', _) => d'
  | Raises _ => sample_site
  end.


(* ===================================================================== *)
(** ** Auxiliary notions used to state the properties *)
(* ===================================================================== *)

(** Position of the last row carrying [code]: the row the dict built by
    [by_code] keeps for that key. *)
Fixpoint last_index (code : pystr) (rows : list Permission) : option nat :=
  match rows with
  | [] => None
  | p :: rest =>
    match last_index code rest with
    | Some k => Some (S k)
    | None => if bool_decide (p_code p = code) then Some 0%nat else None
    end
  end.

Section BootstrapAux.
Variable unicode_capitalize : pystr → pystr.

(** The row inserted for a missing default permission. *)
Definition new_row (code label : pystr) : Permission :=
  {| p_code := code; p_label := Some label;
     p_category := Some (_category_from_code unicode_capitalize code) |}.

(** An existing row once its label and category are brought in line. *)
Definition fix_row (code label : pystr) (p : Permission) : Permission :=
  {| p_code := p_code p; p_label := Some label;
     p_category := Some (_category_from_code unicode_capitalize code) |}.

(** A row carries the default label and category of [code]. *)
Definition in_line (code label : pystr) (p : Permission) : Prop :=
  p_code p = code ∧ p_label p = Some label
  ∧ p_category p = Some (_category_from_code unicode_capitalize code).

(** Effect of one loop iteration on the table alone. *)
Definition rows_step (existing : gmap pystr nat) (rows : list Permission)
    (entry : pystr * pystr) : list Permission :=
  match existing !! entry.1 with
  | Some i => alter (fix_row entry.1 entry.2) i rows
  | None => rows ++ [new_row entry.1 entry.2]
  end.

(** What the loop does to the rows that were there, and what it adds. *)
Definition upd_old (existing : gmap pystr nat) (olds : list Permission)
    (entry : pystr * pystr) : list Permission :=
  match existing !! entry.1 with
  | Some i => alter (fix_row entry.1 entry.2) i olds
  | None => olds
  end.

Definition new_rows (existing : gmap pystr nat) (defs : list (pystr * pystr))
    : list Permission :=
  omap (λ entry, match existing !! entry.1 with
                 | Some _ => None
                 | None => Some (new_row entry.1 entry.2)
                 end) defs.

(** What happens to the row at position [i] over the whole loop. *)
Definition fix_at (existing : gmap pystr nat) (i : nat) (p : Permission)
    (defs : list (pystr * pystr)) : Permission :=
  foldl (λ p entry, if bool_decide (existing !! entry.1 = Some i)
                    then fix_row entry.1 entry.2 p else p) p defs.

(** The permission block run over an arbitrary list of defaults. *)
Definition sync_permissions_for (defs : list (pystr * pystr))
    (rows : list Permission) : list Permission * bool :=
  foldl (perm_step unicode_capitalize (by_code rows)) (rows, false) defs.

End BootstrapAux.

(** The permission rows a role is given for the list [perms]. *)
Definition granted (perms_by_code : gmap pystr nat) (perms : list pystr)
    : list nat :=
  omap (λ c, perms_by_code !! c) (elements (list_to_set perms : gset pystr)).

Definition set_permissions (ids : list nat) (r : Role) : Role :=
  {| r_code := r_code r; r_label := r_label r; r_permissions := ids |}.

(** The codes of the permission rows a role refers to. *)
Definition role_codes (rows : list Permission) (r : Role) : list pystr :=
  omap (λ i, p_code <$> rows !! i) (r_permissions r).


(** The legacy map as the specification words it: the two spellings of
    the director go to [direction], the three of finance to [finance],
    everything else is kept. *)
Definition legacy_role_of (legacy : pystr) : pystr :=
  if bool_decide (legacy ∈ [py "directrice"; py "direction"])
  then py "direction"
  else if bool_decide (legacy ∈ [py "financiere"; py "financière";
                                  py "finance"])
  then py "finance"
  else legacy.

(** [(u.role or "responsable_secteur").strip()] *)
Definition legacy_of (role : option pystr) : pystr :=
  strip match role with
        | None | Some [] => py "responsable_secteur"
        | Some r => r
        end.


(* ===================================================================== *)
(** ** Notions used to state the properties of [ensure_schema] *)
(* ===================================================================== *)

(** The words of a statement (separated by blanks). *)
Fixpoint sql_words_from (cur : pystr) (s : pystr) : list pystr :=
  match s with
  | [] => [reverse cur]
  | c :: r =>
    if c =? 32 then reverse cur :: sql_words_from [] r
    else sql_words_from (c :: cur) r
  end.

Definition sql_words (s : pystr) : list pystr :=
  filter (λ w, w ≠ []) (sql_words_from [] s).

(** The table and column of a statement of the form
    [ALTER TABLE t ADD COLUMN [IF NOT EXISTS] c ...]. *)
Definition alter_target (sql : pystr) : option (pystr * pystr) :=
  match sql_words sql with
  | w1 :: w2 :: table :: w4 :: w5 :: rest =>
    if bool_decide (w1 = py "ALTER" ∧ w2 = py "TABLE"
                    ∧ w4 = py "ADD" ∧ w5 = py "COLUMN")
    then match rest with
         | w6 :: w7 :: w8 :: col :: _ =>
           if bool_decide (w6 = py "IF" ∧ w7 = py "NOT" ∧ w8 = py "EXISTS")
           then Some (table, col) else Some (table, w6)
         | col :: _ => Some (table, col)
         | [] => None
         end
    else None
  | _ => None
  end.

(** A call that raised an exception the enclosing group sees: a failed
    statement other than the relaxation of [ligne_budget_id] (whose
    failure the inner [try] swallows), or a failed commit. *)
Definition raises (e : event) : bool :=
  match e with
  | EvExecute sql false => negb (bool_decide (sql = DROP_NOT_NULL_sql))
  | EvCommit false => true
  | _ => false
  end.

(** A call after which the group goes on. *)
Definition quiet (e : event) : bool :=
  match e with
  | EvHasTable _ | EvGetColumns _ => true
  | EvExecute sql ok => ok || bool_decide (sql = DROP_NOT_NULL_sql)
  | EvCommit _ | EvRollback _ => false
  end.

(** The calls of one guarded group: it starts with a call satisfying
    [first], and either every call went through and the last one is the
    successful commit, or one call raised, nothing else of the group was
    run and the rollback follows, which returns or raises in its turn. *)
Definition group_trace (first : event → Prop) (t : list event) : Prop :=
  (∃ e t', t = e :: t' ∧ first e)
  ∧ ((∃ pre, t = pre ++ [EvCommit true] ∧ Forall (λ e, quiet e = true) pre)
     ∨ (∃ pre e ok, t = pre ++ [e; EvRollback ok] ∧ raises e = true
                    ∧ Forall (λ e, quiet e = true) pre)).

(** The group ended on a rollback that raised. *)
Definition escaped (t : list event) : Prop :=
  ∃ pre, t = pre ++ [EvRollback false].

(** First call of each of the seven groups. *)
Definition group_starts : list (event → Prop) :=
  [ eq (EvHasTable (py "ligne_budget"));
    eq (EvHasTable (py "session_activite"));
    eq (EvHasTable (py "atelier_activite"));
    eq (EvHasTable (py "participant"));
    eq (EvHasTable (py "archive_emargement"));
    (λ e, ∃ ok, e = EvExecute PRESENCE_INDEX_sql ok);
    eq (EvHasTable (py "depense")) ].

Section SchemaAux.
Context {W : Type}.

(** The calls a computation adds to the trace. *)
Definition extends {A} (m : M W A) : Prop :=
  ∀ st, ∃ t, trace (m st).2 = trace st ++ t.

(** A step of a group body: it only makes quiet calls when it returns,
    and stops at the call that raised otherwise. *)
Definition step_spec {A} (m : M W A) : Prop :=
  ∀ st, ∃ t, trace (m st).2 = trace st ++ t
             ∧ match (m st).1 with
               | Some _ => Forall (λ e, quiet e = true) t
               | None => ∃ pre e, t = pre ++ [e] ∧ raises e = true
                                  ∧ Forall (λ e, quiet e = true) pre
               end.

(** The rest of a group body, down to its commit. *)
Definition tail_spec (m : M W unit) : Prop :=
  ∀ st, ∃ t, trace (m st).2 = trace st ++ t
             ∧ match (m st).1 with
               | Some _ => ∃ pre, t = pre ++ [EvCommit true]
                                  ∧ Forall (λ e, quiet e = true) pre
               | None => ∃ pre e, t = pre ++ [e] ∧ raises e = true
                                  ∧ Forall (λ e, quiet e = true) pre
               end.

Definition starts_with {A} (first : event → Prop) (m : M W A) : Prop :=
  ∀ st, ∃ e t, trace (m st).2 = trace st ++ e :: t ∧ first e.

(** The groups [try: body except Exception: db.session.rollback()] run
    one after the other, each from the state the one before left, as
    long as no handler lets an exception out. *)
Fixpoint run_groups (session_rollback : W → bool * W)
    (bodies : list (M W unit)) (st : state W) : option unit * state W :=
  match bodies with
  | [] => (Some tt, st)
  | body :: rest =>
    match try_except body (rollback session_rollback) st with
    | (Some _, st1) => run_groups session_rollback rest st1
    | (None, st1) => (None, st1)
    end
  end.

(** No call of [t] adds the column [col] to [table]. *)
Definition spares (table col : pystr) (e : event) : Prop :=
  ∀ sql ok, e = EvExecute sql ok → alter_target sql ≠ Some (table, col).

(** A computation that keeps the worlds of [Inv] and never adds the
    column. *)
Definition safe {A} (Inv : W → Prop) (table col : pystr) (m : M W A) : Prop :=
  ∀ st, Inv (world st) →
        Inv (world (m st).2)
        ∧ ∃ t, trace (m st).2 = trace st ++ t ∧ Forall (spares table col) t.

End SchemaAux.


(* ===================================================================== *)
(** ** A small database engine for the examples *)
(* ===================================================================== *)

(** The database is reduced to its schema, the columns of each table,
    in two copies: what is committed, which the inspector reads, and
    what the session's open transaction has made of it.  A column
    addition fails on a missing table or an existing column, the
    statements listed in [refused] fail, every other statement goes
    through without effect on the columns. *)
Record toy_db := {
  committed : gmap pystr (gset pystr);
  working : gmap pystr (gset pystr);
}.

Definition toy_has_table (t : pystr) (w : toy_db) : option bool * toy_db :=
  (Some (bool_decide (is_Some (committed w !! t))), w).

Definition toy_get_columns (t : pystr) (w : toy_db)
    : option (list pystr) * toy_db :=
  (elements <$> committed w !! t, w).

Definition toy_execute (refused : list pystr) (sql : pystr) (w : toy_db)
    : bool * toy_db :=
  if bool_decide (sql ∈ refused) then (false, w)
  else match alter_target sql with
       | Some (t, c) =>
         match working w !! t with
         | Some cols =>
           if bool_decide (c ∈ cols) then (false, w)
           else (true, {| committed := committed w;
                          working := <[t := {[c]} ∪ cols]> (working w) |})
         | None => (false, w)
         end
       | None => (true, w)
       end.

Definition toy_commit (w : toy_db) : bool * toy_db :=
  (true, {| committed := working w; working := working w |}).

Definition toy_rollback (w : toy_db) : bool * toy_db :=
  (true, {| committed := committed w; working := committed w |}).

(** A session whose connection is lost: the rollback raises. *)
Definition toy_rollback_lost (w : toy_db) : bool * toy_db := (false, w).

(** The tables right after [db.create_all()] on an old installation:
    none of the migrated columns is there yet. *)
Definition toy_schema : gmap pystr (gset pystr) :=
  list_to_map
    [ (py "ligne_budget", {[ py "id" ]});
      (py "session_activite", {[ py "id" ]});
      (py "atelier_activite", {[ py "id" ]});
      (py "participant", {[ py "id" ]});
      (py "archive_emargement", {[ py "id" ]});
      (py "presence_activite", {[ py "id" ]});
      (py "depense", {[ py "id"; py "ligne_budget_id" ]}) ].

Definition toy_start : state toy_db :=
  {| world := {| committed := toy_schema; working := toy_schema |};
     trace := [] |}.

(** [ensure_schema] on the toy engine. *)
Definition toy_ensure_schema (refused : list pystr) (dialect : pystr)
    : M toy_db unit :=
  ensure_schema toy_has_table toy_get_columns (toy_execute refused)
                toy_commit toy_rollback dialect.

(** The table has the column, in the committed schema and in the
    session's. *)
Definition schema_has_column (table col : pystr)
    (s : gmap pystr (gset pystr)) : Prop :=
  ∃ cols, s !! table = Some cols ∧ col ∈ cols.

Definition toy_has_column (table col : pystr) (w : toy_db) : Prop :=
  schema_has_column table col (committed w)
  ∧ schema_has_column table col (working w).

(** The statements a trace executed, in order. *)
Definition executed (t : list event) : list pystr :=
  omap (λ e, match e with EvExecute sql _ => Some sql | _ => None end) t.

(** The fourth column addition of the [session_activite] group. *)
Definition kiosk_pin_sql : pystr :=
  py "ALTER TABLE session_activite ADD COLUMN kiosk_pin VARCHAR(10)".


(* ===================================================================== *)
(** ** Notions used to state the further properties *)
(* ===================================================================== *)

(** Position of the first role carrying a code. *)
Definition first_role_index (rs : list Role) (code : pystr) : option nat :=
  fst <$> first_role rs code.

(** Every reference of the database points to a row: the permissions of
    the roles and the roles of the users. *)
Definition refs_valid (db : database) : Prop :=
  (∀ r pid, r ∈ roles db → pid ∈ r_permissions r →
            (pid < length (permissions db))%nat)
  ∧ (∀ u mine j, u ∈ users db → u_roles u = Some mine → j ∈ mine →
                 (j < length (roles db))%nat).

(** The role [ensure_user] creates when the requested one is missing. *)
Definition bare_role (role_code : pystr) : Role :=
  {| r_code := role_code; r_label := Some role_code; r_permissions := [] |}.

(** An account whose password is set once more, nothing else changed. *)
Definition set_again {Cred} (set_password : pystr → Cred → Cred)
    (password : pystr) (a : Account Cred) : Account Cred :=
  {| a_email := a_email a; a_nom := a_nom a; a_secteur := a_secteur a;
     a_cred := set_password password (a_cred a); a_user := a_user a |}.

(** The columns [ensure_schema] adds: the table and column arguments of
    its calls of [add_col], in order. *)
Definition migrated_columns : list (pystr * pystr) :=
  [ (py "ligne_budget", py "nature");
    (py "session_activite", py "is_deleted");
    (py "session_activite", py "deleted_at");
    (py "session_activite", py "kiosk_open");
    (py "session_activite", py "kiosk_pin");
    (py "session_activite", py "kiosk_token");
    (py "session_activite", py "kiosk_opened_at");
    (py "atelier_activite", py "is_deleted");
    (py "atelier_activite", py "deleted_at");
    (py "participant", py "signature_path");
    (py "participant", py "sexe");
    (py "participant", py "type_public");
    (py "participant", py "ville");
    (py "participant", py "quartier_id");
    (py "archive_emargement", py "is_deleted");
    (py "archive_emargement", py "deleted_at");
    (py "depense", py "facture_ligne_id");
    (py "depense", py "facture_quantite");
    (py "depense", py "charge_projet_id") ].

(** Whether a column addition is written with [IF NOT EXISTS]. *)
Definition if_not_exists (sql : pystr) : bool :=
  match sql_words sql with
  | _ :: _ :: _ :: _ :: _ :: w6 :: w7 :: w8 :: _ =>
    bool_decide (w6 = py "IF" ∧ w7 = py "NOT" ∧ w8 = py "EXISTS")
  | _ => false
  end.

(** The statements a run may execute under a dialect: the index, the
    relaxation on Postgres, and the addition of a migrated column,
    written with [IF NOT EXISTS] except on SQLite. *)
Definition allowed_statement (dialect sql : pystr) : Prop :=
  sql = PRESENCE_INDEX_sql
  ∨ (dialect = py "postgresql" ∧ sql = DROP_NOT_NULL_sql)
  ∨ (∃ tc, tc ∈ migrated_columns ∧ alter_target sql = Some tc
           ∧ if_not_exists sql = negb (bool_decide (dialect = py "sqlite"))).

(** A call that is no statement, or an allowed one. *)
Definition allowed_call (dialect : pystr) (e : event) : Prop :=
  ∀ sql ok, e = EvExecute sql ok → allowed_statement dialect sql.

Section SchemaRuns.
Context {W : Type}.

(** Every call a computation makes satisfies [Q]. *)
Definition only {A} (Q : event → Prop) (m : M W A) : Prop :=
  ∀ st, ∃ t, trace (m st).2 = trace st ++ t ∧ Forall Q t.

(** From a world of [Inv] the computation stays in [Inv] and executes
    exactly the statements [l], in order; it returns when [total]. *)
Definition settles {A} (Inv : W → Prop) (l : list pystr) (total : bool)
    (m : M W A) : Prop :=
  ∀ st, Inv (world st) →
        Inv (world (m st).2)
        ∧ (total = true → is_Some (m st).1)
        ∧ ∃ t, trace (m st).2 = trace st ++ t ∧ executed t = l.

(** From a world of [Inv] the computation stays in [Inv] and executes
    the statements [l] in order: all of them when it returns, the first
    ones when it raises. *)
Definition settles_upto {A} (Inv : W → Prop) (l : list pystr) (m : M W A)
    : Prop :=
  ∀ st, Inv (world st) →
        Inv (world (m st).2)
        ∧ ∃ t, trace (m st).2 = trace st ++ t
               ∧ executed t `prefix_of` l
               ∧ (is_Some (m st).1 → executed t = l).

(** The inspector reports every migrated column. *)
Definition up_to_date (insp_has_table : pystr → W → option bool * W)
    (insp_get_columns : pystr → W → option (list pystr) * W) (w : W)
    : Prop :=
  ∀ table col, (table, col) ∈ migrated_columns →
    ∃ w1 names w2,
      insp_has_table table w = (Some true, w1)
      ∧ insp_get_columns table w1 = (Some names, w2)
      ∧ col ∈ names.

End SchemaRuns.

(* ===================================================================== *)
(** * Properties of the access checks *)
(* ===================================================================== *)

(** Closed decidable facts are settled by evaluation. *)
Ltac holds_by_evaluation :=
  apply (bool_decide_unpack _); vm_compute; exact I.
Ltac fails_by_evaluation :=
  let H := fresh in
  intros H; apply (bool_decide_pack _) in H; vm_compute in H; exact H.

Section AccessChecks.

Lemma any_perm_true (f : pystr → bool) (X : gset pystr) :
  any_perm f X = true ↔ ∃ c, c ∈ X ∧ f c = true.
Proof.
  unfold any_perm. rewrite existsb_exists. split.
  - intros (c & Hin & Hc). exists c. split; [|done].
    apply elem_of_elements, list_elem_of_In, Hin.
  - intros (c & Hin & Hc). exists c. split; [|done].
    apply list_elem_of_In, elem_of_elements, Hin.
Qed.

Lemma any_perm_false (f : pystr → bool) (X : gset pystr) :
  any_perm f X = false ↔ ∀ c, c ∈ X → f c = false.
Proof.
  split.
  - intros Hf c Hc. destruct (f c) eqn:E; [|done].
    assert (any_perm f X = true) by (apply any_perm_true; eauto).
    congruence.
  - intros Hall. destruct (any_perm f X) eqn:E; [|done].
    apply any_perm_true in E as (c & Hc & Hfc).
    rewrite (Hall c Hc) in Hfc. done.
Qed.

Lemma expand_empty code :
  strip (default [] code) = [] → _expand_perm code = ∅.
Proof. intros H. unfold _expand_perm. rewrite H. done. Qed.

Lemma expand_key code eqs :
  strip (default [] code) ≠ [] →
  PERM_EQUIVALENTS !! strip (default [] code) = Some eqs →
  _expand_perm code = eqs.
Proof.
  intros Hne Hk. unfold _expand_perm.
  rewrite bool_decide_eq_false_2 by done. by rewrite Hk.
Qed.

Lemma expand_other code :
  strip (default [] code) ≠ [] →
  PERM_EQUIVALENTS !! strip (default [] code) = None →
  _expand_perm code = {[ strip (default [] code) ]}.
Proof.
  intros Hne Hk. unfold _expand_perm.
  rewrite bool_decide_eq_false_2 by done. by rewrite Hk.
Qed.

Lemma equivalents_reflexive k eqs :
  PERM_EQUIVALENTS !! k = Some eqs → k ∈ eqs.
Proof.
  intros H. apply elem_of_list_to_map_2 in H.
  unfold PERM_EQUIVALENTS_items in H.
  repeat (apply elem_of_cons in H as [H|H];
          [inversion H; subst; apply elem_of_union_l, elem_of_singleton; reflexivity|]).
  by apply elem_of_nil in H.
Qed.

Lemma expand_contains_stripped code :
  strip (default [] code) ≠ [] →
  strip (default [] code) ∈ _expand_perm code.
Proof.
  intros Hne.
  destruct (PERM_EQUIVALENTS !! strip (default [] code)) as [eqs|] eqn:E.
  - rewrite (expand_key _ _ Hne E). by apply equivalents_reflexive.
  - rewrite (expand_other _ Hne E). by apply elem_of_singleton.
Qed.

Lemma expand_empty_iff code :
  _expand_perm code = ∅ ↔ strip (default [] code) = [].
Proof.
  split; [|apply expand_empty].
  intros He. destruct (decide (strip (default [] code) = [])) as [|Hne];
    [done|].
  pose proof (expand_contains_stripped _ Hne) as Hin.
  rewrite He in Hin. by apply not_elem_of_empty in Hin.
Qed.

Lemma can_true_iff u code :
  can u code = true ↔
    is_authenticated u = true
    ∧ ∃ f, has_perm u = Some f
           ∧ _expand_perm code ≠ ∅
           ∧ ∃ c, c ∈ _expand_perm code ∧ f c = true.
Proof.
  unfold can. destruct (is_authenticated u); simpl.
  2: { split; [done|]. by intros [? _]. }
  destruct (has_perm u) as [f|].
  2: { split; [done|]. by intros (_ & f & ? & _). }
  case_bool_decide as He.
  - split; [done|]. intros (_ & f' & _ & Hne & _). done.
  - rewrite any_perm_true. split.
    + intros Hex. split; [done|]. by exists f.
    + by intros (_ & f' & [= <-] & _ & Hex).
Qed.

Lemma require_perm_by_can {A R} code (fn : A → R) u args :
  require_perm code fn u args =
    if can u code then Return (fn args)
    else Abort (if is_authenticated u then 403 else 401)%nat.
Proof.
  unfold require_perm, can.
  destruct (is_authenticated u); simpl; [|done].
  destruct (has_perm u) as [f|]; [|done].
  case_bool_decide; [done|]. by destruct (any_perm f _).
Qed.

End AccessChecks.

(** C1. [can(code)] is a set-membership test: it answers [True] exactly
    when the current user is authenticated, has a callable [has_perm],
    the expansion of [code] is not empty and [has_perm] holds for one of
    its members.  The expansion is empty when the stripped code is
    empty, the equivalence set when the stripped code is a key of
    [PERM_EQUIVALENTS], and the singleton of the stripped code
    otherwise.  In particular [can] answers [False] for every
    unauthenticated user and for every code that strips to the empty
    string. *)
Theorem can_is_membership_test (u : user_proxy) (code : option pystr) :
  (can u code = true ↔
     is_authenticated u = true
     ∧ ∃ f, has_perm u = Some f
            ∧ _expand_perm code ≠ ∅
            ∧ ∃ c, c ∈ _expand_perm code ∧ f c = true)
  ∧ (let s := strip (default [] code) in
     (s = [] → _expand_perm code = ∅)
     ∧ (∀ eqs, s ≠ [] → PERM_EQUIVALENTS !! s = Some eqs →
               _expand_perm code = eqs)
     ∧ (s ≠ [] → PERM_EQUIVALENTS !! s = None → _expand_perm code = {[ s ]}))
  ∧ (is_authenticated u = false → can u code = false)
  ∧ (strip (default [] code) = [] → can u code = false).
Proof.
  split; [apply can_true_iff|].
  split; [simpl; split_and!;
          eauto using expand_empty, expand_key, expand_other|].
  split.
  - intros Hu. unfold can. by rewrite Hu.
  - intros Hs. destruct (can u code) eqn:E; [|done].
    apply can_true_iff in E as (_ & f & _ & Hne & _).
    by apply expand_empty in Hs.
Qed.

(** C2. The wrapper of [require_perm(code)] aborts with 401 when the
    current user is not authenticated; for an authenticated user it
    aborts with 403 when [has_perm] is not callable, or the expansion of
    [code] is empty, or [has_perm] is false on every member of the
    expansion; otherwise it calls the view and returns its result. *)
Theorem require_perm_outcomes {A R : Type} (code : option pystr)
    (fn : A → R) (u : user_proxy) (args : A) :
  (is_authenticated u = false → require_perm code fn u args = Abort 401%nat)
  ∧ (is_authenticated u = true →
       (has_perm u = None
        ∨ _expand_perm code = ∅
        ∨ ∃ f, has_perm u = Some f
               ∧ ∀ c, c ∈ _expand_perm code → f c = false) →
       require_perm code fn u args = Abort 403%nat)
  ∧ (is_authenticated u = true →
       ∀ f, has_perm u = Some f →
            _expand_perm code ≠ ∅ →
            (∃ c, c ∈ _expand_perm code ∧ f c = true) →
            require_perm code fn u args = Return (fn args)).
Proof.
  split_and!.
  - intros Hu. unfold require_perm. by rewrite Hu.
  - intros Hu Hdeny. unfold require_perm. rewrite Hu. simpl.
    destruct (has_perm u) as [f|]; [|done].
    case_bool_decide as He; [done|].
    destruct Hdeny as [?|[?|(f' & Hf & Hall)]]; [done..|].
    injection Hf as <-. apply any_perm_false in Hall. by rewrite Hall.
  - intros Hu f Hf Hne Hex. unfold require_perm. rewrite Hu, Hf. simpl.
    rewrite bool_decide_eq_false_2 by done.
    apply any_perm_true in Hex. by rewrite Hex.
Qed.

(** C10. For an authenticated user the wrapper of [require_perm(code)]
    calls the view exactly when [can(code)] answers [True], and aborts
    with 403 otherwise; both decide through the same expansion and the
    same [has_perm] calls, so the wrapper is a function of [can]'s
    answer. *)
Theorem require_perm_agrees_with_can {A R : Type} (code : option pystr)
    (fn : A → R) (u : user_proxy) (args : A) :
  is_authenticated u = true →
  ((∃ r, require_perm code fn u args = Return r) ↔ can u code = true)
  ∧ (can u code = true → require_perm code fn u args = Return (fn args))
  ∧ (can u code = false → require_perm code fn u args = Abort 403%nat)
  ∧ require_perm code fn u args =
      (if can u code then Return (fn args) else Abort 403%nat).
Proof.
  intros Hu. pose proof (require_perm_by_can code fn u args) as Heq.
  rewrite Hu in Heq. rewrite Heq.
  destruct (can u code).
  - split_and!; try done. split; [done|]. intros _. by eexists.
  - split_and!; try done. split; [|done]. intros [r Hr]. discriminate Hr.
Qed.

Lemma require_perm_agrees_with_can_witness :
  ((∃ r, require_perm (Some (py "bilan:view")) (λ n : nat, S n) rbac_admin 1%nat
         = Return r)
   ↔ can rbac_admin (Some (py "bilan:view")) = true)
  ∧ require_perm (Some (py "bilan:view")) (λ n : nat, S n) rbac_admin 1%nat
    = Return 2%nat.
Proof.
  pose proof (require_perm_agrees_with_can (Some (py "bilan:view"))
                (λ n : nat, S n) rbac_admin 1%nat eq_refl)
    as (Hiff & Hyes & _ & _).
  split; [exact Hiff|]. apply Hyes. vm_compute. reflexivity.
Defined.

Lemma can_is_membership_test_witness :
  can rbac_admin (Some (py " bilans:lourds:view ")) = true
  ∧ can {| is_authenticated := false; has_perm := has_perm rbac_admin |}
        (Some (py "bilans:view")) = false
  ∧ can rbac_admin (Some (py "   ")) = false.
Proof.
  split_and!.
  - destruct (can_is_membership_test rbac_admin
                (Some (py " bilans:lourds:view "))) as (Hiff & _).
    apply Hiff.
    split; [reflexivity|]. eexists. split; [reflexivity|].
    split; [fails_by_evaluation|].
    exists (py "bilans:view").
    split; [holds_by_evaluation|].
    vm_compute. reflexivity.
  - destruct (can_is_membership_test
                {| is_authenticated := false; has_perm := has_perm rbac_admin |}
                (Some (py "bilans:view"))) as (_ & _ & Hout & _).
    apply Hout. reflexivity.
  - destruct (can_is_membership_test rbac_admin (Some (py "   ")))
      as (_ & _ & _ & Hblank).
    apply Hblank. vm_compute. reflexivity.
Defined.

Lemma require_perm_outcomes_witness :
  require_perm (Some (py "bilan:view")) (λ n : nat, S n)
    {| is_authenticated := false; has_perm := None |} 1%nat = Abort 401%nat
  ∧ require_perm (Some (py "admin:rbac")) (λ n : nat, S n) rbac_admin 1%nat
    = Abort 403%nat
  ∧ require_perm (Some (py "bilan:view")) (λ n : nat, S n) rbac_admin 1%nat
    = Return 2%nat.
Proof.
  split_and!.
  - destruct (require_perm_outcomes (Some (py "bilan:view")) (λ n : nat, S n)
                {| is_authenticated := false; has_perm := None |} 1%nat)
      as (Hout & _).
    apply Hout. reflexivity.
  - destruct (require_perm_outcomes (Some (py "admin:rbac")) (λ n : nat, S n)
                rbac_admin 1%nat) as (_ & Hdeny & _).
    apply Hdeny; [reflexivity|].
    right. right. eexists. split; [reflexivity|].
    intros c Hc. apply bool_decide_eq_false. intros ->.
    revert Hc. fails_by_evaluation.
  - destruct (require_perm_outcomes (Some (py "bilan:view")) (λ n : nat, S n)
                rbac_admin 1%nat) as (_ & _ & Hgrant).
    apply (Hgrant eq_refl (λ c, bool_decide (c = py "bilans:view")) eq_refl).
    + fails_by_evaluation.
    + exists (py "bilans:view").
      split; [holds_by_evaluation|].
      vm_compute. reflexivity.
Defined.

(** C8, as stated, fails.  For the code [" admin:rbac"] (non-empty after
    stripping) the expansion is the singleton of the stripped code and
    does not contain the code itself, and an authenticated user for whom
    [has_perm(" admin:rbac")] is true is denied by both checks; a
    signed-out user for whom [has_perm] is true is denied as well. *)
Lemma expansion_misses_padded_code :
  let code := py " admin:rbac" in
  strip code ≠ []
  ∧ (code ∉ _expand_perm (Some code))
  ∧ (∃ f, has_perm padded_only = Some f ∧ f code = true)
  ∧ can padded_only (Some code) = false
  ∧ require_perm (Some code) (λ _ : unit, tt) padded_only tt = Abort 403%nat
  ∧ (∃ f, has_perm signed_out = Some f ∧ f (py "admin:rbac") = true)
  ∧ can signed_out (Some (py "admin:rbac")) = false
  ∧ require_perm (Some (py "admin:rbac")) (λ _ : unit, tt) signed_out tt
    = Abort 401%nat.
Proof.
  simpl. split_and!.
  - fails_by_evaluation.
  - fails_by_evaluation.
  - eexists. split; [reflexivity|]. vm_compute. reflexivity.
  - vm_compute. reflexivity.
  - vm_compute. reflexivity.
  - eexists. split; reflexivity.
  - reflexivity.
  - reflexivity.
Qed.

(** C8, amended.  For every permission code whose stripped form is not
    empty, the expansion computed by [_expand_perm] contains the
    stripped code: every key of [PERM_EQUIVALENTS] is a member of its
    own equivalence set, and a stripped code that is not a key expands
    to its singleton.  Consequently an authenticated user for whom
    [has_perm] is true on the stripped code is never denied by
    [can(code)] or [require_perm(code)]. *)
Theorem expansion_contains_stripped_code (code : option pystr) :
  let s := strip (default [] code) in
  s ≠ [] →
  s ∈ _expand_perm code
  ∧ (∀ k eqs, PERM_EQUIVALENTS !! k = Some eqs → k ∈ eqs)
  ∧ (PERM_EQUIVALENTS !! s = None → _expand_perm code = {[ s ]})
  ∧ (∀ u f, is_authenticated u = true → has_perm u = Some f → f s = true →
       can u code = true
       ∧ (∀ (A R : Type) (fn : A → R) (args : A),
            require_perm code fn u args = Return (fn args))).
Proof.
  intros s Hne.
  pose proof (expand_contains_stripped code Hne) as Hin.
  split_and!; [done|apply equivalents_reflexive|by apply expand_other|].
  intros u f Hu Hf Hfs.
  assert (can u code = true) as Hcan.
  { apply can_true_iff. split; [done|]. exists f. split; [done|].
    split; [|by exists s]. intros He. rewrite He in Hin.
    by apply not_elem_of_empty in Hin. }
  split; [done|]. intros A R fn args.
  rewrite require_perm_by_can, Hcan. done.
Qed.

Lemma expansion_contains_stripped_code_witness :
  py "admin:rbac" ∈ _expand_perm (Some (py " admin:rbac"))
  ∧ can {| is_authenticated := true;
           has_perm := Some (λ c, bool_decide (c = py "admin:rbac")) |}
        (Some (py " admin:rbac")) = true.
Proof.
  pose proof (expansion_contains_stripped_code (Some (py " admin:rbac")))
    as H.
  simpl in H.
  destruct H as (Hin & _ & _ & Hcan).
  { fails_by_evaluation. }
  split; [exact Hin|].
  apply (Hcan _ (λ c, bool_decide (c = py "admin:rbac")));
    [reflexivity|reflexivity|vm_compute; reflexivity].
Defined.

(* ===================================================================== *)
(** * Properties of [bootstrap_rbac] *)
(* ===================================================================== *)

Section DictOfRows.

Lemma index_by_code_lookup i rows acc c :
  index_by_code i rows acc !! c =
    match last_index c rows with
    | Some k => Some (i + k)%nat
    | None => acc !! c
    end.
Proof.
  revert i acc. induction rows as [|p rest IH]; intros i acc; simpl; [done|].
  rewrite IH. destruct (last_index c rest) as [k|]; [f_equal; lia|].
  case_bool_decide as Hc.
  - subst. rewrite lookup_insert_eq. f_equal; lia.
  - by rewrite lookup_insert_ne.
Qed.

Lemma by_code_lookup rows c : by_code rows !! c = last_index c rows.
Proof.
  unfold by_code. rewrite index_by_code_lookup.
  by destruct (last_index c rows).
Qed.

Lemma last_index_Some c rows k :
  last_index c rows = Some k → ∃ p, rows !! k = Some p ∧ p_code p = c.
Proof.
  revert k. induction rows as [|p rest IH]; intros k; simpl; [done|].
  destruct (last_index c rest) as [k'|].
  - intros [= <-]. by apply IH.
  - case_bool_decide; [|done]. intros [= <-]. by exists p.
Qed.

Lemma last_index_lt c rows k : last_index c rows = Some k → (k < length rows)%nat.
Proof.
  intros (p & Hp & _)%last_index_Some. by eapply lookup_lt_Some.
Qed.

Lemma last_index_None c rows :
  last_index c rows = None ↔ c ∉ p_code <$> rows.
Proof.
  induction rows as [|p rest IH]; csimpl.
  - split; [|done]. intros _. apply not_elem_of_nil.
  - rewrite not_elem_of_cons, <- IH.
    destruct (last_index c rest) as [k|].
    + split; [done|]. by intros [_ ?].
    + case_bool_decide as Hc.
      * split; [done|]. intros [Hne _]. by destruct Hne.
      * split; [|done]. intros _. split; [congruence|done].
Qed.

Lemma last_index_is_Some c rows :
  is_Some (last_index c rows) ↔ c ∈ p_code <$> rows.
Proof.
  rewrite <- not_eq_None_Some, last_index_None.
  destruct (decide (c ∈ p_code <$> rows)) as [Hin|Hout].
  - split; [done|]. intros _ Hn. by apply Hn.
  - split; [|done]. intros Hn. by destruct Hn.
Qed.

Lemma last_index_app c r1 r2 :
  last_index c (r1 ++ r2) =
    match last_index c r2 with
    | Some k => Some (length r1 + k)%nat
    | None => last_index c r1
    end.
Proof.
  induction r1 as [|p r1 IH]; simpl.
  - by destruct (last_index c r2).
  - rewrite IH. by destruct (last_index c r2).
Qed.

Lemma last_index_codes c rows rows' :
  p_code <$> rows = p_code <$> rows' → last_index c rows = last_index c rows'.
Proof.
  revert rows'. induction rows as [|p rest IH]; intros [|p' rest'];
    csimpl; try done.
  intros [= Hp Hrest]. rewrite (IH _ Hrest), Hp. done.
Qed.

Lemma last_index_unique rows i p :
  NoDup (p_code <$> rows) → rows !! i = Some p →
  last_index (p_code p) rows = Some i.
Proof.
  revert i. induction rows as [|q rest IH]; intros i; csimpl; [done|].
  rewrite NoDup_cons. intros [Hq Hnd].
  destruct i as [|i]; simpl.
  - intros [= ->].
    assert (last_index (p_code p) rest = None) as -> by by apply last_index_None.
    by rewrite bool_decide_eq_true_2.
  - intros Hi. by rewrite (IH i Hnd Hi).
Qed.

Lemma by_code_lookup_Some rows c i :
  by_code rows !! c = Some i → ∃ p, rows !! i = Some p ∧ p_code p = c.
Proof. rewrite by_code_lookup. apply last_index_Some. Qed.

Lemma by_code_is_Some rows c :
  is_Some (by_code rows !! c) ↔ c ∈ p_code <$> rows.
Proof. rewrite by_code_lookup. apply last_index_is_Some. Qed.

Lemma by_code_unique rows i p :
  NoDup (p_code <$> rows) → rows !! i = Some p →
  by_code rows !! p_code p = Some i.
Proof. rewrite by_code_lookup. apply last_index_unique. Qed.

Lemma by_code_inj rows c c' i :
  by_code rows !! c = Some i → by_code rows !! c' = Some i → c = c'.
Proof.
  rewrite !by_code_lookup.
  intros (p & Hp & <-)%last_index_Some (p' & Hp' & <-)%last_index_Some.
  congruence.
Qed.

End DictOfRows.

Section PermissionPhase.
Variable uc : pystr → pystr.
Implicit Types (ex : gmap pystr nat) (rows olds news : list Permission).
Implicit Types (defs : list (pystr * pystr)) (p q : Permission).

Lemma DEFAULT_PERMS_codes_NoDup : NoDup DEFAULT_PERMS.*1.
Proof. holds_by_evaluation. Qed.

Lemma insert_as_alter {A} (f : A → A) (l : list A) i x :
  l !! i = Some x → <[i := f x]> l = alter f i l.
Proof.
  revert i. induction l as [|y l IH]; intros [|i] Hi; simplify_eq/=;
    f_equal; auto.
Qed.

Lemma alter_out_of_range {A} (f : A → A) (l : list A) i :
  l !! i = None → alter f i l = l.
Proof.
  revert i. induction l as [|y l IH]; intros [|i] Hi; simplify_eq/=;
    f_equal; auto.
Qed.

Lemma perm_step_rows ex rows ch entry :
  (perm_step uc ex (rows, ch) entry).1 = rows_step uc ex rows entry.
Proof.
  destruct entry as [code label]. unfold perm_step, rows_step. simpl.
  destruct (ex !! code) as [i|]; [|done].
  destruct (rows !! i) as [p|] eqn:Hp; simpl.
  - rewrite <- (insert_as_alter _ _ _ _ Hp).
    destruct p as [c l k]. unfold fix_row. simpl.
    repeat (case_bool_decide; simpl in * ); simplify_eq; try done;
      repeat match goal with H : ¬ _ ≠ _ |- _ => apply dec_stable in H end;
      simplify_eq; done.
  - by rewrite alter_out_of_range.
Qed.

Lemma perm_step_in_line ex rows ch code label i p :
  ex !! code = Some i → rows !! i = Some p → in_line uc code label p →
  perm_step uc ex (rows, ch) (code, label) = (rows, ch).
Proof.
  intros Hex Hp (_ & Hl & Hc). unfold perm_step. rewrite Hex, Hp.
  rewrite bool_decide_eq_false_2 by (by intros []).
  rewrite bool_decide_eq_false_2 by (by intros []).
  by rewrite list_insert_id.
Qed.

Lemma foldl_perm_step_rows ex defs rows ch :
  (foldl (perm_step uc ex) (rows, ch) defs).1
  = foldl (rows_step uc ex) rows defs.
Proof.
  revert rows ch. induction defs as [|d defs IH]; intros rows ch;
    cbn [foldl]; [done|].
  destruct (perm_step uc ex (rows, ch) d) as [rows' ch'] eqn:E.
  rewrite IH. f_equal. by rewrite <- (perm_step_rows ex rows ch d), E.
Qed.

Lemma foldl_upd_old_length ex defs olds :
  length (foldl (upd_old uc ex) olds defs) = length olds.
Proof.
  revert olds. induction defs as [|d defs IH]; intros olds; simpl; [done|].
  rewrite IH. unfold upd_old. destruct (ex !! d.1); [|done].
  apply length_alter.
Qed.

Lemma foldl_rows_step_shape ex defs olds news :
  (∀ c i, ex !! c = Some i → (i < length olds)%nat) →
  foldl (rows_step uc ex) (olds ++ news) defs
  = foldl (upd_old uc ex) olds defs ++ news ++ new_rows uc ex defs.
Proof.
  revert olds news.
  induction defs as [|d defs IH]; intros olds news Hb; simpl.
  - by rewrite app_nil_r.
  - unfold rows_step at 2. unfold upd_old at 2. unfold new_rows. csimpl.
    destruct (ex !! d.1) as [i|] eqn:E.
    + rewrite alter_app_l by eauto. rewrite IH; [done|].
      intros c k Hk. rewrite length_alter. eauto.
    + rewrite <- app_assoc, IH by done. by rewrite <- app_assoc.
Qed.

Lemma fix_at_cons ex i p d defs :
  fix_at uc ex i p (d :: defs)
  = fix_at uc ex i (if bool_decide (ex !! d.1 = Some i)
                    then fix_row uc d.1 d.2 p else p) defs.
Proof. reflexivity. Qed.

Lemma foldl_upd_old_lookup ex defs olds i :
  foldl (upd_old uc ex) olds defs !! i
  = (λ p, fix_at uc ex i p defs) <$> olds !! i.
Proof.
  revert olds. induction defs as [|d defs IH]; intros olds; cbn [foldl].
  - by destruct (olds !! i).
  - rewrite IH. unfold upd_old at 1. destruct (ex !! d.1) as [k|] eqn:E.
    + rewrite list_lookup_alter. case_decide; subst.
      * destruct (olds !! i) as [p|]; [|done]. cbn [fmap option_fmap option_map].
        by rewrite fix_at_cons, bool_decide_eq_true_2.
      * destruct (olds !! i) as [p|]; [|done]. cbn [fmap option_fmap option_map].
        by rewrite fix_at_cons, bool_decide_eq_false_2 by congruence.
    + destruct (olds !! i) as [p|]; [|done]. cbn [fmap option_fmap option_map].
      by rewrite fix_at_cons, bool_decide_eq_false_2 by congruence.
Qed.

Lemma fix_at_code ex i p defs : p_code (fix_at uc ex i p defs) = p_code p.
Proof.
  revert p. induction defs as [|d defs IH]; intros p; [done|].
  rewrite fix_at_cons, IH. by case_bool_decide.
Qed.

Lemma fix_at_untouched ex i p defs :
  (∀ c l, (c, l) ∈ defs → ex !! c ≠ Some i) → fix_at uc ex i p defs = p.
Proof.
  revert p. induction defs as [|[c l] defs IH]; intros p Hno; [done|].
  rewrite fix_at_cons. simpl.
  rewrite bool_decide_eq_false_2 by (apply (Hno c l); left).
  apply IH. intros c' l' Hin. apply (Hno c' l'). by right.
Qed.

Lemma fix_at_hit ex i p defs c l :
  NoDup defs.*1 →
  (∀ c1 c2, ex !! c1 = Some i → ex !! c2 = Some i → c1 = c2) →
  (c, l) ∈ defs → ex !! c = Some i →
  ∃ q, fix_at uc ex i p defs = fix_row uc c l q.
Proof.
  intros Hnd Hinj. revert p.
  induction defs as [|[c' l'] defs IH]; intros p Hin Hex.
  { by apply elem_of_nil in Hin. }
  csimpl in Hnd. apply NoDup_cons in Hnd as [Hc' Hnd].
  apply elem_of_cons in Hin as [[= <- <-]|Hin]; rewrite fix_at_cons; simpl.
  - rewrite bool_decide_eq_true_2 by done. exists p.
    apply fix_at_untouched. intros c2 l2 Hin2 Hex2.
    rewrite (Hinj c2 c Hex2 Hex) in Hin2.
    apply Hc'. apply list_elem_of_fmap. by exists (c, l2).
  - by apply IH.
Qed.

End PermissionPhase.

Section PermissionPhaseResult.
Variable uc : pystr → pystr.
Implicit Types (ex : gmap pystr nat) (rows olds news : list Permission).
Implicit Types (p q : Permission).
Variable defs : list (pystr * pystr).
Hypothesis defs_NoDup : NoDup defs.*1.

Local Abbreviation sync_for := (sync_permissions_for uc defs).

Lemma NoDup_fst_functional {A B} (l : list (A * B)) x y1 y2 :
  NoDup l.*1 → (x, y1) ∈ l → (x, y2) ∈ l → y1 = y2.
Proof.
  induction l as [|[a b] l IH]; csimpl; intros Hnd H1 H2.
  { by apply elem_of_nil in H1. }
  apply NoDup_cons in Hnd as [Ha Hnd].
  assert (∀ y, (a, y) ∈ l → False) as Hno.
  { intros y Hy. apply Ha, list_elem_of_fmap. by exists (a, y). }
  apply elem_of_cons in H1 as [H1|H1];
    apply elem_of_cons in H2 as [H2|H2]; simplify_eq; try done.
  - by destruct (Hno y2).
  - by destruct (Hno y1).
  - by apply IH.
Qed.

Lemma by_code_bound rows c i :
  by_code rows !! c = Some i → (i < length rows)%nat.
Proof. rewrite by_code_lookup. apply last_index_lt. Qed.

Lemma sync_permissions_rows rows :
  (sync_for rows).1
  = foldl (upd_old uc (by_code rows)) rows defs
    ++ new_rows uc (by_code rows) defs.
Proof.
  unfold sync_permissions_for. rewrite foldl_perm_step_rows.
  pose proof (foldl_rows_step_shape uc (by_code rows) defs rows []
                (by_code_bound rows)) as H.
  rewrite app_nil_r in H. exact H.
Qed.

Lemma sync_permissions_old_row rows i p :
  rows !! i = Some p →
  (sync_for rows).1 !! i
  = Some (fix_at uc (by_code rows) i p defs).
Proof.
  intros Hp. rewrite sync_permissions_rows.
  rewrite lookup_app_l
    by (rewrite foldl_upd_old_length; eauto using lookup_lt_Some).
  by rewrite foldl_upd_old_lookup, Hp.
Qed.

Lemma upd_old_codes ex olds :
  p_code <$> foldl (upd_old uc ex) olds defs = p_code <$> olds.
Proof.
  apply list_eq. intros i.
  rewrite !list_lookup_fmap, foldl_upd_old_lookup.
  destruct (olds !! i) as [p|]; [|done].
  cbn [fmap option_fmap option_map]. f_equal. apply fix_at_code.
Qed.

Lemma elem_of_new_rows ex q :
  q ∈ new_rows uc ex defs
  ↔ ∃ c l, (c, l) ∈ defs ∧ ex !! c = None ∧ q = new_row uc c l.
Proof.
  unfold new_rows. rewrite list_elem_of_omap. split.
  - intros ([c l] & Hin & Hq). simpl in Hq.
    destruct (ex !! c) eqn:E; [done|]. injection Hq as <-. by exists c, l.
  - intros (c & l & Hin & Hex & ->). exists (c, l). simpl. by rewrite Hex.
Qed.

Lemma new_rows_codes ex c :
  c ∈ p_code <$> new_rows uc ex defs → ex !! c = None ∧ c ∈ defs.*1.
Proof.
  intros (q & -> & (c' & l & Hin & Hex & ->)%elem_of_new_rows)%list_elem_of_fmap.
  split; [done|]. apply list_elem_of_fmap. by exists (c', l).
Qed.

(** After the permission block every default code is registered, in the
    dict the next run builds, to a row that carries its label and
    category. *)
Lemma sync_permissions_settled rows c l :
  (c, l) ∈ defs →
  ∃ j q, by_code (sync_for rows).1 !! c = Some j
         ∧ (sync_for rows).1 !! j = Some q
         ∧ in_line uc c l q
         ∧ match by_code rows !! c with
           | Some i => j = i
           | None => (length rows ≤ j)%nat
           end.
Proof.
  intros Hin. rewrite by_code_lookup, sync_permissions_rows, last_index_app.
  set (ex := by_code rows).
  set (olds := foldl (upd_old uc ex) rows defs).
  set (news := new_rows uc ex defs).
  assert (length olds = length rows) as Hlen by apply foldl_upd_old_length.
  destruct (ex !! c) as [i|] eqn:Hex.
  - assert (last_index c news = None) as ->.
    { apply last_index_None. intros [Hnone _]%new_rows_codes.
      unfold ex in *. rewrite Hnone in Hex. discriminate Hex. }
    unfold olds. rewrite (last_index_codes c _ rows) by apply upd_old_codes.
    pose proof Hex as Hi. unfold ex in Hi. rewrite by_code_lookup in Hi.
    rewrite Hi. destruct (last_index_Some _ _ _ Hi) as (p & Hp & Hpc).
    assert (∃ q, fix_at uc ex i p defs = fix_row uc c l q) as [q Hq].
    { apply fix_at_hit; [apply defs_NoDup| |exact Hin|exact Hex].
      intros c1 c2. apply by_code_inj. }
    exists i, (fix_at uc ex i p defs). split_and!; [done| | |done].
    + rewrite lookup_app_l by (rewrite foldl_upd_old_length;
                                eauto using lookup_lt_Some).
      by rewrite foldl_upd_old_lookup, Hp.
    + split; [by rewrite fix_at_code|]. by rewrite Hq.
  - assert (new_row uc c l ∈ news) as Hnew.
    { apply elem_of_new_rows. by exists c, l. }
    assert (is_Some (last_index c news)) as [k Hk].
    { apply last_index_is_Some, list_elem_of_fmap. by exists (new_row uc c l). }
    rewrite Hk. destruct (last_index_Some _ _ _ Hk) as (q & Hq & Hqc).
    exists (length olds + k)%nat, q. split_and!; [done| | |lia].
    + rewrite lookup_app_r by lia. rewrite <- Hq. f_equal. lia.
    + apply list_elem_of_lookup_2, elem_of_new_rows in Hq
        as (c' & l' & Hin' & _ & ->).
      simpl in Hqc. subst c'.
      by rewrite (NoDup_fst_functional defs c l' l defs_NoDup Hin' Hin).
Qed.

Lemma perm_steps_fixpoint T ds :
  (∀ c l, (c, l) ∈ ds →
     ∃ j q, by_code T !! c = Some j ∧ T !! j = Some q ∧ in_line uc c l q) →
  foldl (perm_step uc (by_code T)) (T, false) ds = (T, false).
Proof.
  induction ds as [|[c l] ds IH]; intros Hall; cbn [foldl]; [done|].
  destruct (Hall c l) as (j & q & Hj & Hq & Hline); [left|].
  rewrite (perm_step_in_line uc _ _ _ _ _ _ _ Hj Hq Hline).
  apply IH. intros c' l' Hin. apply Hall. by right.
Qed.

Lemma sync_permissions_twice rows :
  sync_for (sync_for rows).1
  = ((sync_for rows).1, false).
Proof.
  apply perm_steps_fixpoint. intros c l Hin.
  destruct (sync_permissions_settled rows c l Hin) as (j & q & ? & ? & ? & _).
  eauto.
Qed.

End PermissionPhaseResult.


Section RolePhase.
Implicit Types (rs : list Role) (pbc : gmap pystr nat) (r : Role).
Implicit Types (tpls : list (pystr * list pystr)).

Lemma ROLE_TEMPLATES_codes_NoDup : NoDup ROLE_TEMPLATES.*1.
Proof. holds_by_evaluation. Qed.

Lemma first_role_Some rs c i r :
  first_role rs c = Some (i, r)
  ↔ rs !! i = Some r ∧ r_code r = c
    ∧ ∀ j r', rs !! j = Some r' → (j < i)%nat → r_code r' ≠ c.
Proof. unfold first_role. by rewrite list_find_Some. Qed.

Lemma first_role_None rs c : first_role rs c = None ↔ c ∉ r_code <$> rs.
Proof.
  unfold first_role. rewrite list_find_None, Forall_forall. split.
  - intros Hall (r & -> & Hr)%list_elem_of_fmap. by apply (Hall r).
  - intros Hno r Hr Hc. apply Hno, list_elem_of_fmap. by exists r.
Qed.

Lemma alter_codes rs k (f : Role → Role) :
  (∀ r, r_code (f r) = r_code r) →
  r_code <$> alter f k rs = r_code <$> rs.
Proof.
  intros Hf. apply list_eq. intros j.
  rewrite !list_lookup_fmap, list_lookup_alter.
  case_decide; [subst|done]. destruct (rs !! j); [|done].
  cbn [fmap option_fmap option_map]. by rewrite Hf.
Qed.

Lemma first_role_alter rs c k (f : Role → Role) :
  (∀ r, r_code (f r) = r_code r) →
  first_role (alter f k rs) c
  = (λ ir : nat * Role, (ir.1, if decide (ir.1 = k) then f ir.2 else ir.2))
      <$> first_role rs c.
Proof.
  intros Hf. destruct (first_role rs c) as [[i r]|] eqn:E;
    cbn [fmap option_fmap option_map fst snd].
  - apply first_role_Some in E as (Hi & Hc & Hleast).
    apply first_role_Some. split_and!.
    + rewrite list_lookup_alter. case_decide; subst.
      * rewrite decide_True by done. by rewrite Hi.
      * rewrite decide_False by done. done.
    + case_decide; [by rewrite Hf|done].
    + intros j r' Hj Hlt. rewrite list_lookup_alter in Hj.
      case_decide; [subst|by eapply Hleast].
      destruct (rs !! j) as [r0|] eqn:E0; [|done].
      injection Hj as <-. rewrite Hf. by eapply Hleast.
  - apply first_role_None. rewrite alter_codes by done.
    by apply first_role_None.
Qed.

Lemma set_permissions_id ids r :
  r_permissions r = ids → set_permissions ids r = r.
Proof. intros <-. by destruct r. Qed.

Lemma role_step_present pbc rs c perms i r :
  first_role rs c = Some (i, r) →
  role_step pbc rs (c, perms)
  = alter (set_permissions (granted pbc perms)) i rs.
Proof. intros H. unfold role_step. by rewrite H. Qed.

Lemma role_step_absent pbc rs c perms :
  first_role rs c = None →
  role_step pbc rs (c, perms)
  = rs ++ [ {| r_code := c; r_label := Some c;
               r_permissions := granted pbc perms |} ].
Proof.
  intros H. unfold role_step. rewrite H.
  rewrite alter_app_r_alt by done. by rewrite Nat.sub_diag.
Qed.

Lemma role_step_length pbc rs tpl :
  (length rs ≤ length (role_step pbc rs tpl))%nat.
Proof.
  destruct tpl as [c perms].
  destruct (first_role rs c) as [[i r]|] eqn:E.
  - rewrite (role_step_present _ _ _ _ _ _ E), length_alter. lia.
  - rewrite (role_step_absent _ _ _ _ E), length_app. lia.
Qed.

Lemma role_step_first_same pbc rs c perms :
  ∃ i r, first_role (role_step pbc rs (c, perms)) c = Some (i, r)
         ∧ r_code r = c
         ∧ r_permissions r = granted pbc perms
         ∧ match first_role rs c with
           | Some (i0, r0) => i = i0 ∧ r_label r = r_label r0
           | None => i = length rs ∧ r_label r = Some c
           end.
Proof.
  destruct (first_role rs c) as [[i r]|] eqn:E.
  - rewrite (role_step_present _ _ _ _ _ _ E), first_role_alter, E by done.
    cbn [fmap option_fmap option_map fst snd]. rewrite decide_True by done.
    eexists _, _. split; [done|].
    apply first_role_Some in E as (_ & Hc & _). done.
  - rewrite (role_step_absent _ _ _ _ E).
    exists (length rs), {| r_code := c; r_label := Some c;
                           r_permissions := granted pbc perms |}.
    split; [|done].
    unfold first_role. rewrite list_find_app_r by done.
    simpl. rewrite decide_True by done. reflexivity.
Qed.

Lemma role_step_first_other pbc rs c perms c' :
  c' ≠ c → first_role (role_step pbc rs (c, perms)) c' = first_role rs c'.
Proof.
  intros Hne. destruct (first_role rs c) as [[i r]|] eqn:E.
  - rewrite (role_step_present _ _ _ _ _ _ E), first_role_alter by done.
    destruct (first_role rs c') as [[i' r']|] eqn:E'; [|done].
    cbn [fmap option_fmap option_map fst snd].
    rewrite decide_False; [done|]. intros ->.
    apply first_role_Some in E as (Hi & Hc & _).
    apply first_role_Some in E' as (Hi' & Hc' & _). congruence.
  - rewrite (role_step_absent _ _ _ _ E). unfold first_role.
    destruct (list_find (λ r, r_code r = c') rs) as [[i' r']|] eqn:E'.
    + by apply list_find_app_l.
    + rewrite list_find_app_r by done. simpl.
      by rewrite decide_False by done.
Qed.

Lemma foldl_role_step_other pbc tpls rs c :
  c ∉ tpls.*1 →
  first_role (foldl (role_step pbc) rs tpls) c = first_role rs c.
Proof.
  revert rs. induction tpls as [|[c0 p0] tpls IH]; intros rs Hc;
    cbn [foldl]; [done|].
  csimpl in Hc. apply not_elem_of_cons in Hc as [Hne Hc].
  by rewrite IH, role_step_first_other.
Qed.

Lemma foldl_role_step_length pbc tpls rs :
  (length rs ≤ length (foldl (role_step pbc) rs tpls))%nat.
Proof.
  revert rs. induction tpls as [|t tpls IH]; intros rs; cbn [foldl]; [done|].
  etrans; [apply (role_step_length pbc rs t)|apply IH].
Qed.

(** After the role block, the first role carrying a template's code
    holds exactly the rows granted for that template; it is the role
    that was there, or a new one labelled with its code. *)
Lemma foldl_role_step_first pbc tpls rs c perms :
  NoDup tpls.*1 → (c, perms) ∈ tpls →
  ∃ i r, first_role (foldl (role_step pbc) rs tpls) c = Some (i, r)
         ∧ r_code r = c
         ∧ r_permissions r = granted pbc perms
         ∧ match first_role rs c with
           | Some (i0, r0) => i = i0 ∧ r_label r = r_label r0
           | None => (length rs ≤ i)%nat ∧ r_label r = Some c
           end.
Proof.
  revert rs. induction tpls as [|[c0 p0] tpls IH]; intros rs Hnd Hin.
  { by apply elem_of_nil in Hin. }
  csimpl in Hnd. apply NoDup_cons in Hnd as [Hc0 Hnd]. cbn [foldl].
  apply elem_of_cons in Hin as [Heq|Hin].
  - injection Heq as -> ->.
    destruct (role_step_first_same pbc rs c0 p0) as (i & r & Hf & Hc & Hp & Hm).
    exists i, r. rewrite foldl_role_step_other by done.
    split_and!; [done..|].
    destruct (first_role rs c0) as [[i0 r0]|]; [done|].
    destruct Hm as [-> ?]. done.
  - assert (c ≠ c0) as Hne.
    { intros ->. apply Hc0, list_elem_of_fmap. by exists (c0, perms). }
    destruct (IH (role_step pbc rs (c0, p0)) Hnd Hin)
      as (i & r & Hf & Hc & Hp & Hm).
    exists i, r. split_and!; [done..|].
    rewrite role_step_first_other in Hm by done.
    destruct (first_role rs c) as [[i0 r0]|]; [done|].
    destruct Hm as [Hle ?]. split; [|done].
    pose proof (role_step_length pbc rs (c0, p0)). lia.
Qed.

Lemma role_steps_fixpoint pbc tpls rs :
  (∀ c perms, (c, perms) ∈ tpls →
     ∃ i r, first_role rs c = Some (i, r)
            ∧ r_permissions r = granted pbc perms) →
  foldl (role_step pbc) rs tpls = rs.
Proof.
  induction tpls as [|[c perms] tpls IH]; intros Hall; cbn [foldl]; [done|].
  destruct (Hall c perms) as (i & r & Hf & Hp); [left|].
  rewrite (role_step_present _ _ _ _ _ _ Hf).
  apply first_role_Some in Hf as (Hi & _ & _).
  rewrite <- (insert_as_alter _ _ _ _ Hi), set_permissions_id by done.
  rewrite list_insert_id by done.
  apply IH. intros c' perms' Hin. apply Hall. by right.
Qed.

Lemma foldl_role_step_twice pbc tpls rs :
  NoDup tpls.*1 →
  foldl (role_step pbc) (foldl (role_step pbc) rs tpls) tpls
  = foldl (role_step pbc) rs tpls.
Proof.
  intros Hnd. apply role_steps_fixpoint. intros c perms Hin.
  destruct (foldl_role_step_first pbc tpls rs c perms Hnd Hin)
    as (i & r & Hf & _ & Hp & _).
  eauto.
Qed.

End RolePhase.


Section UserPhase.
Implicit Types (rs : list Role) (u : User).

Lemma sync_user_twice rs u : sync_user rs (sync_user rs u) = sync_user rs u.
Proof.
  unfold sync_user. destruct (u_roles u) as [mine|] eqn:Hm; [|by rewrite Hm].
  destruct (first_role rs (legacy_target (u_role u))) as [[j r]|] eqn:Hf;
    [|by rewrite Hm, Hf].
  case_bool_decide as Hj.
  - by rewrite Hm, Hf, bool_decide_eq_true_2.
  - cbn [u_roles u_role]. rewrite Hf. rewrite bool_decide_eq_true_2; [done|].
    apply elem_of_app. right. by apply list_elem_of_singleton.
Qed.

Lemma legacy_map_spec s : default s (legacy_map !! s) = legacy_role_of s.
Proof.
  destruct (decide (s ∈ legacy_map_items.*1)) as [Hin|Hout].
  - unfold legacy_map_items in Hin. csimpl in Hin.
    repeat (apply elem_of_cons in Hin as [->|Hin]; [vm_compute; reflexivity|]).
    by apply elem_of_nil in Hin.
  - unfold legacy_map.
    rewrite (proj1 (not_elem_of_list_to_map legacy_map_items s) Hout).
    unfold legacy_role_of. cbn [default].
    rewrite !bool_decide_eq_false_2; [done|..];
      intros Hin; apply Hout; unfold legacy_map_items; csimpl;
      repeat (apply elem_of_cons in Hin as [->|Hin];
              [repeat first [left|right]|]);
      by apply elem_of_nil in Hin.
Qed.

Lemma legacy_target_spec role :
  legacy_target role = legacy_role_of (legacy_of role).
Proof. unfold legacy_target. apply legacy_map_spec. Qed.

End UserPhase.


Section BootstrapResult.
Variable uc : pystr → pystr.

Lemma sync_permissions_eq rows :
  sync_permissions uc rows = sync_permissions_for uc DEFAULT_PERMS rows.
Proof. reflexivity. Qed.

Lemma bootstrap_permissions db :
  permissions (bootstrap_rbac uc true db)
  = (sync_permissions_for uc DEFAULT_PERMS (permissions db)).1.
Proof. reflexivity. Qed.

Lemma bootstrap_roles db :
  roles (bootstrap_rbac uc true db)
  = foldl (role_step (by_code (permissions (bootstrap_rbac uc true db))))
          (roles db) ROLE_TEMPLATES.
Proof. reflexivity. Qed.

Lemma bootstrap_users db :
  users (bootstrap_rbac uc true db)
  = sync_user (roles (bootstrap_rbac uc true db)) <$> users db.
Proof. reflexivity. Qed.

Lemma points_here_same_code rows i p c :
  rows !! i = Some p → by_code rows !! c = Some i → c = p_code p.
Proof.
  intros Hp (q & Hq & <-)%by_code_lookup_Some. congruence.
Qed.

End BootstrapResult.


Section GrantedRows.
Implicit Types (rows : list Permission) (perms : list pystr).

Lemma elem_of_granted pbc perms i :
  i ∈ granted pbc perms ↔ ∃ c, c ∈ perms ∧ pbc !! c = Some i.
Proof.
  unfold granted. rewrite list_elem_of_omap. split.
  - intros (c & Hc & Hi). exists c. split; [|done].
    by apply elem_of_elements, elem_of_list_to_set in Hc.
  - intros (c & Hc & Hi). exists c. split; [|done].
    by apply elem_of_elements, elem_of_list_to_set.
Qed.

Lemma NoDup_omap_inj {A B} (f : A → option B) (l : list A) :
  (∀ x y z, f x = Some z → f y = Some z → x = y) →
  NoDup l → NoDup (omap f l).
Proof.
  intros Hinj. induction 1 as [|x l Hx Hnd IH]; csimpl; [constructor|].
  destruct (f x) as [z|] eqn:E; [|done].
  apply NoDup_cons. split; [|done].
  intros (y & Hy & Hfy)%list_elem_of_omap.
  by rewrite (Hinj x y z E Hfy) in Hx.
Qed.

Lemma granted_NoDup rows perms : NoDup (granted (by_code rows) perms).
Proof.
  apply NoDup_omap_inj; [|apply NoDup_elements].
  intros c1 c2 i. apply by_code_inj.
Qed.

(** The codes a role ends up with: those of its template that exist in
    the permission table. *)
Lemma role_codes_granted rows perms r c :
  r_permissions r = granted (by_code rows) perms →
  c ∈ role_codes rows r ↔ c ∈ perms ∧ c ∈ p_code <$> rows.
Proof.
  intros Hr. unfold role_codes. rewrite Hr, list_elem_of_omap. split.
  - intros (i & (c' & Hc' & Hi)%elem_of_granted & Hc).
    destruct (by_code_lookup_Some _ _ _ Hi) as (p & Hp & <-).
    rewrite Hp in Hc. injection Hc as <-. split; [done|].
    apply list_elem_of_fmap. exists p. split; [done|].
    by eapply list_elem_of_lookup_2.
  - intros [Hc Hin]. apply by_code_is_Some in Hin as [i Hi].
    exists i. split; [apply elem_of_granted; by exists c|].
    destruct (by_code_lookup_Some _ _ _ Hi) as (p & Hp & <-).
    by rewrite Hp.
Qed.

End GrantedRows.


Section TemplateFacts.

Lemma direction_template perms :
  (py "direction", perms) ∈ ROLE_TEMPLATES → perms = DEFAULT_PERMS.*1.
Proof.
  intros Hin.
  apply (NoDup_fst_functional ROLE_TEMPLATES (py "direction"));
    [apply ROLE_TEMPLATES_codes_NoDup|exact Hin|].
  right. left.
Qed.

Lemma default_codes_present (uc : pystr → pystr) (db : database) c l :
  (c, l) ∈ DEFAULT_PERMS →
  c ∈ p_code <$> permissions (bootstrap_rbac uc true db).
Proof.
  intros Hdef. apply by_code_is_Some. rewrite bootstrap_permissions.
  destruct (sync_permissions_settled uc DEFAULT_PERMS
              DEFAULT_PERMS_codes_NoDup (permissions db) c l Hdef)
    as (j & q & Hj & _).
  by exists j.
Qed.

Lemma template_codes :
  ROLE_TEMPLATES.*1 = [ py "admin_tech"; py "direction"; py "finance";
                        py "responsable_secteur" ].
Proof. reflexivity. Qed.

End TemplateFacts.


Section WholeRun.
Variable uc : pystr → pystr.

Lemma database_eq (a b : database) :
  permissions a = permissions b → roles a = roles b → users a = users b →
  a = b.
Proof. destruct a, b. cbn. by intros -> -> ->. Qed.

Lemma bootstrap_skipped db : bootstrap_rbac uc false db = db.
Proof. reflexivity. Qed.

Lemma bootstrap_permissions_twice db :
  permissions (bootstrap_rbac uc true (bootstrap_rbac uc true db))
  = permissions (bootstrap_rbac uc true db).
Proof.
  rewrite (bootstrap_permissions uc (bootstrap_rbac uc true db)).
  rewrite (bootstrap_permissions uc db).
  by rewrite (sync_permissions_twice uc DEFAULT_PERMS
                DEFAULT_PERMS_codes_NoDup).
Qed.

Lemma bootstrap_roles_twice db :
  roles (bootstrap_rbac uc true (bootstrap_rbac uc true db))
  = roles (bootstrap_rbac uc true db).
Proof.
  rewrite (bootstrap_roles uc (bootstrap_rbac uc true db)).
  rewrite bootstrap_permissions_twice.
  rewrite (bootstrap_roles uc db).
  apply foldl_role_step_twice, ROLE_TEMPLATES_codes_NoDup.
Qed.

Lemma bootstrap_users_twice db :
  users (bootstrap_rbac uc true (bootstrap_rbac uc true db))
  = users (bootstrap_rbac uc true db).
Proof.
  rewrite (bootstrap_users uc (bootstrap_rbac uc true db)).
  rewrite bootstrap_roles_twice.
  rewrite (bootstrap_users uc db).
  rewrite <- list_fmap_compose. apply list_fmap_ext.
  intros i u _. apply sync_user_twice.
Qed.

Lemma bootstrap_twice db :
  bootstrap_rbac uc true (bootstrap_rbac uc true db)
  = bootstrap_rbac uc true db.
Proof.
  apply database_eq;
    [apply bootstrap_permissions_twice|apply bootstrap_roles_twice
    |apply bootstrap_users_twice].
Qed.

End WholeRun.

(** C3, as stated, fails when two permission rows carry the same code.
    The loop looks the existing rows up in [existing = {p.code: p ...}],
    which keeps one row per code, the last the query returned: only
    that row is compared with the defaults.  The other row, which
    existed with another label and category than the default ones,
    keeps them. *)
Lemma shadowed_permission_not_updated :
  let db' := bootstrap_rbac id true shadowed_db in
  (py "stats:view", py "Voir les stats (secteur)") ∈ DEFAULT_PERMS
  ∧ permissions shadowed_db !! 0%nat
    = Some {| p_code := py "stats:view"; p_label := Some (py "old");
              p_category := None |}
  ∧ permissions db' !! 0%nat
    = Some {| p_code := py "stats:view"; p_label := Some (py "old");
              p_category := None |}
  ∧ permissions db' !! 1%nat
    = Some {| p_code := py "stats:view";
              p_label := Some (py "Voir les stats (secteur)");
              p_category := Some (py "Stats") |}.
Proof.
  cbv zeta. split_and!.
  - holds_by_evaluation.
  - reflexivity.
  - vm_compute. reflexivity.
  - vm_compute. reflexivity.
Qed.

(** C3, amended.  After a run of [bootstrap_rbac] in which
    [db.create_all()] does not raise, every pair of [DEFAULT_PERMS] is
    present as a permission
    row with that code, that label and the category
    [_category_from_code(code)] (the fixed mapping, else the capitalised
    module name: the thirty categories are listed).  A row that was
    there keeps its position and code; when its code is a default one
    and it is the row registered under that code (every row is, when
    codes are unique), its label and category are set to these values;
    rows whose code is not in [DEFAULT_PERMS] are left as they were. *)
Theorem default_permissions_bootstrapped (uc : pystr → pystr) (db : database) :
  let db' := bootstrap_rbac uc true db in
  (∀ code label, (code, label) ∈ DEFAULT_PERMS →
     ∃ i p, permissions db' !! i = Some p
            ∧ p_code p = code ∧ p_label p = Some label
            ∧ p_category p = Some (_category_from_code uc code)
            ∧ by_code (permissions db') !! code = Some i)
  ∧ (∀ i p, permissions db !! i = Some p →
       ∃ p', permissions db' !! i = Some p'
             ∧ p_code p' = p_code p
             ∧ (∀ label, (p_code p, label) ∈ DEFAULT_PERMS →
                  by_code (permissions db) !! p_code p = Some i →
                  p_label p' = Some label
                  ∧ p_category p' = Some (_category_from_code uc (p_code p)))
             ∧ (p_code p ∉ DEFAULT_PERMS.*1 → p' = p)
             ∧ (by_code (permissions db) !! p_code p ≠ Some i → p' = p))
  ∧ (NoDup (p_code <$> permissions db) →
     ∀ i p, permissions db !! i = Some p →
            by_code (permissions db) !! p_code p = Some i)
  ∧ (λ entry, _category_from_code uc entry.1) <$> DEFAULT_PERMS
    = py <$> [ "Dashboard"; "Subventions"; "Subventions"; "Subventions";
               "Dépenses"; "Dépenses"; "Dépenses"; "Budget";
               "Projets"; "Projets"; "Projets";
               "Participants"; "Participants"; "Participants";
               "Inventaire"; "Inventaire"; "Émargement"; "Pédagogie";
               "Stats"; "Stats"; "Stats impact"; "Stats impact";
               "Controle"; "Bilans"; "Activite"; "Activite";
               "Ateliers"; "Ateliers"; "Admin"; "Admin" ]%string.
Proof.
  intros db'. unfold db'. rewrite !bootstrap_permissions.
  set (rows := permissions db). split_and!.
  - intros code label Hin.
    destruct (sync_permissions_settled uc DEFAULT_PERMS
                DEFAULT_PERMS_codes_NoDup rows code label Hin)
      as (j & q & Hj & Hq & (Hc & Hl & Hcat) & _).
    by exists j, q.
  - intros i p Hp.
    exists (fix_at uc (by_code rows) i p DEFAULT_PERMS).
    split; [by apply sync_permissions_old_row|].
    split; [apply fix_at_code|]. split_and!.
    + intros label Hin Hreg.
      destruct (fix_at_hit uc (by_code rows) i p DEFAULT_PERMS
                  (p_code p) label) as [q ->];
        [apply DEFAULT_PERMS_codes_NoDup| |exact Hin|exact Hreg|done].
      intros c1 c2. apply by_code_inj.
    + intros Hout. apply fix_at_untouched. intros c l Hin Hreg.
      apply Hout. rewrite <- (points_here_same_code rows i p c Hp Hreg).
      apply list_elem_of_fmap. by exists (c, l).
    + intros Hshadow. apply fix_at_untouched. intros c l Hin Hreg.
      apply Hshadow. by rewrite <- (points_here_same_code rows i p c Hp Hreg).
  - intros Hnd i p Hp. by apply by_code_unique.
  - vm_compute. reflexivity.
Qed.

Lemma default_permissions_bootstrapped_witness :
  (∃ i p, permissions (bootstrap_rbac id true sample_db) !! i = Some p
          ∧ p_code p = py "dashboard:view"
          ∧ p_label p = Some (py "Voir le dashboard")
          ∧ p_category p = Some (py "Dashboard"))
  ∧ (permissions sample_db !! 0%nat
     = Some {| p_code := py "admin:rbac"; p_label := None;
               p_category := None |}
     ∧ ∃ p', permissions (bootstrap_rbac id true sample_db) !! 0%nat = Some p'
             ∧ p_code p' = py "admin:rbac"
             ∧ p_label p' = Some (py "Gérer les droits (RBAC)")
             ∧ p_category p' = Some (py "Admin"))
  ∧ permissions (bootstrap_rbac id true sample_db) !! 1%nat
    = permissions sample_db !! 1%nat.
Proof.
  destruct (default_permissions_bootstrapped id sample_db)
    as (Hall & Hold & _ & _).
  split; [|split].
  - destruct (Hall (py "dashboard:view") (py "Voir le dashboard"))
      as (i & p & Hp & Hc & Hl & Hcat & _); [holds_by_evaluation|].
    exists i, p. split_and!; [done..|].
    rewrite Hcat. vm_compute. reflexivity.
  - split; [reflexivity|].
    destruct (Hold 0%nat
                {| p_code := py "admin:rbac"; p_label := None;
                   p_category := None |} eq_refl)
      as (p' & Hp' & Hcode & Hupd & _).
    destruct (Hupd (py "Gérer les droits (RBAC)")) as [Hl Hcat].
    { holds_by_evaluation. }
    { vm_compute. reflexivity. }
    exists p'. split_and!; [done..|].
    rewrite Hcat. vm_compute. reflexivity.
  - destruct (Hold 1%nat
                {| p_code := py "site:custom"; p_label := Some (py "Custom");
                   p_category := Some (py "Site") |} eq_refl)
      as (p' & Hp' & _ & _ & Hkeep & _).
    rewrite Hp', Hkeep; [reflexivity|]. fails_by_evaluation.
Defined.

(** C4. After a successful run of [bootstrap_rbac] each role of
    [ROLE_TEMPLATES] ([admin_tech], [direction], [finance],
    [responsable_secteur]) exists: it is the role that was there, at its
    position and with its label, or a new one whose label is its code.
    Its permission list is overwritten: it is the list granted for the
    template, whatever it held before, without repetition, and its codes
    are exactly the template's codes that exist in the permission table.
    The [direction] role holds every code of [DEFAULT_PERMS]. *)
Theorem roles_follow_templates (uc : pystr → pystr) (db : database)
    (code : pystr) (perms : list pystr) :
  (code, perms) ∈ ROLE_TEMPLATES →
  let db' := bootstrap_rbac uc true db in
  ROLE_TEMPLATES.*1 = [ py "admin_tech"; py "direction"; py "finance";
                        py "responsable_secteur" ]
  ∧ ∃ i r, first_role (roles db') code = Some (i, r)
           ∧ r_code r = code
           ∧ match first_role (roles db) code with
             | Some (i0, r0) => i = i0 ∧ r_label r = r_label r0
             | None => (length (roles db) ≤ i)%nat ∧ r_label r = Some code
             end
           ∧ r_permissions r = granted (by_code (permissions db')) perms
           ∧ NoDup (r_permissions r)
           ∧ (∀ c, c ∈ role_codes (permissions db') r
                   ↔ c ∈ perms ∧ c ∈ p_code <$> permissions db')
           ∧ (code = py "direction" →
              ∀ c l, (c, l) ∈ DEFAULT_PERMS →
                     c ∈ role_codes (permissions db') r).
Proof.
  intros Hin db'. split; [exact template_codes|].
  unfold db'. rewrite bootstrap_roles.
  set (rows := permissions (bootstrap_rbac uc true db)).
  destruct (foldl_role_step_first (by_code rows) ROLE_TEMPLATES (roles db)
              code perms ROLE_TEMPLATES_codes_NoDup Hin)
    as (i & r & Hf & Hc & Hp & Hm).
  exists i, r. split_and!; [done..| | |].
  - rewrite Hp. apply granted_NoDup.
  - intros c. by apply role_codes_granted.
  - intros Hcode c l Hdef.
    apply (role_codes_granted rows perms r c Hp). split.
    + rewrite (direction_template perms) by (by rewrite <- Hcode).
      apply list_elem_of_fmap. by exists (c, l).
    + by eapply default_codes_present.
Qed.

Lemma roles_follow_templates_witness :
  ∃ i r, first_role (roles (bootstrap_rbac id true sample_db))
           (py "direction") = Some (i, r)
         ∧ i = 0%nat
         ∧ r_label r = Some (py "Direction")
         ∧ py "budget:delete"
             ∈ role_codes (permissions (bootstrap_rbac id true sample_db)) r
         ∧ py "site:custom"
             ∉ role_codes (permissions (bootstrap_rbac id true sample_db)) r.
Proof.
  destruct (roles_follow_templates id sample_db (py "direction")
              DEFAULT_PERMS.*1) as (_ & i & r & Hf & _ & Hm & _ & _ & Hcodes & Hall).
  { right. left. }
  exists i, r. split; [done|].
  change (first_role (roles sample_db) (py "direction"))
    with (Some (0%nat, {| r_code := py "direction";
                          r_label := Some (py "Direction");
                          r_permissions := [1%nat] |})) in Hm.
  destruct Hm as [-> ->]. split_and!; [done..| |].
  - apply (Hall eq_refl _ (py "Supprimer une ligne budgétaire")).
    holds_by_evaluation.
  - intros [Hbad _]%Hcodes. revert Hbad. fails_by_evaluation.
Defined.

(** C5. Legacy-role synchronisation.  The users keep their positions
    and their legacy role.  A user without a [roles] attribute is left
    as it is.  For a user with one, the legacy role string
    ([responsable_secteur] when it is [None] or empty, then stripped) is
    mapped ([directrice] and [direction] to [direction]; [financiere],
    [financière] and [finance] to [finance]; anything else, among which
    [responsable_secteur] and [admin_tech], to itself), and the first
    role with that code is appended to the user's roles when there is
    one and the user does not hold it yet; what the user held is kept,
    in front. *)
Theorem legacy_roles_synchronised (uc : pystr → pystr) (db : database)
    (i : nat) (u : User) :
  users db !! i = Some u →
  let db' := bootstrap_rbac uc true db in
  let target := legacy_role_of (legacy_of (u_role u)) in
  length (users db') = length (users db)
  ∧ ∃ u', users db' !! i = Some u'
          ∧ u_role u' = u_role u
          ∧ match u_roles u with
            | None => u' = u
            | Some mine =>
              match first_role (roles db') target with
              | Some (j, r) =>
                r_code r = target
                ∧ u_roles u' = Some (if bool_decide (j ∈ mine) then mine
                                     else mine ++ [j])
              | None => u_roles u' = Some mine
              end
            end
          ∧ (∀ mine, u_roles u = Some mine →
                     ∃ added, u_roles u' = Some (mine ++ added)).
Proof.
  intros Hu db' target. unfold db'.
  rewrite bootstrap_users, length_fmap. split; [done|].
  set (rs := roles (bootstrap_rbac uc true db)).
  exists (sync_user rs u).
  split; [by rewrite list_lookup_fmap, Hu|].
  unfold sync_user. rewrite legacy_target_spec. fold target.
  destruct (u_roles u) as [mine|] eqn:Hm; [|done].
  destruct (first_role rs target) as [[j r]|] eqn:Hf.
  - apply first_role_Some in Hf as (_ & Hc & _).
    case_bool_decide; cbn [u_role u_roles].
    + rewrite Hm. split_and!; [done..|].
      intros ? [= <-]. exists []. by rewrite app_nil_r.
    + split_and!; [done..|]. intros ? [= <-]. by exists [j].
  - rewrite Hm. split_and!; [done..|].
    intros ? [= <-]. exists []. by rewrite app_nil_r.
Qed.

Lemma legacy_roles_synchronised_witness :
  ∃ u', users (bootstrap_rbac id true sample_db) !! 0%nat = Some u'
        ∧ u_role u' = Some (py "directrice")
        ∧ u_roles u' = Some [0%nat].
Proof.
  destruct (legacy_roles_synchronised id sample_db 0%nat
              {| u_role := Some (py "directrice"); u_roles := Some [] |}
              eq_refl) as (_ & u' & Hu' & Hrole & Hsync & _).
  exists u'. split_and!; [done..|].
  cbn [u_roles u_role] in Hsync.
  destruct (first_role _ _) as [[j r]|] eqn:Hf in Hsync.
  - vm_compute in Hf. injection Hf as <- <-. by destruct Hsync as [_ ->].
  - vm_compute in Hf. discriminate Hf.
Defined.

(** C9. [bootstrap_rbac] is idempotent: from any database state, a
    second run leaves the permissions, the roles with their permission
    lists and the users with their roles as the first run left them, and
    its permission block finds nothing to change.  With runs in which
    [db.create_all()] may raise, two runs amount to one run that
    succeeds when either did. *)
Theorem bootstrap_rbac_idempotent (uc : pystr → pystr) (db : database) :
  bootstrap_rbac uc true (bootstrap_rbac uc true db)
  = bootstrap_rbac uc true db
  ∧ sync_permissions uc (permissions (bootstrap_rbac uc true db))
    = (permissions (bootstrap_rbac uc true db), false)
  ∧ (∀ b1 b2, bootstrap_rbac uc b2 (bootstrap_rbac uc b1 db)
              = bootstrap_rbac uc (b1 || b2) db).
Proof.
  split_and!.
  - apply bootstrap_twice.
  - rewrite sync_permissions_eq, bootstrap_permissions.
    apply sync_permissions_twice, DEFAULT_PERMS_codes_NoDup.
  - intros [] [].
    + apply bootstrap_twice.
    + apply bootstrap_skipped.
    + rewrite (bootstrap_skipped uc db). reflexivity.
    + apply bootstrap_skipped.
Qed.

(** The run on the sample database: thirty default permissions next to
    the site's own, the four roles (the [direction] role that was there
    first, its former permission list replaced), and the two users with
    a [roles] attribute attached to the role of their legacy string. *)
Example bootstrap_of_sample_db :
  let db' := bootstrap_rbac id true sample_db in
  length (permissions db') = 31%nat
  ∧ r_code <$> roles db'
    = [ py "direction"; py "admin_tech"; py "finance";
        py "responsable_secteur" ]
  ∧ (λ r, length (r_permissions r)) <$> roles db'
    = [ 30; 3; 17; 15 ]%nat
  ∧ u_roles <$> users db' = [ Some [0]; Some [0; 3]; None ]%nat
  ∧ bootstrap_rbac id true db' = db'.
Proof.
  cbv zeta. split_and!; vm_compute; reflexivity.
Qed.

(* ===================================================================== *)
(** * Properties of [ensure_schema] *)
(* ===================================================================== *)

Section GroupLogic.
Context {W : Type}.
Implicit Types (st : state W).

Lemma bind_run {A B} (m : M W A) (k : A → M W B) st :
  (m ≫= k) st = match m st with
                | (Some a, st') => k a st'
                | (None, st') => (None, st')
                end.
Proof. reflexivity. Qed.

Lemma ret_run {A} (a : A) st : (mret a : M W A) st = (Some a, st).
Proof. reflexivity. Qed.

Lemma step_extends {A} (m : M W A) : step_spec m → extends m.
Proof. intros Hm st. destruct (Hm st) as (t & Ht & _). by exists t. Qed.

Lemma tail_extends (m : M W unit) : tail_spec m → extends m.
Proof. intros Hm st. destruct (Hm st) as (t & Ht & _). by exists t. Qed.

Lemma step_ret {A} (a : A) : step_spec (mret a : M W A).
Proof.
  intros st. exists []. rewrite ret_run, app_nil_r. cbn [fst snd].
  split; [done|constructor].
Qed.

Lemma step_bind {A B} (m : M W A) (k : A → M W B) :
  step_spec m → (∀ a, step_spec (k a)) → step_spec (m ≫= k).
Proof.
  intros Hm Hk st. destruct (Hm st) as (t1 & Ht1 & Ho1).
  rewrite bind_run. destruct (m st) as [[a|] st1]; cbn [fst snd] in *.
  - destruct (Hk a st1) as (t2 & Ht2 & Ho2). exists (t1 ++ t2).
    split; [by rewrite Ht2, Ht1, app_assoc|].
    destruct ((k a st1).1).
    + by apply Forall_app.
    + destruct Ho2 as (pre & e & -> & He & Hpre).
      exists (t1 ++ pre), e. rewrite app_assoc.
      split_and!; [done..|]. by apply Forall_app.
  - by exists t1.
Qed.

Lemma tail_bind {A} (m : M W A) (k : A → M W unit) :
  step_spec m → (∀ a, tail_spec (k a)) → tail_spec (m ≫= k).
Proof.
  intros Hm Hk st. destruct (Hm st) as (t1 & Ht1 & Ho1).
  rewrite bind_run. destruct (m st) as [[a|] st1]; cbn [fst snd] in *.
  - destruct (Hk a st1) as (t2 & Ht2 & Ho2). exists (t1 ++ t2).
    split; [by rewrite Ht2, Ht1, app_assoc|].
    destruct ((k a st1).1).
    + destruct Ho2 as (pre & -> & Hpre).
      exists (t1 ++ pre). rewrite app_assoc. split; [done|].
      by apply Forall_app.
    + destruct Ho2 as (pre & e & -> & He & Hpre).
      exists (t1 ++ pre), e. rewrite app_assoc.
      split_and!; [done..|]. by apply Forall_app.
  - by exists t1.
Qed.

Lemma starts_with_bind {A B} first (m : M W A) (k : A → M W B) :
  starts_with first m → (∀ a, extends (k a)) → starts_with first (m ≫= k).
Proof.
  intros Hm Hk st. destruct (Hm st) as (e & t1 & Ht1 & He).
  rewrite bind_run. destruct (m st) as [[a|] st1]; cbn [fst snd] in *.
  - destruct (Hk a st1) as (t2 & Ht2). exists e, (t1 ++ t2).
    split; [|done]. by rewrite Ht2, Ht1, <- app_assoc.
  - by exists e, t1.
Qed.

Lemma rollback_run session_rollback st :
  rollback session_rollback st
  = ((if (session_rollback (world st)).1 then Some tt else None),
     {| world := (session_rollback (world st)).2;
        trace := trace st
                 ++ [EvRollback (session_rollback (world st)).1] |}).
Proof. unfold rollback, call. by destruct (session_rollback (world st)). Qed.

Lemma escaped_commit pre : ¬ escaped (pre ++ [EvCommit true]).
Proof. by intros (pre' & [_ [=]]%app_inj_tail). Qed.

Lemma escaped_rollback pre ok :
  escaped (pre ++ [EvRollback ok]) ↔ ok = false.
Proof.
  split.
  - by intros (pre' & [_ [= ->]]%app_inj_tail).
  - intros ->. by exists pre.
Qed.

(** One guarded group: its calls, and whether its handler let the
    exception of the rollback out. *)
Lemma guarded_group session_rollback first (body : M W unit) st :
  tail_spec body → starts_with first body →
  ∃ t, trace (try_except body (rollback session_rollback) st).2
       = trace st ++ t
       ∧ group_trace first t
       ∧ ((try_except body (rollback session_rollback) st).1 = None
          ↔ escaped t).
Proof.
  intros Htail Hfirst. destruct (Htail st) as (t & Ht & Ho).
  destruct (Hfirst st) as (e & t' & Ht' & He).
  assert (t = e :: t') as Hhead.
  { rewrite Ht in Ht'. by apply app_inv_head in Ht'. }
  unfold try_except.
  destruct (body st) as [[[]|] st1]; cbn [fst snd] in *.
  - exists t. split; [done|]. split.
    { split; [by exists e, t'|]. by left. }
    destruct Ho as (pre & -> & _). split; [done|].
    by intros ?%escaped_commit.
  - destruct Ho as (pre & e' & Hpre & He' & Hq).
    rewrite rollback_run. cbn [fst snd trace].
    set (ok := (session_rollback (world st1)).1).
    exists (t ++ [EvRollback ok]).
    split; [by rewrite Ht, app_assoc|]. split.
    { split.
      - exists e, (t' ++ [EvRollback ok]). by rewrite Hhead.
      - right. exists pre, e', ok. rewrite Hpre, <- app_assoc. done. }
    rewrite escaped_rollback. by destruct ok.
Qed.

Lemma guarded_groups session_rollback firsts (bodies : list (M W unit)) :
  Forall2 (λ first body, tail_spec body ∧ starts_with first body)
          firsts bodies →
  ∀ st, ∃ ts,
    trace (run_groups session_rollback bodies st).2 = trace st ++ concat ts
    ∧ Forall2 group_trace (take (length ts) firsts) ts
    ∧ match (run_groups session_rollback bodies st).1 with
      | Some _ => length ts = length bodies
                  ∧ Forall (λ t, ¬ escaped t) ts
      | None => ∃ ts' t, ts = ts' ++ [t]
                         ∧ Forall (λ t, ¬ escaped t) ts' ∧ escaped t
      end.
Proof.
  induction 1 as [|first body firsts bodies [Htail Hfirst] _ IH]; intros st.
  - exists []. cbn. rewrite app_nil_r. by split_and!.
  - cbn [run_groups].
    destruct (guarded_group session_rollback first body st Htail Hfirst)
      as (t & Ht & Hg & Hesc).
    destruct (try_except body (rollback session_rollback) st)
      as [[u|] st1]; cbn [fst snd] in *.
    + destruct (IH st1) as (ts & Hts & Hgs & Hres).
      assert (¬ escaped t) as Hno by (by intros ?%Hesc).
      exists (t :: ts). split; [by rewrite Hts, Ht, <- app_assoc|].
      split; [by constructor|].
      destruct ((run_groups session_rollback bodies st1).1).
      * destruct Hres as [Hlen Hall]. split; [by cbn; rewrite Hlen|].
        by constructor.
      * destruct Hres as (ts' & t0 & -> & Hall & Hlast).
        exists (t :: ts'), t0. split_and!; [done| |done]. by constructor.
    + exists [t]. cbn [concat]. rewrite app_nil_r. split; [done|].
      split; [constructor; [done|constructor]|].
      exists [], t. split_and!; [done|constructor|]. by apply Hesc.
Qed.

(** When no rollback raises every group is run. *)
Lemma run_groups_returns session_rollback (bodies : list (M W unit)) st :
  (∀ w, (session_rollback w).1 = true) →
  (run_groups session_rollback bodies st).1 = Some tt.
Proof.
  intros Hok. revert st. induction bodies as [|body bodies IH]; intros st;
    [done|].
  cbn [run_groups]. unfold try_except.
  destruct (body st) as [[[]|] st1]; [apply IH|].
  rewrite rollback_run, Hok. apply IH.
Qed.

End GroupLogic.

Section SchemaSteps.
Context {W : Type}.
Variable insp_has_table : pystr → W → option bool * W.
Variable insp_get_columns : pystr → W → option (list pystr) * W.
Variable session_execute : pystr → W → bool * W.
Variable session_commit : W → bool * W.
Variable session_rollback : W → bool * W.
Variable dialect : pystr.
Implicit Types (st : state W).

Local Abbreviation has_table_ := (has_table insp_has_table).
Local Abbreviation column_names_ := (column_names insp_get_columns).
Local Abbreviation get_cols_ := (get_cols insp_has_table insp_get_columns).
Local Abbreviation exec_sql_ := (exec_sql session_execute).
Local Abbreviation commit_ := (commit session_commit).
Local Abbreviation add_col_ :=
  (add_col insp_has_table insp_get_columns session_execute dialect).
Local Abbreviation create_index_ := (create_index session_execute dialect).

Lemma has_table_run name st :
  has_table_ name st
  = (Some (default false (insp_has_table name (world st)).1),
     {| world := (insp_has_table name (world st)).2;
        trace := trace st ++ [EvHasTable name] |}).
Proof.
  unfold has_table, call. by destruct (insp_has_table name (world st)).
Qed.

Lemma column_names_run table st :
  column_names_ table st
  = (Some match (insp_get_columns table (world st)).1 with
          | Some names => list_to_set names
          | None => ∅
          end,
     {| world := (insp_get_columns table (world st)).2;
        trace := trace st ++ [EvGetColumns table] |}).
Proof.
  unfold column_names, call. by destruct (insp_get_columns table (world st)).
Qed.

Lemma exec_sql_run sql st :
  exec_sql_ sql st
  = ((if (session_execute sql (world st)).1 then Some tt else None),
     {| world := (session_execute sql (world st)).2;
        trace := trace st
                 ++ [EvExecute sql (session_execute sql (world st)).1] |}).
Proof.
  unfold exec_sql, call. by destruct (session_execute sql (world st)).
Qed.

Lemma commit_run st :
  commit_ st
  = ((if (session_commit (world st)).1 then Some tt else None),
     {| world := (session_commit (world st)).2;
        trace := trace st ++ [EvCommit (session_commit (world st)).1] |}).
Proof. unfold commit, call. by destruct (session_commit (world st)). Qed.

Lemma step_has_table name : step_spec (has_table_ name).
Proof.
  intros st. rewrite has_table_run. eexists. split; [reflexivity|].
  cbn [fst]. by repeat constructor.
Qed.

Lemma step_column_names table : step_spec (column_names_ table).
Proof.
  intros st. rewrite column_names_run. eexists. split; [reflexivity|].
  cbn [fst]. by repeat constructor.
Qed.

Lemma step_get_cols table : step_spec (get_cols_ table).
Proof.
  apply step_bind; [apply step_has_table|].
  intros []; [apply step_column_names|apply step_ret].
Qed.

Lemma step_exec_sql sql : sql ≠ DROP_NOT_NULL_sql → step_spec (exec_sql_ sql).
Proof.
  intros Hsql st. rewrite exec_sql_run. eexists. split; [reflexivity|].
  cbn [fst]. destruct (session_execute sql (world st)).1.
  - by repeat constructor.
  - exists [], (EvExecute sql false). split_and!; [done| |constructor].
    unfold raises. by rewrite bool_decide_eq_false_2.
Qed.

(** The inner [try: ... except Exception: pass] of the last group. *)
Lemma step_relax :
  step_spec (try_except (exec_sql_ DROP_NOT_NULL_sql) (mret tt)).
Proof.
  intros st. unfold try_except. rewrite exec_sql_run.
  exists [EvExecute DROP_NOT_NULL_sql
            (session_execute DROP_NOT_NULL_sql (world st)).1].
  destruct (session_execute DROP_NOT_NULL_sql (world st)).1;
    cbn [fst snd trace]; (split; [done|]);
    (constructor; [|constructor]); unfold quiet;
    [reflexivity|by rewrite bool_decide_eq_true_2].
Qed.

Lemma step_add_col table col sql_sqlite sql_pg :
  sql_sqlite ≠ DROP_NOT_NULL_sql → sql_pg ≠ DROP_NOT_NULL_sql →
  step_spec (add_col_ table col sql_sqlite sql_pg).
Proof.
  intros H1 H2. apply step_bind; [apply step_get_cols|]. intros cols.
  case_bool_decide; [apply step_ret|].
  case_bool_decide; by apply step_exec_sql.
Qed.

Lemma step_create_index sql_sqlite sql_pg :
  sql_sqlite ≠ DROP_NOT_NULL_sql → sql_pg ≠ DROP_NOT_NULL_sql →
  step_spec (create_index_ sql_sqlite sql_pg).
Proof.
  intros H1 H2. unfold create_index.
  case_bool_decide; by apply step_exec_sql.
Qed.

Lemma tail_commit : tail_spec commit_.
Proof.
  intros st. rewrite commit_run. eexists. split; [reflexivity|].
  cbn [fst]. destruct (session_commit (world st)).1.
  - exists []. by split.
  - exists [], (EvCommit false). by split_and!.
Qed.

Lemma starts_has_table name : starts_with (eq (EvHasTable name)) (has_table_ name).
Proof. intros st. rewrite has_table_run. by exists (EvHasTable name), []. Qed.

Lemma starts_add_col table col sql_sqlite sql_pg :
  sql_sqlite ≠ DROP_NOT_NULL_sql → sql_pg ≠ DROP_NOT_NULL_sql →
  starts_with (eq (EvHasTable table)) (add_col_ table col sql_sqlite sql_pg).
Proof.
  intros H1 H2. unfold add_col, get_cols. apply starts_with_bind.
  - apply starts_with_bind; [apply starts_has_table|].
    intros []; apply step_extends;
      [apply step_column_names|apply step_ret].
  - intros cols. apply step_extends.
    case_bool_decide; [apply step_ret|].
    case_bool_decide; by apply step_exec_sql.
Qed.

Lemma starts_create_index sql :
  starts_with (λ e, ∃ ok, e = EvExecute sql ok) (create_index_ sql sql).
Proof.
  intros st. unfold create_index. case_bool_decide; rewrite exec_sql_run;
    eexists _, []; (split; [reflexivity|]); by eexists.
Qed.

End SchemaSteps.

Section SchemaGroups.
Context {W : Type}.
Variable insp_has_table : pystr → W → option bool * W.
Variable insp_get_columns : pystr → W → option (list pystr) * W.
Variable session_execute : pystr → W → bool * W.
Variable session_commit : W → bool * W.
Variable session_rollback : W → bool * W.
Variable dialect : pystr.
Implicit Types (st : state W).

Ltac group_step :=
  first
    [ apply step_add_col; fails_by_evaluation
    | apply step_create_index; fails_by_evaluation
    | case_bool_decide; [apply step_relax|apply step_ret] ].

Ltac group_tail :=
  repeat first [ apply tail_commit | apply tail_bind; [group_step|intros _] ].

Ltac group_start :=
  apply starts_with_bind;
    [ first [ apply starts_add_col; fails_by_evaluation
            | apply starts_create_index ]
    | intros _; apply tail_extends; group_tail ].

Lemma body_ligne_budget_ok :
  tail_spec (body_ligne_budget insp_has_table insp_get_columns
               session_execute session_commit dialect)
  ∧ starts_with (eq (EvHasTable (py "ligne_budget")))
      (body_ligne_budget insp_has_table insp_get_columns
         session_execute session_commit dialect).
Proof. unfold body_ligne_budget. split; [group_tail|group_start]. Qed.

Lemma body_session_activite_ok :
  tail_spec (body_session_activite insp_has_table insp_get_columns
               session_execute session_commit dialect)
  ∧ starts_with (eq (EvHasTable (py "session_activite")))
      (body_session_activite insp_has_table insp_get_columns
         session_execute session_commit dialect).
Proof. unfold body_session_activite. split; [group_tail|group_start]. Qed.

Lemma body_atelier_activite_ok :
  tail_spec (body_atelier_activite insp_has_table insp_get_columns
               session_execute session_commit dialect)
  ∧ starts_with (eq (EvHasTable (py "atelier_activite")))
      (body_atelier_activite insp_has_table insp_get_columns
         session_execute session_commit dialect).
Proof. unfold body_atelier_activite. split; [group_tail|group_start]. Qed.

Lemma body_participant_ok :
  tail_spec (body_participant insp_has_table insp_get_columns
               session_execute session_commit dialect)
  ∧ starts_with (eq (EvHasTable (py "participant")))
      (body_participant insp_has_table insp_get_columns
         session_execute session_commit dialect).
Proof. unfold body_participant. split; [group_tail|group_start]. Qed.

Lemma body_archive_emargement_ok :
  tail_spec (body_archive_emargement insp_has_table insp_get_columns
               session_execute session_commit dialect)
  ∧ starts_with (eq (EvHasTable (py "archive_emargement")))
      (body_archive_emargement insp_has_table insp_get_columns
         session_execute session_commit dialect).
Proof. unfold body_archive_emargement. split; [group_tail|group_start]. Qed.

Lemma body_presence_index_ok :
  tail_spec (body_presence_index session_execute session_commit dialect)
  ∧ starts_with (λ e, ∃ ok, e = EvExecute PRESENCE_INDEX_sql ok)
      (body_presence_index session_execute session_commit dialect).
Proof. unfold body_presence_index. split; [group_tail|group_start]. Qed.

Lemma body_depense_ok :
  tail_spec (body_depense insp_has_table insp_get_columns
               session_execute session_commit dialect)
  ∧ starts_with (eq (EvHasTable (py "depense")))
      (body_depense insp_has_table insp_get_columns
         session_execute session_commit dialect).
Proof. unfold body_depense. split; [group_tail|group_start]. Qed.

Lemma group_bodies_ok :
  Forall2 (λ first body, tail_spec body ∧ starts_with first body)
    group_starts
    (group_bodies insp_has_table insp_get_columns session_execute
       session_commit dialect).
Proof.
  unfold group_starts, group_bodies.
  constructor; [apply body_ligne_budget_ok|].
  constructor; [apply body_session_activite_ok|].
  constructor; [apply body_atelier_activite_ok|].
  constructor; [apply body_participant_ok|].
  constructor; [apply body_archive_emargement_ok|].
  constructor; [apply body_presence_index_ok|].
  constructor; [apply body_depense_ok|].
  constructor.
Qed.

Lemma ensure_schema_run st :
  ensure_schema insp_has_table insp_get_columns session_execute
    session_commit session_rollback dialect st
  = run_groups session_rollback
      (group_bodies insp_has_table insp_get_columns session_execute
         session_commit dialect) st.
Proof.
  unfold ensure_schema, group_bodies. cbn [run_groups].
  repeat (rewrite bind_run;
          destruct (try_except _ _ _) as [[[]|] ?]; [|reflexivity]).
  by destruct (try_except _ _ _) as [[[]|] ?].
Qed.

End SchemaGroups.

Section SecondRun.
Context {W : Type}.
Variable insp_has_table : pystr → W → option bool * W.
Variable insp_get_columns : pystr → W → option (list pystr) * W.
Variable session_execute : pystr → W → bool * W.
Variable session_commit : W → bool * W.
Variable session_rollback : W → bool * W.
Variable dialect : pystr.
Implicit Types (st : state W).

(** What [get_cols] answers in a given world. *)
Lemma get_cols_run table st :
  ∃ cols st1,
    get_cols insp_has_table insp_get_columns table st = (Some cols, st1)
    ∧ (∀ c, c ∈ cols ↔
         ∃ w1 names w2,
           insp_has_table table (world st) = (Some true, w1)
           ∧ insp_get_columns table w1 = (Some names, w2)
           ∧ c ∈ names)
    ∧ ∃ t, trace st1 = trace st ++ t
           ∧ Forall (λ e, e = EvHasTable table ∨ e = EvGetColumns table) t.
Proof.
  unfold get_cols. rewrite bind_run, has_table_run.
  destruct (insp_has_table table (world st)) as [[[]|] w1] eqn:Eh;
    cbn [fst snd default from_option id negb].
  - rewrite column_names_run. cbn [world trace].
    destruct (insp_get_columns table w1) as [[names|] w2] eqn:Eg;
      cbn [fst snd]; eexists _, _; (split; [reflexivity|]); cbn [trace].
    + split.
      * intros c. rewrite elem_of_list_to_set. split.
        -- intros Hc. by exists w1, names, w2.
        -- intros (? & ? & ? & [= <-] & Hg & Hc).
           rewrite Eg in Hg. by injection Hg as <- <-.
      * eexists. rewrite <- app_assoc. split; [reflexivity|].
        constructor; [by left|]. constructor; [by right|]. constructor.
    + split.
      * intros c. split; [by intros ?%not_elem_of_empty|].
        intros (? & ? & ? & [= <-] & Hg & _). rewrite Eg in Hg. done.
      * eexists. rewrite <- app_assoc. split; [reflexivity|].
        constructor; [by left|]. constructor; [by right|]. constructor.
  - rewrite ret_run. eexists _, _. split; [reflexivity|]. cbn [trace]. split.
    + intros c. split; [by intros ?%not_elem_of_empty|].
      by intros (? & ? & ? & ? & _).
    + eexists. split; [reflexivity|]. constructor; [by left|]. constructor.
  - rewrite ret_run. eexists _, _. split; [reflexivity|]. cbn [trace]. split.
    + intros c. split; [by intros ?%not_elem_of_empty|].
      by intros (? & ? & ? & ? & _).
    + eexists. split; [reflexivity|]. constructor; [by left|]. constructor.
Qed.

(** [add_col] in terms of what [get_cols] answered. *)
Lemma add_col_run table col sql_sqlite sql_pg st cols st1 :
  get_cols insp_has_table insp_get_columns table st = (Some cols, st1) →
  add_col insp_has_table insp_get_columns session_execute dialect
          table col sql_sqlite sql_pg st
  = if bool_decide (col ∈ cols) then (Some tt, st1)
    else exec_sql session_execute
           (if bool_decide (dialect = py "sqlite") then sql_sqlite else sql_pg)
           st1.
Proof.
  intros Hg. unfold add_col. rewrite bind_run, Hg.
  case_bool_decide; [done|]. by case_bool_decide.
Qed.

Variable Inv : W → Prop.
Variables table col : pystr.
Hypothesis Inv_has_table : ∀ t w, Inv w → Inv (insp_has_table t w).2.
Hypothesis Inv_get_columns : ∀ t w, Inv w → Inv (insp_get_columns t w).2.
Hypothesis Inv_execute : ∀ sql w, Inv w → Inv (session_execute sql w).2.
Hypothesis Inv_commit : ∀ w, Inv w → Inv (session_commit w).2.
Hypothesis Inv_rollback : ∀ w, Inv w → Inv (session_rollback w).2.
Hypothesis Inv_reports :
  ∀ w, Inv w →
       ∃ w1 names w2,
         insp_has_table table w = (Some true, w1)
         ∧ insp_get_columns table w1 = (Some names, w2)
         ∧ col ∈ names.

Local Abbreviation safe_ := (safe Inv table col).

Lemma safe_ret {A} (a : A) : safe_ (mret a : M W A).
Proof.
  intros st Hst. rewrite ret_run. split; [done|].
  exists []. by rewrite app_nil_r.
Qed.

Lemma safe_bind {A B} (m : M W A) (k : A → M W B) :
  safe_ m → (∀ a, safe_ (k a)) → safe_ (m ≫= k).
Proof.
  intros Hm Hk st Hst. destruct (Hm st Hst) as (Hi1 & t1 & Ht1 & Hs1).
  rewrite bind_run. destruct (m st) as [[a|] st1]; cbn [fst snd] in *.
  - destruct (Hk a st1 Hi1) as (Hi2 & t2 & Ht2 & Hs2).
    split; [done|]. exists (t1 ++ t2).
    split; [by rewrite Ht2, Ht1, app_assoc|]. by apply Forall_app.
  - split; [done|]. by exists t1.
Qed.

Lemma safe_try {A} (body handler : M W A) :
  safe_ body → safe_ handler → safe_ (try_except body handler).
Proof.
  intros Hb Hh st Hst. destruct (Hb st Hst) as (Hi1 & t1 & Ht1 & Hs1).
  unfold try_except. destruct (body st) as [[a|] st1]; cbn [fst snd] in *.
  - split; [done|]. by exists t1.
  - destruct (Hh st1 Hi1) as (Hi2 & t2 & Ht2 & Hs2).
    split; [done|]. exists (t1 ++ t2).
    split; [by rewrite Ht2, Ht1, app_assoc|]. by apply Forall_app.
Qed.

Lemma spares_inspection e :
  (∀ sql ok, e ≠ EvExecute sql ok) → spares table col e.
Proof. intros He sql ok ->. by destruct (He sql ok). Qed.

Lemma safe_exec_sql sql :
  alter_target sql ≠ Some (table, col) → safe_ (exec_sql session_execute sql).
Proof.
  intros Hsql st Hst. rewrite exec_sql_run. cbn [snd world trace].
  split; [by apply Inv_execute|]. eexists. split; [reflexivity|].
  repeat constructor. by intros ? ? [= <- _].
Qed.

Lemma safe_commit : safe_ (commit session_commit).
Proof.
  intros st Hst. rewrite commit_run. cbn [snd world trace].
  split; [by apply Inv_commit|]. eexists. split; [reflexivity|].
  repeat constructor. by apply spares_inspection.
Qed.

Lemma safe_rollback : safe_ (rollback session_rollback).
Proof.
  intros st Hst. rewrite rollback_run. cbn [snd world trace].
  split; [by apply Inv_rollback|]. eexists. split; [reflexivity|].
  repeat constructor. by apply spares_inspection.
Qed.

Lemma get_cols_Inv t st st1 cols :
  Inv (world st) →
  get_cols insp_has_table insp_get_columns t st = (Some cols, st1) →
  Inv (world st1) ∧ ∃ tr, trace st1 = trace st ++ tr
                          ∧ Forall (spares table col) tr.
Proof.
  intros Hst. unfold get_cols. rewrite bind_run, has_table_run.
  pose proof (Inv_has_table t _ Hst) as Hi1.
  destruct (insp_has_table t (world st)) as [[[]|] w1];
    cbn [fst snd default from_option id negb] in *.
  - rewrite column_names_run. cbn [world trace]. intros [= _ <-].
    cbn [world trace]. split; [by apply Inv_get_columns|].
    eexists. rewrite <- app_assoc. split; [reflexivity|].
    repeat constructor; by apply spares_inspection.
  - rewrite ret_run. intros [= _ <-]. cbn [world trace]. split; [done|].
    eexists. split; [reflexivity|].
    repeat constructor; by apply spares_inspection.
  - rewrite ret_run. intros [= _ <-]. cbn [world trace]. split; [done|].
    eexists. split; [reflexivity|].
    repeat constructor; by apply spares_inspection.
Qed.

(** A column addition never adds the column the inspector reports. *)
Lemma safe_add_col t c sql_sqlite sql_pg :
  alter_target sql_sqlite = Some (t, c) → alter_target sql_pg = Some (t, c) →
  safe_ (add_col insp_has_table insp_get_columns session_execute dialect
           t c sql_sqlite sql_pg).
Proof.
  intros H1 H2 st Hst.
  destruct (get_cols_run t st) as (cols & st1 & Hg & Hcols & _).
  destruct (get_cols_Inv t st st1 cols Hst Hg) as (Hi1 & tr & Htr & Hsp).
  rewrite (add_col_run _ _ _ _ _ _ _ Hg).
  case_bool_decide as Hc.
  - cbn [snd]. split; [done|]. by exists tr.
  - assert ((t, c) ≠ (table, col)) as Hne.
    { intros [= -> ->]. apply Hc, Hcols. by apply Inv_reports. }
    assert (safe_ (exec_sql session_execute
                     (if bool_decide (dialect = py "sqlite")
                      then sql_sqlite else sql_pg))) as Hex.
    { apply safe_exec_sql. case_bool_decide; congruence. }
    destruct (Hex st1 Hi1) as (Hi2 & t2 & Ht2 & Hs2).
    split; [done|]. exists (tr ++ t2).
    split; [by rewrite Ht2, Htr, app_assoc|]. by apply Forall_app.
Qed.

Lemma safe_create_index sql_sqlite sql_pg :
  alter_target sql_sqlite = None → alter_target sql_pg = None →
  safe_ (create_index session_execute dialect sql_sqlite sql_pg).
Proof.
  intros H1 H2. unfold create_index.
  case_bool_decide; apply safe_exec_sql; congruence.
Qed.

Ltac safe_step :=
  first
    [ apply safe_commit
    | apply safe_rollback
    | apply safe_ret
    | apply safe_add_col; vm_compute; reflexivity
    | apply safe_create_index; vm_compute; reflexivity
    | apply safe_exec_sql; vm_compute; discriminate
    | apply safe_try
    | apply safe_bind; [|intros _]
    | case_bool_decide ].

Lemma safe_ensure_schema :
  safe_ (ensure_schema insp_has_table insp_get_columns session_execute
           session_commit session_rollback dialect).
Proof.
  unfold ensure_schema, body_ligne_budget, body_session_activite,
    body_atelier_activite, body_participant, body_archive_emargement,
    body_presence_index, body_depense.
  repeat safe_step.
Qed.

End SecondRun.

Section ToyEngine.
Implicit Types (w : toy_db) (s : gmap pystr (gset pystr)).

Lemma schema_keeps_column table col t c g s :
  schema_has_column table col s → s !! t = Some g →
  schema_has_column table col (<[t := {[c]} ∪ g]> s).
Proof.
  intros (cols & Hl & Hin) Ht. destruct (decide (t = table)) as [->|Hne].
  - exists ({[c]} ∪ g). rewrite lookup_insert_eq. split; [done|].
    rewrite Hl in Ht. injection Ht as <-. apply elem_of_union. by right.
  - exists cols. by rewrite lookup_insert_ne.
Qed.

Lemma toy_execute_keeps_column refused table col sql w :
  toy_has_column table col w →
  toy_has_column table col (toy_execute refused sql w).2.
Proof.
  intros [Hc Hw]. unfold toy_execute.
  case_bool_decide; [done|].
  destruct (alter_target sql) as [[t c]|]; [|done].
  destruct (working w !! t) as [g|] eqn:Ht; [|done].
  case_bool_decide; [done|]. cbn [snd].
  split; [done|]. by apply schema_keeps_column.
Qed.

Lemma toy_commit_keeps_column table col w :
  toy_has_column table col w → toy_has_column table col (toy_commit w).2.
Proof. by intros [Hc Hw]. Qed.

Lemma toy_rollback_keeps_column table col w :
  toy_has_column table col w → toy_has_column table col (toy_rollback w).2.
Proof. by intros [Hc Hw]. Qed.

Lemma toy_reports_column table col w :
  toy_has_column table col w →
  ∃ w1 names w2,
    toy_has_table table w = (Some true, w1)
    ∧ toy_get_columns table w1 = (Some names, w2)
    ∧ col ∈ names.
Proof.
  intros [(cols & Hl & Hin) _]. exists w, (elements cols), w.
  unfold toy_has_table, toy_get_columns. rewrite Hl. split_and!.
  - by rewrite bool_decide_eq_true_2.
  - done.
  - by apply elem_of_elements.
Qed.

End ToyEngine.

(** C7, as stated, fails, in two ways.  On Postgres, when the
    statement that relaxes [depense.ligne_budget_id] raises, the inner
    [try ... except: pass] of the last group swallows the exception:
    [db.session.rollback()] is not called at all and the group goes on
    to commit the three columns it has just added.  And when a
    statement fails while [db.session.rollback()] raises too (a lost
    connection), the exception of the rollback is not handled: it leaves
    [ensure_schema], and the groups that follow are not attempted. *)
Lemma group_failures_escape_the_guard :
  (let st' := (toy_ensure_schema [DROP_NOT_NULL_sql] (py "postgresql")
                 toy_start).2 in
   (∀ ok, EvRollback ok ∉ trace st')
   ∧ drop (length (trace st') - 11) (trace st')
     = [ EvHasTable (py "depense"); EvGetColumns (py "depense");
         EvExecute (py "ALTER TABLE depense ADD COLUMN IF NOT EXISTS facture_ligne_id INTEGER") true;
         EvHasTable (py "depense"); EvGetColumns (py "depense");
         EvExecute (py "ALTER TABLE depense ADD COLUMN IF NOT EXISTS facture_quantite INTEGER NOT NULL DEFAULT 1") true;
         EvHasTable (py "depense"); EvGetColumns (py "depense");
         EvExecute (py "ALTER TABLE depense ADD COLUMN IF NOT EXISTS charge_projet_id INTEGER") true;
         EvExecute DROP_NOT_NULL_sql false;
         EvCommit true ])
  ∧ (let run := ensure_schema toy_has_table toy_get_columns
                  (toy_execute [kiosk_pin_sql]) toy_commit toy_rollback_lost
                  (py "sqlite") toy_start in
     run.1 = None
     ∧ drop (length (trace run.2) - 2) (trace run.2)
       = [EvExecute kiosk_pin_sql false; EvRollback false]
     ∧ (EvHasTable (py "atelier_activite") ∉ trace run.2)
     ∧ (EvHasTable (py "depense") ∉ trace run.2)
     ∧ (∀ ok, EvExecute PRESENCE_INDEX_sql ok ∉ trace run.2)).
Proof.
  cbv zeta. split; split_and!.
  - intros []; fails_by_evaluation.
  - vm_compute. reflexivity.
  - vm_compute. reflexivity.
  - vm_compute. reflexivity.
  - fails_by_evaluation.
  - fails_by_evaluation.
  - intros []; fails_by_evaluation.
Qed.

(** C7, amended.  Each of the seven migration groups of [ensure_schema]
    is wrapped in its own try/except that calls [db.session.rollback()]
    on any exception that escapes the group's body, that is on a failing
    statement of [add_col] or [create_index] and on a failing commit.
    Failures handled inside the body do not reach it: an inspection
    that raises is read as a missing table or an empty column set, and
    the failure of the Postgres-only relaxation of
    [depense.ligne_budget_id] is swallowed by an inner try/except, in
    both cases without rollback.  The groups run in order, each from the
    state the one before left; a body stops at the call that raised and
    the rollback follows at once; otherwise the group ends with its
    successful commit.  As long as every rollback returns, no failure
    propagates and all seven groups are attempted: [ensure_schema]
    returns.  It raises exactly when a rollback raises: the run ends
    with that rollback and the groups below are not attempted. *)
Theorem ensure_schema_groups_guarded {W : Type}
    (insp_has_table : pystr → W → option bool * W)
    (insp_get_columns : pystr → W → option (list pystr) * W)
    (session_execute : pystr → W → bool * W)
    (session_commit : W → bool * W)
    (session_rollback : W → bool * W)
    (dialect : pystr) (st : state W) :
  let run := ensure_schema insp_has_table insp_get_columns session_execute
               session_commit session_rollback dialect st in
  run = run_groups session_rollback
          (group_bodies insp_has_table insp_get_columns session_execute
             session_commit dialect) st
  ∧ (∃ ts, trace run.2 = trace st ++ concat ts
           ∧ Forall2 group_trace (take (length ts) group_starts) ts
           ∧ match run.1 with
             | Some _ => length ts = 7%nat ∧ Forall (λ t, ¬ escaped t) ts
             | None => ∃ ts' t, ts = ts' ++ [t]
                                ∧ Forall (λ t, ¬ escaped t) ts'
                                ∧ escaped t
             end)
  ∧ ((∀ w, (session_rollback w).1 = true) → run.1 = Some tt).
Proof.
  intros run. unfold run. rewrite ensure_schema_run. split; [done|]. split.
  - apply (guarded_groups session_rollback group_starts), group_bodies_ok.
  - apply run_groups_returns.
Qed.

Lemma ensure_schema_groups_guarded_witness :
  (toy_ensure_schema [kiosk_pin_sql] (py "sqlite") toy_start).1 = Some tt
  ∧ ∃ ts, trace (toy_ensure_schema [kiosk_pin_sql] (py "sqlite")
                   toy_start).2 = concat ts
          ∧ Forall2 group_trace group_starts ts.
Proof.
  destruct (ensure_schema_groups_guarded toy_has_table toy_get_columns
              (toy_execute [kiosk_pin_sql]) toy_commit toy_rollback
              (py "sqlite") toy_start) as (_ & (ts & Hts & Hgroups & Hres) & Hret).
  specialize (Hret (λ w, eq_refl)).
  split; [exact Hret|]. exists ts. split; [exact Hts|].
  unfold toy_ensure_schema in Hret. rewrite Hret in Hres.
  destruct Hres as [Hlen _]. rewrite Hlen in Hgroups. exact Hgroups.
Defined.

(** On the toy engine, when the fourth statement of the
    [session_activite] group is refused: the rollback comes right after
    it and is the only one, the three columns the group had added are
    gone, the two remaining statements of the group are not run, and the
    six other groups commit. *)
Example refused_statement_rolls_its_group_back :
  let st' := (toy_ensure_schema [kiosk_pin_sql] (py "sqlite") toy_start).2 in
  (∃ pre post, trace st'
               = pre ++ [EvExecute kiosk_pin_sql false; EvRollback true]
                 ++ post
               ∧ (∀ ok, EvRollback ok ∉ pre ++ post)
               ∧ length (filter (λ e, e = EvCommit true) post) = 5%nat)
  ∧ length (filter (λ e, e = EvCommit true) (trace st')) = 6%nat
  ∧ length (executed (trace st')) = 18%nat
  ∧ committed (world st') !! py "session_activite" = Some {[ py "id" ]}
  ∧ committed (world st') !! py "participant"
    = Some {[ py "id"; py "signature_path"; py "sexe"; py "type_public";
              py "ville"; py "quartier_id" ]}.
Proof.
  cbv zeta. split_and!.
  - exists (take 15 (trace (toy_ensure_schema [kiosk_pin_sql] (py "sqlite")
                              toy_start).2)),
           (drop 17 (trace (toy_ensure_schema [kiosk_pin_sql] (py "sqlite")
                              toy_start).2)).
    split_and!.
    + vm_compute. reflexivity.
    + intros []; fails_by_evaluation.
    + vm_compute. reflexivity.
  - vm_compute. reflexivity.
  - vm_compute. reflexivity.
  - holds_by_evaluation.
  - holds_by_evaluation.
Qed.

(** C6. Every column addition is conditional.  [add_col] first reads
    the table's columns through [get_cols]: the names the inspector
    lists, and the empty set when the table is missing or an inspection
    call raises.  When the column is among them [add_col] returns at
    once: no statement is executed and the state is the one the
    inspection left.  Otherwise it executes exactly one statement, the
    SQLite text when the dialect is [sqlite] and the Postgres text
    otherwise.  So in a run of [ensure_schema] (a second one, say) during
    which the inspector reports a column, no executed statement is an
    [ALTER TABLE ... ADD COLUMN] of that column. *)
Theorem add_col_is_conditional {W : Type}
    (insp_has_table : pystr → W → option bool * W)
    (insp_get_columns : pystr → W → option (list pystr) * W)
    (session_execute : pystr → W → bool * W)
    (session_commit : W → bool * W)
    (session_rollback : W → bool * W)
    (dialect : pystr) :
  (∀ table col sql_sqlite sql_pg st,
     ∃ cols st1,
       get_cols insp_has_table insp_get_columns table st = (Some cols, st1)
       ∧ (∀ c, c ∈ cols ↔
            ∃ w1 names w2,
              insp_has_table table (world st) = (Some true, w1)
              ∧ insp_get_columns table w1 = (Some names, w2)
              ∧ c ∈ names)
       ∧ (∃ t, trace st1 = trace st ++ t
               ∧ Forall (λ e, e = EvHasTable table ∨ e = EvGetColumns table) t)
       ∧ add_col insp_has_table insp_get_columns session_execute dialect
                 table col sql_sqlite sql_pg st
         = if bool_decide (col ∈ cols) then (Some tt, st1)
           else
             let sql := if bool_decide (dialect = py "sqlite")
                        then sql_sqlite else sql_pg in
             let r := session_execute sql (world st1) in
             (if r.1 then Some tt else None,
              {| world := r.2; trace := trace st1 ++ [EvExecute sql r.1] |}))
  ∧ (∀ (Inv : W → Prop) table col,
       (∀ t w, Inv w → Inv (insp_has_table t w).2) →
       (∀ t w, Inv w → Inv (insp_get_columns t w).2) →
       (∀ sql w, Inv w → Inv (session_execute sql w).2) →
       (∀ w, Inv w → Inv (session_commit w).2) →
       (∀ w, Inv w → Inv (session_rollback w).2) →
       (∀ w, Inv w →
             ∃ w1 names w2,
               insp_has_table table w = (Some true, w1)
               ∧ insp_get_columns table w1 = (Some names, w2)
               ∧ col ∈ names) →
       ∀ st, Inv (world st) →
         let run := ensure_schema insp_has_table insp_get_columns
                      session_execute session_commit session_rollback
                      dialect st in
         Inv (world run.2)
         ∧ ∃ t, trace run.2 = trace st ++ t
                ∧ ∀ sql ok, EvExecute sql ok ∈ t →
                            alter_target sql ≠ Some (table, col)).
Proof.
  split.
  - intros table col sql_sqlite sql_pg st.
    destruct (get_cols_run insp_has_table insp_get_columns table st)
      as (cols & st1 & Hg & Hcols & Htr).
    exists cols, st1. split_and!; [done..|].
    rewrite (add_col_run insp_has_table insp_get_columns session_execute
               dialect table col sql_sqlite sql_pg st cols st1 Hg).
    case_bool_decide; [done|]. cbv zeta. apply exec_sql_run.
  - intros Inv table col H1 H2 H3 H4 H5 H6 st Hst run.
    destruct (safe_ensure_schema insp_has_table insp_get_columns
                session_execute session_commit session_rollback dialect
                Inv table col H1 H2 H3 H4 H5 H6 st Hst)
      as (Hinv & t & Ht & Hsp).
    split; [done|]. exists t. split; [done|].
    intros sql ok Hin. rewrite Forall_forall in Hsp.
    by apply (Hsp _ Hin sql ok).
Qed.

Lemma add_col_is_conditional_witness :
  let ville := py "ALTER TABLE participant ADD COLUMN ville VARCHAR(100)" in
  let st1 := (toy_ensure_schema [] (py "sqlite") toy_start).2 in
  EvExecute ville true ∈ trace st1
  ∧ ∃ t, trace (toy_ensure_schema [] (py "sqlite") st1).2 = trace st1 ++ t
         ∧ ∀ ok, EvExecute ville ok ∉ t.
Proof.
  intros ville st1. split; [holds_by_evaluation|].
  destruct (add_col_is_conditional toy_has_table toy_get_columns
              (toy_execute []) toy_commit toy_rollback (py "sqlite"))
    as (_ & Hsecond).
  destruct (Hsecond (toy_has_column (py "participant") (py "ville"))
              (py "participant") (py "ville")) with (st := st1)
    as (_ & t & Ht & Hnone).
  - intros t w Hw. exact Hw.
  - intros t w Hw. exact Hw.
  - intros sql w Hw. by apply toy_execute_keeps_column.
  - intros w Hw. by apply toy_commit_keeps_column.
  - intros w Hw. by apply toy_rollback_keeps_column.
  - intros w Hw. by apply toy_reports_column.
  - split;
      (exists {[ py "id"; py "signature_path"; py "sexe"; py "type_public";
                 py "ville"; py "quartier_id" ]});
      split; holds_by_evaluation.
  - exists t. split; [exact Ht|]. intros ok Hin.
    apply (Hnone ville ok Hin). vm_compute. reflexivity.
Defined.

(** On the toy engine a second run of [ensure_schema] executes the index
    statement only. *)
Example second_run_executes_index_only :
  let st1 := (toy_ensure_schema [] (py "sqlite") toy_start).2 in
  length (executed (trace st1)) = 20%nat
  ∧ executed (drop (length (trace st1))
                (trace (toy_ensure_schema [] (py "sqlite") st1).2))
    = [PRESENCE_INDEX_sql].
Proof. split; vm_compute; reflexivity. Qed.

(* ===================================================================== *)
(** * Further properties: permission expansion and the checks *)
(* ===================================================================== *)

Section Stripping.
Implicit Types (s ws : pystr).

Lemma lstrip_head s :
  lstrip s = [] ∨ ∃ c r, lstrip s = c :: r ∧ is_space c = false.
Proof.
  induction s as [|c r IH]; [by left|]. simpl.
  destruct (is_space c) eqn:E; [done|]. right. by exists c, r.
Qed.

Lemma lstrip_keeps c r : is_space c = false → lstrip (c :: r) = c :: r.
Proof. intros E. simpl. by rewrite E. Qed.

Lemma lstrip_blanks ws s :
  forallb is_space ws = true → lstrip (ws ++ s) = lstrip s.
Proof.
  induction ws as [|c ws IH]; [done|]. simpl.
  intros [Hc Hws]%andb_true_iff. rewrite Hc. by apply IH.
Qed.

Lemma lstrip_app_nonblank s c :
  is_space c = false → lstrip (s ++ [c]) = lstrip s ++ [c].
Proof.
  intros E. induction s as [|d r IH]; simpl; [by rewrite E|].
  by destruct (is_space d).
Qed.

Lemma lstrip_app s t :
  lstrip s ≠ [] → lstrip (s ++ t) = lstrip s ++ t.
Proof.
  induction s as [|d r IH]; simpl; [done|]. by destruct (is_space d).
Qed.

Lemma rstrip_cons c r :
  is_space c = false → rstrip (c :: r) = c :: rstrip r.
Proof.
  intros E. unfold rstrip. rewrite reverse_cons, lstrip_app_nonblank by done.
  by rewrite reverse_snoc.
Qed.

Lemma rstrip_blanks s ws :
  forallb is_space ws = true → rstrip (s ++ ws) = rstrip s.
Proof.
  intros Hws. unfold rstrip. rewrite reverse_app, lstrip_blanks; [done|].
  rewrite forallb_forall in *. intros c Hc. apply Hws.
  apply (proj1 (list_elem_of_In _ _)).
  apply (proj2 (list_elem_of_In _ _)) in Hc.
  by rewrite elem_of_reverse in Hc.
Qed.

Lemma rstrip_nil : rstrip [] = [].
Proof. reflexivity. Qed.

Lemma rstrip_idemp s : rstrip (rstrip s) = rstrip s.
Proof.
  unfold rstrip. rewrite reverse_involutive.
  destruct (lstrip_head (reverse s)) as [->|(c & r & -> & E)]; [done|].
  by rewrite lstrip_keeps.
Qed.

Lemma strip_blank_only s : forallb is_space s = true → strip s = [].
Proof.
  intros Hs. unfold strip.
  rewrite <- (app_nil_r s), lstrip_blanks by done. reflexivity.
Qed.

Lemma strip_idemp s : strip (strip s) = strip s.
Proof.
  unfold strip. destruct (lstrip_head s) as [->|(c & r & -> & E)]; [done|].
  rewrite rstrip_cons by done. rewrite lstrip_keeps by done.
  rewrite <- rstrip_cons by done. apply rstrip_idemp.
Qed.

(** Blanks around a text do not change what [strip] returns. *)
Lemma strip_padded ws1 s ws2 :
  forallb is_space ws1 = true → forallb is_space ws2 = true →
  strip (ws1 ++ s ++ ws2) = strip s.
Proof.
  intros H1 H2. unfold strip. rewrite lstrip_blanks by done.
  destruct (lstrip_head s) as [Hs|(c & r & Hs & E)].
  - rewrite Hs. rewrite <- (app_nil_r s) at 1. rewrite <- app_assoc.
    assert (forallb is_space s = true) as Hall.
    { clear -Hs. induction s as [|d t IH]; [done|]. simpl in *.
      destruct (is_space d); [by apply IH|done]. }
    rewrite lstrip_blanks by done. cbn [app].
    rewrite <- (app_nil_r ws2), lstrip_blanks by done. done.
  - rewrite lstrip_app by (by rewrite Hs). by apply rstrip_blanks.
Qed.

Lemma strip_nonblank_ends s :
  strip s ≠ [] →
  ∃ c r, strip s = c :: r ∧ is_space c = false.
Proof.
  unfold strip. destruct (lstrip_head s) as [->|(c & r & -> & E)]; [done|].
  intros _. rewrite rstrip_cons by done. by eexists _, _.
Qed.

End Stripping.

Section ExpansionFacts.

Lemma expand_by_stripped a b :
  strip (default [] a) = strip (default [] b) →
  _expand_perm a = _expand_perm b.
Proof. intros H. unfold _expand_perm. by rewrite H. Qed.

Lemma can_by_expansion u a b :
  _expand_perm a = _expand_perm b → can u a = can u b.
Proof. intros H. unfold can. by rewrite H. Qed.

Lemma equivalents_items k eqs :
  PERM_EQUIVALENTS !! k = Some eqs → (k, eqs) ∈ PERM_EQUIVALENTS_items.
Proof. apply elem_of_list_to_map_2. Qed.

End ExpansionFacts.

(** X1. Blanks around a permission code change nothing: the expansion
    of the padded code, the answer of [can] and the outcome of the
    wrapper of [require_perm] are those of the code itself. *)
Theorem checks_ignore_padding {A R : Type} (u : user_proxy)
    (ws1 code ws2 : pystr) (fn : A → R) (args : A) :
  forallb is_space ws1 = true → forallb is_space ws2 = true →
  _expand_perm (Some (ws1 ++ code ++ ws2)) = _expand_perm (Some code)
  ∧ can u (Some (ws1 ++ code ++ ws2)) = can u (Some code)
  ∧ require_perm (Some (ws1 ++ code ++ ws2)) fn u args
    = require_perm (Some code) fn u args.
Proof.
  intros H1 H2.
  assert (_expand_perm (Some (ws1 ++ code ++ ws2)) = _expand_perm (Some code))
    as He by (apply expand_by_stripped; by apply strip_padded).
  split; [done|]. split; [by apply can_by_expansion|].
  rewrite !require_perm_by_can. by rewrite (can_by_expansion u _ _ He).
Qed.

Lemma checks_ignore_padding_witness :
  can rbac_admin (Some (py "  bilan:view ")) = can rbac_admin (Some (py "bilan:view")).
Proof.
  destruct (checks_ignore_padding (A := unit) (R := unit) rbac_admin
              (py "  ") (py "bilan:view") (py " ") (λ _, tt) tt)
    as (_ & Hcan & _); [reflexivity..|].
  exact Hcan.
Defined.

(** X2. Expansions do not chain.  Every member of an expansion is a
    non-empty code without blanks around it, expands to a set that
    contains it, and that set lies within the expansion it came from:
    expanding a second time adds nothing. *)
Theorem expansion_is_closed (code : option pystr) (d : pystr) :
  d ∈ _expand_perm code →
  d ≠ [] ∧ strip d = d
  ∧ d ∈ _expand_perm (Some d)
  ∧ _expand_perm (Some d) ⊆ _expand_perm code.
Proof.
  intros Hd.
  destruct (decide (strip (default [] code) = [])) as [He|Hne].
  { rewrite (expand_empty _ He) in Hd. by apply not_elem_of_empty in Hd. }
  destruct (PERM_EQUIVALENTS !! strip (default [] code)) as [eqs|] eqn:Hk.
  - rewrite (expand_key _ _ Hne Hk) in *.
    apply equivalents_items in Hk. unfold PERM_EQUIVALENTS_items in Hk.
    repeat (apply elem_of_cons in Hk as [Hk|Hk];
            [injection Hk as _ ->;
             apply elem_of_union in Hd as [Hd|Hd];
             apply elem_of_singleton in Hd; subst d;
             (split_and!; [fails_by_evaluation|vm_compute; reflexivity
                          |holds_by_evaluation|holds_by_evaluation])|]).
    by apply elem_of_nil in Hk.
  - rewrite (expand_other _ Hne Hk) in *. apply elem_of_singleton in Hd.
    subst d.
    pose proof (expand_other (Some (strip (default [] code)))) as Hself.
    change (default [] (Some (strip (default [] code))))
      with (strip (default [] code)) in Hself.
    rewrite strip_idemp in Hself.
    specialize (Hself Hne Hk).
    split_and!; [done|apply strip_idemp| |by rewrite Hself].
    rewrite Hself. by apply elem_of_singleton.
Qed.

Lemma expansion_is_closed_witness :
  _expand_perm (Some (py "bilans:view"))
  ⊆ _expand_perm (Some (py " bilans:lourds:view")).
Proof.
  destruct (expansion_is_closed (Some (py " bilans:lourds:view"))
              (py "bilans:view")) as (_ & _ & _ & Hsub);
    [holds_by_evaluation|exact Hsub].
Defined.

(** X3. Granting more never takes access away: when every permission
    [has_perm] accepts is accepted by another [has_perm], whatever [can]
    and [require_perm] let through with the first they let through with
    the second. *)
Theorem checks_monotone {A R : Type} (auth : bool) (f g : pystr → bool)
    (code : option pystr) (fn : A → R) (args : A) :
  (∀ c, f c = true → g c = true) →
  (can {| is_authenticated := auth; has_perm := Some f |} code = true →
   can {| is_authenticated := auth; has_perm := Some g |} code = true)
  ∧ (require_perm code fn {| is_authenticated := auth; has_perm := Some f |}
       args = Return (fn args) →
     require_perm code fn {| is_authenticated := auth; has_perm := Some g |}
       args = Return (fn args)).
Proof.
  intros Hfg.
  assert (can {| is_authenticated := auth; has_perm := Some f |} code = true →
          can {| is_authenticated := auth; has_perm := Some g |} code = true)
    as Hcan.
  { rewrite !can_true_iff. cbn [is_authenticated has_perm].
    intros (Ha & f' & [= <-] & Hne & c & Hc & Hfc).
    split; [done|]. exists g. split_and!; [done..|]. exists c. auto. }
  split; [done|]. rewrite !require_perm_by_can.
  destruct (can {| is_authenticated := auth; has_perm := Some f |} code).
  - by rewrite Hcan.
  - cbn [is_authenticated]. by destruct auth.
Qed.

Lemma checks_monotone_witness :
  can {| is_authenticated := true; has_perm := Some (λ _, true) |}
      (Some (py "bilan:view")) = true.
Proof.
  destruct (checks_monotone (A := unit) (R := unit) true
              (λ c, bool_decide (c = py "bilans:view")) (λ _, true)
              (Some (py "bilan:view")) (λ _, tt) tt) as (Hcan & _);
    [done|].
  apply Hcan. vm_compute. reflexivity.
Defined.

(** X4. Without role methods on the user object, [has_any_role] agrees
    with [has_role]: it answers [True] exactly when [has_role] does for
    one of the codes (never for an empty list), and it raises only when
    [has_role] raises on every code. *)
Theorem has_any_role_agrees_with_has_role (u : member) (codes : list pystr) :
  m_has_role u = None → m_has_any_role u = None →
  match has_any_role u codes with
  | Returns b =>
    (b = true ↔ ∃ c, c ∈ codes ∧ has_role u c = Returns true)
    ∧ ∀ c, ∃ b', has_role u c = Returns b'
  | Raises e => ∀ c, has_role u c = Raises e
  end.
Proof.
  intros H1 H2. unfold has_any_role, has_role. rewrite H1, H2.
  destruct (is_authenticated (m_user u)); cbn [negb].
  2: { split; [|by eexists]. split; [done|]. by intros (c & _ & [=]). }
  destruct (m_role_codes u) as [|l|]; [| |done].
  - split; [|by eexists]. split.
    + intros Hex. apply existsb_exists in Hex as (c & _ & Hc).
      apply bool_decide_eq_true in Hc.
      by apply (elem_of_list_to_set (C := gset pystr)), elem_of_nil in Hc.
    + intros (c & _ & Hc). exfalso.
      rewrite bool_decide_eq_false_2 in Hc by apply not_elem_of_nil.
      discriminate Hc.
  - split; [|by eexists]. split.
    + intros Hex. apply existsb_exists in Hex as (c & Hin & Hc).
      exists c. split; [by apply list_elem_of_In|].
      apply bool_decide_eq_true in Hc.
      apply (elem_of_list_to_set (C := gset pystr)) in Hc.
      by rewrite bool_decide_eq_true_2.
    + intros (c & Hin & Hc). apply existsb_exists. exists c.
      split; [by apply list_elem_of_In|].
      destruct (decide (c ∈ l)) as [Hl|Hl].
      * apply bool_decide_eq_true.
        by apply (elem_of_list_to_set (C := gset pystr)).
      * rewrite bool_decide_eq_false_2 in Hc by done. discriminate Hc.
Qed.

Lemma has_any_role_agrees_with_has_role_witness :
  has_any_role plain_member [py "admin_tech"; py "direction"] = Returns true
  ∧ has_any_role plain_member [] = Returns false.
Proof.
  pose proof (has_any_role_agrees_with_has_role plain_member
                [py "admin_tech"; py "direction"] eq_refl eq_refl) as H1.
  pose proof (has_any_role_agrees_with_has_role plain_member
                [] eq_refl eq_refl) as H2.
  destruct (has_any_role plain_member [py "admin_tech"; py "direction"])
    as [b|e] eqn:E1; [|by destruct (H1 []) ].
  destruct (has_any_role plain_member []) as [b'|e'] eqn:E2;
    [|by destruct (H2 [])].
  destruct H1 as [H1 _]. destruct H2 as [H2 _]. split.
  - f_equal. apply H1. exists (py "direction").
    split; [holds_by_evaluation|vm_compute; reflexivity].
  - f_equal. destruct b'; [|done]. destruct H2 as [H2 _].
    destruct (H2 eq_refl) as (c & Hc & _). by apply elem_of_nil in Hc.
Defined.

(* ===================================================================== *)
(** * Further properties: categories and [bootstrap_rbac] *)
(* ===================================================================== *)

Section CategoryFacts.
Variable uc : pystr → pystr.

Lemma before_colon_app m rest :
  colon ∉ m → before_colon (m ++ colon :: rest) = m.
Proof.
  induction m as [|c m IH]; intros Hm; cbn [app before_colon].
  - by rewrite N.eqb_refl.
  - apply not_elem_of_cons in Hm as [Hc Hm].
    destruct (N.eqb_spec c colon) as [->|_]; [done|]. by rewrite IH.
Qed.

Lemma blanks_have_no_colon ws : forallb is_space ws = true → colon ∉ ws.
Proof.
  intros Hws Hin. rewrite forallb_forall in Hws.
  by specialize (Hws colon (proj1 (list_elem_of_In _ _) Hin)).
Qed.

End CategoryFacts.

(** X6. The category of a code is read off its module only: what
    follows the first colon, and blanks around the module, make no
    difference, and a code without a colon is taken as a bare module
    name. *)
Theorem category_reads_module_only (uc : pystr → pystr)
    (ws1 module ws2 rest : pystr) :
  forallb is_space ws1 = true → forallb is_space ws2 = true →
  colon ∉ module →
  _category_from_code uc (ws1 ++ module ++ ws2 ++ colon :: rest)
  = _category_from_code uc module.
Proof.
  intros H1 H2 Hm. unfold _category_from_code, has_colon.
  rewrite (bool_decide_eq_false_2 (colon ∈ module)) by done.
  rewrite bool_decide_eq_true_2.
  2: { rewrite !elem_of_app. right. right. right. left. }
  replace (ws1 ++ module ++ ws2 ++ colon :: rest)
    with ((ws1 ++ module ++ ws2) ++ colon :: rest)
    by (by rewrite <- !app_assoc).
  rewrite before_colon_app.
  2: { rewrite !not_elem_of_app.
       split_and!; [by apply blanks_have_no_colon|done
                   |by apply blanks_have_no_colon]. }
  by rewrite strip_padded.
Qed.

Lemma category_reads_module_only_witness :
  _category_from_code id
    (py " " ++ py "stats" ++ py " " ++ colon :: py "view_all")
  = py "Stats".
Proof.
  rewrite (category_reads_module_only id (py " ") (py "stats") (py " ")
             (py "view_all")); [|reflexivity|reflexivity|fails_by_evaluation].
  vm_compute. reflexivity.
Defined.

Section RoleRows.
Implicit Types (rs : list Role) (pbc : gmap pystr nat) (r : Role).
Implicit Types (tpls : list (pystr * list pystr)).

Lemma template_perms_are_defaults :
  Forall (λ t : pystr * list pystr,
            Forall (λ c, c ∈ DEFAULT_PERMS.*1) t.2) ROLE_TEMPLATES.
Proof. holds_by_evaluation. Qed.

Lemma first_role_index_Some rs c i :
  first_role_index rs c = Some i →
  ∃ r, first_role rs c = Some (i, r) ∧ rs !! i = Some r ∧ r_code r = c.
Proof.
  unfold first_role_index.
  destruct (first_role rs c) as [[k r]|] eqn:E; [|done].
  intros [= <-]. exists r. split; [done|].
  by apply first_role_Some in E as (? & ? & _).
Qed.

Lemma role_step_index_other pbc rs c perms c' :
  c' ≠ c →
  first_role_index (role_step pbc rs (c, perms)) c' = first_role_index rs c'.
Proof.
  intros Hne. unfold first_role_index. by rewrite role_step_first_other.
Qed.

(** One iteration changes the row the template's code is first found
    at, and no other. *)
Lemma role_step_lookup pbc rs c perms i r :
  rs !! i = Some r →
  role_step pbc rs (c, perms) !! i
  = Some (if bool_decide (first_role_index rs c = Some i)
          then set_permissions (granted pbc perms) r else r).
Proof.
  intros Hi. unfold first_role_index.
  destruct (first_role rs c) as [[k r0]|] eqn:E.
  - rewrite (role_step_present _ _ _ _ _ _ E), list_lookup_alter.
    cbn [fmap option_fmap option_map fst].
    destruct (decide (k = i)) as [->|Hne].
    + rewrite bool_decide_eq_true_2 by done. by rewrite Hi.
    + rewrite bool_decide_eq_false_2 by congruence. done.
  - rewrite (role_step_absent _ _ _ _ E).
    rewrite lookup_app_l by (by eapply lookup_lt_Some).
    by rewrite bool_decide_eq_false_2.
Qed.

Lemma foldl_role_step_lookup pbc tpls rs i r :
  NoDup tpls.*1 → rs !! i = Some r →
  ∃ r', foldl (role_step pbc) rs tpls !! i = Some r'
        ∧ r_code r' = r_code r ∧ r_label r' = r_label r
        ∧ ((∀ c, c ∈ tpls.*1 → first_role_index rs c ≠ Some i) → r' = r)
        ∧ (∀ c perms, (c, perms) ∈ tpls → first_role_index rs c = Some i →
                      r_permissions r' = granted pbc perms).
Proof.
  revert rs r. induction tpls as [|[c0 p0] tpls IH]; intros rs r Hnd Hi.
  { exists r. split_and!; [done..|]. by intros c perms ?%elem_of_nil. }
  csimpl in Hnd. apply NoDup_cons in Hnd as [Hc0 Hnd]. cbn [foldl].
  pose proof (role_step_lookup pbc rs c0 p0 i r Hi) as H1.
  destruct (IH _ _ Hnd H1) as (r' & Hr' & Hcode & Hlabel & Hsame & Hhit).
  assert (∀ c, c ∈ tpls.*1 →
               first_role_index (role_step pbc rs (c0, p0)) c
               = first_role_index rs c) as Hidx.
  { intros c Hc. apply role_step_index_other. by intros ->. }
  exists r'. split; [done|].
  split; [rewrite Hcode; by case_bool_decide|].
  split; [rewrite Hlabel; by case_bool_decide|]. split.
  - intros Hno. rewrite Hsame.
    + rewrite bool_decide_eq_false_2; [done|]. apply Hno. csimpl. left.
    + intros c Hc. rewrite Hidx by done. apply Hno. csimpl. by right.
  - intros c perms Hin Hc. apply elem_of_cons in Hin as [[= -> ->]|Hin].
    + rewrite Hsame.
      * by rewrite bool_decide_eq_true_2.
      * intros c Hc'. rewrite Hidx by done. intros Hc''.
        apply first_role_index_Some in Hc as (? & _ & Hr1 & <-).
        apply first_role_index_Some in Hc'' as (? & _ & Hr2 & <-).
        rewrite Hr1 in Hr2. injection Hr2 as <-. done.
    + apply (Hhit c perms Hin). rewrite Hidx; [done|].
      apply list_elem_of_fmap. by exists (c, perms).
Qed.

(** Every row the role block leaves either holds a granted list or is
    a row that was there with the list it had. *)
Lemma role_step_Forall pbc (Q : Role → Prop) rs tpl :
  (∀ perms r, r_permissions r = granted pbc perms → Q r) →
  Forall Q rs → Forall Q (role_step pbc rs tpl).
Proof.
  intros HQ Hrs. destruct tpl as [c perms].
  destruct (first_role rs c) as [[k r0]|] eqn:E.
  - rewrite (role_step_present _ _ _ _ _ _ E).
    apply Forall_alter; [done|]. intros r _ _. by apply (HQ perms).
  - rewrite (role_step_absent _ _ _ _ E). apply Forall_app. split; [done|].
    constructor; [|constructor]. by apply (HQ perms).
Qed.

Lemma foldl_role_step_Forall pbc (Q : Role → Prop) tpls rs :
  (∀ perms r, r_permissions r = granted pbc perms → Q r) →
  Forall Q rs → Forall Q (foldl (role_step pbc) rs tpls).
Proof.
  intros HQ. revert rs. induction tpls as [|t tpls IH]; intros rs Hrs;
    cbn [foldl]; [done|].
  apply IH. by apply role_step_Forall.
Qed.

Lemma filter_ext_elem {A} (P Q : A → Prop) `{!∀ x, Decision (P x)}
    `{!∀ x, Decision (Q x)} (l : list A) :
  (∀ x, x ∈ l → P x ↔ Q x) → filter P l = filter Q l.
Proof.
  induction l as [|x l IH]; intros Hext; [done|].
  rewrite !filter_cons.
  rewrite IH by (intros y Hy; apply Hext; by right).
  destruct (decide (P x)) as [HP|HP], (decide (Q x)) as [HQ|HQ];
    try done; exfalso.
  - apply HQ, (Hext x); [left|done].
  - apply HP, (Hext x); [left|done].
Qed.

Lemma foldl_role_step_length_exact pbc tpls rs :
  NoDup tpls.*1 →
  length (foldl (role_step pbc) rs tpls)
  = (length rs
     + length (filter (λ c, first_role rs c = None) tpls.*1))%nat.
Proof.
  revert rs. induction tpls as [|[c0 p0] tpls IH]; intros rs Hnd.
  { cbn. lia. }
  csimpl in Hnd. apply NoDup_cons in Hnd as [Hc0 Hnd]. cbn [foldl].
  rewrite IH by done. rewrite fmap_cons, filter_cons. cbn [fst].
  rewrite (filter_ext_elem
             (λ c, first_role (role_step pbc rs (c0, p0)) c = None)
             (λ c, first_role rs c = None)).
  2: { intros c Hc. rewrite role_step_first_other; [done|]. by intros ->. }
  destruct (first_role rs c0) as [[k r0]|] eqn:E.
  - rewrite (role_step_present _ _ _ _ _ _ E), length_alter.
    rewrite decide_False by done. done.
  - rewrite (role_step_absent _ _ _ _ E), length_app.
    rewrite decide_True by done. cbn [length]. lia.
Qed.

End RoleRows.

Section PermissionRows.
Variable uc : pystr → pystr.
Implicit Types (rows : list Permission) (defs : list (pystr * pystr)).

Lemma new_rows_length ex defs :
  length (new_rows uc ex defs)
  = length (filter (λ c, ex !! c = None) defs.*1).
Proof.
  induction defs as [|[c l] defs IH]; [done|].
  rewrite fmap_cons, filter_cons. unfold new_rows in *. cbn [omap list_omap fst].
  destruct (ex !! c) as [i|] eqn:E.
  - rewrite decide_False by done. exact IH.
  - rewrite decide_True by done. cbn [length]. by rewrite IH.
Qed.

Lemma new_rows_code_list ex defs :
  p_code <$> new_rows uc ex defs = filter (λ c, ex !! c = None) defs.*1.
Proof.
  induction defs as [|[c l] defs IH]; [done|].
  rewrite fmap_cons, filter_cons. unfold new_rows in *. cbn [omap list_omap fst].
  destruct (ex !! c) as [i|] eqn:E.
  - rewrite decide_False by done. exact IH.
  - rewrite decide_True by done. rewrite fmap_cons. by rewrite IH.
Qed.

Lemma sync_permissions_length defs rows :
  NoDup defs.*1 →
  length (sync_permissions_for uc defs rows).1
  = (length rows
     + length (filter (λ c, c ∉ p_code <$> rows) defs.*1))%nat.
Proof.
  intros Hnd. rewrite (sync_permissions_rows uc defs).
  rewrite length_app, foldl_upd_old_length, new_rows_length. f_equal.
  f_equal. apply filter_ext_elem. intros c _.
  rewrite <- by_code_is_Some, <- eq_None_not_Some. done.
Qed.

Lemma sync_permissions_codes defs rows :
  NoDup defs.*1 →
  p_code <$> (sync_permissions_for uc defs rows).1
  = (p_code <$> rows) ++ filter (λ c, c ∉ p_code <$> rows) defs.*1.
Proof.
  intros Hnd. rewrite (sync_permissions_rows uc defs).
  rewrite fmap_app, (upd_old_codes uc defs), new_rows_code_list. f_equal.
  apply filter_ext_elem. intros c _.
  rewrite <- by_code_is_Some, <- eq_None_not_Some. done.
Qed.

Lemma perm_step_unchanged ex rows ch entry :
  (perm_step uc ex (rows, ch) entry).2 = false →
  ch = false ∧ (perm_step uc ex (rows, ch) entry).1 = rows.
Proof.
  destruct entry as [c l]. unfold perm_step.
  destruct (ex !! c) as [i|]; [|by intros [=]].
  destruct (rows !! i) as [p|] eqn:Hp; [|cbn [fst snd]; by intros ->].
  destruct (bool_decide (p_label p ≠ Some l)) eqn:E1.
  - cbn [p_category].
    destruct (bool_decide (p_category p ≠ Some (_category_from_code uc c)));
      cbn [fst snd]; by intros [=].
  - destruct (bool_decide (p_category p ≠ Some (_category_from_code uc c)));
      cbn [fst snd]; [by intros [=]|].
    intros ->. split; [done|]. by apply list_insert_id.
Qed.

Lemma perm_steps_unchanged ex defs rows ch :
  (foldl (perm_step uc ex) (rows, ch) defs).2 = false →
  ch = false ∧ (foldl (perm_step uc ex) (rows, ch) defs).1 = rows.
Proof.
  revert rows ch. induction defs as [|d defs IH]; intros rows ch;
    cbn [foldl]; [done|].
  destruct (perm_step uc ex (rows, ch) d) as [rows' ch'] eqn:E.
  intros H2. destruct (IH _ _ H2) as [-> H1].
  pose proof (perm_step_unchanged ex rows ch d) as Hs.
  rewrite E in Hs. cbn [fst snd] in Hs. destruct (Hs eq_refl) as [-> ->].
  by rewrite H1.
Qed.

Lemma sync_permissions_flag defs rows :
  NoDup defs.*1 →
  (sync_permissions_for uc defs rows).2 = false
  ↔ (sync_permissions_for uc defs rows).1 = rows.
Proof.
  intros Hnd. split.
  - intros H2. by apply perm_steps_unchanged in H2 as [_ ?].
  - intros H1. unfold sync_permissions_for.
    rewrite (perm_steps_fixpoint uc rows defs); [done|].
    intros c l Hin.
    destruct (sync_permissions_settled uc defs Hnd rows c l Hin)
      as (j & q & Hj & Hq & Hline & _).
    rewrite H1 in Hj, Hq. by exists j, q.
Qed.

End PermissionRows.

Section RoleCodes.
Implicit Types (rs : list Role) (pbc : gmap pystr nat).

Lemma foldl_role_step_codes pbc tpls rs :
  NoDup tpls.*1 →
  r_code <$> foldl (role_step pbc) rs tpls
  = (r_code <$> rs) ++ filter (λ c, c ∉ r_code <$> rs) tpls.*1.
Proof.
  revert rs. induction tpls as [|[c0 p0] tpls IH]; intros rs Hnd.
  { cbn. by rewrite app_nil_r. }
  rewrite fmap_cons in Hnd. apply NoDup_cons in Hnd as [Hc0 Hnd].
  cbn [foldl fst] in *. rewrite IH by done.
  rewrite fmap_cons, filter_cons. cbn [fst].
  destruct (first_role rs c0) as [[k r0]|] eqn:E.
  - rewrite (role_step_present _ _ _ _ _ _ E).
    rewrite alter_codes by done.
    rewrite decide_False; [done|].
    intros Hn. apply first_role_None in Hn. congruence.
  - rewrite (role_step_absent _ _ _ _ E).
    rewrite decide_True by (by apply first_role_None).
    rewrite fmap_app, <- app_assoc. cbn [fmap list_fmap app r_code].
    f_equal. f_equal. apply filter_ext_elem. intros c Hc.
    rewrite elem_of_app, list_elem_of_singleton.
    split; [tauto|]. intros Hn [?| ->]; [done|]. done.
Qed.

End RoleCodes.

Section TemplateRoles.
Variable uc : pystr → pystr.

Lemma template_perm_present (db : database) code perms c :
  (code, perms) ∈ ROLE_TEMPLATES → c ∈ perms →
  c ∈ p_code <$> permissions (bootstrap_rbac uc true db).
Proof.
  intros Hin Hc.
  pose proof template_perms_are_defaults as Hall.
  rewrite Forall_forall in Hall. specialize (Hall _ Hin).
  rewrite Forall_forall in Hall. specialize (Hall _ Hc).
  apply list_elem_of_fmap in Hall as ([c' l] & -> & Hdef).
  by apply (default_codes_present uc db c' l).
Qed.

Lemma template_role_codes (db : database) code perms :
  (code, perms) ∈ ROLE_TEMPLATES →
  ∃ i r, first_role (roles (bootstrap_rbac uc true db)) code = Some (i, r)
         ∧ ∀ c, c ∈ role_codes (permissions (bootstrap_rbac uc true db)) r
                ↔ c ∈ perms.
Proof.
  intros Hin.
  destruct (foldl_role_step_first
              (by_code (permissions (bootstrap_rbac uc true db)))
              ROLE_TEMPLATES (roles db) code perms
              ROLE_TEMPLATES_codes_NoDup Hin) as (i & r & Hf & _ & Hp & _).
  exists i, r. rewrite bootstrap_roles. split; [exact Hf|].
  intros c. rewrite (role_codes_granted _ perms r c Hp). split.
  - by intros [? _].
  - intros Hc. split; [done|]. by apply (template_perm_present db code perms).
Qed.

End TemplateRoles.

(** X7.  After a successful run of [bootstrap_rbac] the role of each
    template holds exactly the permission codes its template lists: no
    code of a template is lost for want of a permission row, since every
    template draws its codes from [DEFAULT_PERMS], and nothing the role
    held before is kept. *)
Theorem template_roles_hold_their_codes (uc : pystr → pystr) (db : database)
    (code : pystr) (perms : list pystr) :
  (code, perms) ∈ ROLE_TEMPLATES →
  let db' := bootstrap_rbac uc true db in
  Forall (λ c, c ∈ DEFAULT_PERMS.*1) perms
  ∧ ∃ i r, first_role (roles db') code = Some (i, r)
           ∧ ∀ c, c ∈ role_codes (permissions db') r ↔ c ∈ perms.
Proof.
  intros Hin db'. split.
  - pose proof template_perms_are_defaults as Hall.
    rewrite Forall_forall in Hall. exact (Hall _ Hin).
  - by apply template_role_codes.
Qed.

Lemma template_roles_hold_their_codes_witness :
  ∃ i r, first_role (roles (bootstrap_rbac id true sample_db))
           (py "admin_tech") = Some (i, r)
         ∧ ∀ c, c ∈ role_codes (permissions (bootstrap_rbac id true sample_db)) r
                ↔ c ∈ [ py "dashboard:view"; py "admin:users";
                        py "admin:rbac" ].
Proof.
  destruct (template_roles_hold_their_codes id sample_db (py "admin_tech")
              [ py "dashboard:view"; py "admin:users"; py "admin:rbac" ])
    as [_ H].
  - left.
  - exact H.
Defined.

(** X8.  [bootstrap_rbac] keeps every role row at its position with its
    code and label, and leaves a role entirely as it was, permission
    list included, unless it is the first role carrying the code of a
    template: roles of the site's own and second roles with a template
    code are not touched. *)
Theorem other_roles_untouched (uc : pystr → pystr) (db : database)
    (i : nat) (r : Role) :
  roles db !! i = Some r →
  let db' := bootstrap_rbac uc true db in
  ∃ r', roles db' !! i = Some r'
        ∧ r_code r' = r_code r ∧ r_label r' = r_label r
        ∧ (r_code r ∉ ROLE_TEMPLATES.*1 → r' = r)
        ∧ (first_role_index (roles db) (r_code r) ≠ Some i → r' = r).
Proof.
  intros Hi db'.
  destruct (foldl_role_step_lookup (by_code (permissions db'))
              ROLE_TEMPLATES (roles db) i r ROLE_TEMPLATES_codes_NoDup Hi)
    as (r' & Hr' & Hcode & Hlabel & Hsame & _).
  exists r'. unfold db' at 1. rewrite bootstrap_roles.
  split; [exact Hr'|]. split; [exact Hcode|]. split; [exact Hlabel|].
  assert (∀ c, first_role_index (roles db) c = Some i → c = r_code r) as Hc.
  { intros c (r0 & _ & Hr0 & <-)%first_role_index_Some. congruence. }
  split.
  - intros Hno. apply Hsame. intros c Hin Hidx.
    apply Hc in Hidx as ->. by apply Hno.
  - intros Hno. apply Hsame. intros c _ Hidx.
    pose proof (Hc _ Hidx) as ->. by apply Hno.
Qed.

Lemma other_roles_untouched_witness :
  roles (bootstrap_rbac id true two_directions_db) !! 1%nat
  = Some {| r_code := py "benevole"; r_label := None;
            r_permissions := [0%nat] |}
  ∧ roles (bootstrap_rbac id true two_directions_db) !! 2%nat
    = Some {| r_code := py "direction"; r_label := Some (py "Bis");
              r_permissions := [] |}.
Proof.
  split.
  - destruct (other_roles_untouched id two_directions_db 1%nat
                {| r_code := py "benevole"; r_label := None;
                   r_permissions := [0%nat] |} eq_refl)
      as (r' & Hr' & _ & _ & Hsame & _).
    rewrite Hr'. f_equal. apply Hsame. fails_by_evaluation.
  - destruct (other_roles_untouched id two_directions_db 2%nat
                {| r_code := py "direction"; r_label := Some (py "Bis");
                   r_permissions := [] |} eq_refl)
      as (r' & Hr' & _ & _ & _ & Hsame).
    rewrite Hr'. f_equal. apply Hsame. fails_by_evaluation.
Defined.

Lemma bootstrap_code_lists (uc : pystr → pystr) (db : database) :
  p_code <$> permissions (bootstrap_rbac uc true db)
  = (p_code <$> permissions db)
    ++ filter (λ c, c ∉ p_code <$> permissions db) DEFAULT_PERMS.*1
  ∧ r_code <$> roles (bootstrap_rbac uc true db)
    = (r_code <$> roles db)
      ++ filter (λ c, c ∉ r_code <$> roles db) ROLE_TEMPLATES.*1.
Proof.
  split.
  - rewrite bootstrap_permissions.
    apply sync_permissions_codes, DEFAULT_PERMS_codes_NoDup.
  - rewrite bootstrap_roles.
    apply foldl_role_step_codes, ROLE_TEMPLATES_codes_NoDup.
Qed.

(** X9.  [bootstrap_rbac] only ever appends rows, and only for codes
    that are missing: the codes of the permission table afterwards are
    those it had, in place, followed by the codes of [DEFAULT_PERMS] it
    did not have, in the order of [DEFAULT_PERMS]; likewise for the
    roles and the codes of [ROLE_TEMPLATES]; the users are as many as
    before. *)
Theorem bootstrap_appends_missing_codes (uc : pystr → pystr) (db : database) :
  let db' := bootstrap_rbac uc true db in
  p_code <$> permissions db'
  = (p_code <$> permissions db)
    ++ filter (λ c, c ∉ p_code <$> permissions db) DEFAULT_PERMS.*1
  ∧ r_code <$> roles db'
    = (r_code <$> roles db)
      ++ filter (λ c, c ∉ r_code <$> roles db) ROLE_TEMPLATES.*1
  ∧ length (users db') = length (users db).
Proof.
  intros db'. unfold db'.
  destruct (bootstrap_code_lists uc db) as [Hp Hr].
  split; [exact Hp|]. split; [exact Hr|].
  rewrite bootstrap_users. apply length_fmap.
Qed.

Section UniqueCodes.

Lemma NoDup_app_missing {A} `{EqDecision A} (l d : list A) :
  NoDup l → NoDup d → NoDup (l ++ filter (λ c, c ∉ l) d).
Proof.
  intros Hl Hd. apply NoDup_app. split; [done|]. split.
  - intros x Hx [Hno _]%list_elem_of_filter. by apply Hno.
  - by apply NoDup_filter.
Qed.

End UniqueCodes.

(** X10.  [bootstrap_rbac] never creates a second row for a code: when
    the permission codes are unique before the run they are unique after
    it, and so for the role codes. *)
Theorem bootstrap_keeps_codes_unique (uc : pystr → pystr) (db : database) :
  let db' := bootstrap_rbac uc true db in
  (NoDup (p_code <$> permissions db) → NoDup (p_code <$> permissions db'))
  ∧ (NoDup (r_code <$> roles db) → NoDup (r_code <$> roles db')).
Proof.
  intros db'.
  destruct (bootstrap_code_lists uc db) as (Hp & Hr).
  unfold db'. rewrite Hp, Hr. split; intros Hnd.
  - apply NoDup_app_missing; [exact Hnd|apply DEFAULT_PERMS_codes_NoDup].
  - apply NoDup_app_missing; [exact Hnd|apply ROLE_TEMPLATES_codes_NoDup].
Qed.

Lemma bootstrap_keeps_codes_unique_witness :
  NoDup (p_code <$> permissions (bootstrap_rbac id true sample_db))
  ∧ NoDup (r_code <$> roles (bootstrap_rbac id true sample_db)).
Proof.
  destruct (bootstrap_keeps_codes_unique id sample_db) as [Hp Hr].
  split; [apply Hp|apply Hr]; holds_by_evaluation.
Defined.

(** X11.  A user with a [roles] attribute whose legacy role maps to a
    template role ([None] and the empty string count as
    [responsable_secteur]) holds that role after a successful run of
    [bootstrap_rbac], and through it exactly the permission codes of the
    template. *)
Theorem legacy_users_hold_their_role (uc : pystr → pystr) (db : database)
    (i : nat) (u : User) (mine : list nat) (perms : list pystr) :
  users db !! i = Some u → u_roles u = Some mine →
  (legacy_target (u_role u), perms) ∈ ROLE_TEMPLATES →
  let db' := bootstrap_rbac uc true db in
  ∃ u' mine' j r,
    users db' !! i = Some u' ∧ u_roles u' = Some mine' ∧ j ∈ mine'
    ∧ first_role (roles db') (legacy_target (u_role u)) = Some (j, r)
    ∧ ∀ c, c ∈ role_codes (permissions db') r ↔ c ∈ perms.
Proof.
  intros Hi Hmine Hin db'.
  destruct (template_role_codes uc db _ _ Hin) as (j & r & Hf & Hcodes).
  exists (sync_user (roles db') u).
  exists (if bool_decide (j ∈ mine) then mine else mine ++ [j]), j, r.
  split.
  { unfold db' at 1. rewrite bootstrap_users, list_lookup_fmap, Hi. done. }
  split.
  { unfold sync_user. rewrite Hmine. unfold db'. rewrite Hf.
    case_bool_decide; [exact Hmine|done]. }
  split.
  { case_bool_decide; [done|]. apply elem_of_app. right. left. }
  split; [exact Hf|exact Hcodes].
Qed.

Lemma legacy_users_hold_their_role_witness :
  ∃ u' mine' j r,
    users (bootstrap_rbac id true sample_db) !! 1%nat = Some u'
    ∧ u_roles u' = Some mine' ∧ j ∈ mine'
    ∧ first_role (roles (bootstrap_rbac id true sample_db))
        (py "responsable_secteur") = Some (j, r)
    ∧ ∀ c, c ∈ role_codes (permissions (bootstrap_rbac id true sample_db)) r
           ↔ c ∈ py <$> [ "dashboard:view"; "subventions:view";
                          "depenses:view"; "depenses:create";
                          "projets:view"; "projets:edit";
                          "participants:view"; "participants:edit";
                          "inventaire:view"; "emargement:view";
                          "pedagogie:view"; "stats:view"; "bilans:view";
                          "ateliers:view"; "ateliers:sync" ]%string.
Proof.
  apply (legacy_users_hold_their_role id sample_db 1%nat
           {| u_role := None; u_roles := Some [0%nat] |} [0%nat]).
  - reflexivity.
  - reflexivity.
  - holds_by_evaluation.
Defined.

(** X12.  The permission block of [bootstrap_rbac] sets [changed], and
    so commits, exactly when it altered the permission table; it leaves
    the table and the flag alone exactly when every pair of
    [DEFAULT_PERMS] is already registered under its code with that
    label and its category. *)
Theorem permission_block_commits_iff_changed (uc : pystr → pystr)
    (rows : list Permission) :
  ((sync_permissions uc rows).2 = true ↔ (sync_permissions uc rows).1 ≠ rows)
  ∧ ((sync_permissions uc rows).2 = false
     ↔ ∀ code label, (code, label) ∈ DEFAULT_PERMS →
         ∃ i p, by_code rows !! code = Some i ∧ rows !! i = Some p
                ∧ p_code p = code ∧ p_label p = Some label
                ∧ p_category p = Some (_category_from_code uc code)).
Proof.
  rewrite sync_permissions_eq.
  pose proof (sync_permissions_flag uc DEFAULT_PERMS rows
                DEFAULT_PERMS_codes_NoDup) as Hflag.
  split.
  - rewrite <- Hflag.
    destruct (sync_permissions_for uc DEFAULT_PERMS rows).2; split;
      [by intros _ ?|done|done|by intros []].
  - split.
    + intros H1%Hflag code label Hin.
      destruct (sync_permissions_settled uc DEFAULT_PERMS
                  DEFAULT_PERMS_codes_NoDup rows code label Hin)
        as (j & q & Hj & Hq & Hline & _).
      rewrite H1 in Hj, Hq. by exists j, q.
    + intros Hall. unfold sync_permissions_for.
      rewrite (perm_steps_fixpoint uc rows DEFAULT_PERMS); [done|].
      intros c l Hin. destruct (Hall c l Hin) as (j & q & Hj & Hq & Hline).
      by exists j, q.
Qed.

Section References.
Variable uc : pystr → pystr.

Lemma bootstrap_permissions_length db :
  (length (permissions db)
   ≤ length (permissions (bootstrap_rbac uc true db)))%nat.
Proof.
  rewrite bootstrap_permissions.
  rewrite (sync_permissions_length uc DEFAULT_PERMS _
             DEFAULT_PERMS_codes_NoDup).
  lia.
Qed.

Lemma bootstrap_roles_length db :
  (length (roles db) ≤ length (roles (bootstrap_rbac uc true db)))%nat.
Proof. rewrite bootstrap_roles. apply foldl_role_step_length. Qed.

End References.

(** X13.  [bootstrap_rbac] leaves no dangling reference: when every
    permission a role lists and every role a user lists is a row of its
    table before the run, it is so after the run, the lists the run
    writes included. *)
Theorem bootstrap_keeps_references (uc : pystr → pystr) (db : database) :
  refs_valid db → refs_valid (bootstrap_rbac uc true db).
Proof.
  intros [Hroles Husers]. split.
  - pose proof (bootstrap_permissions_length uc db) as Hlen.
    assert (Forall (λ r, ∀ pid, pid ∈ r_permissions r →
                      (pid < length (permissions (bootstrap_rbac uc true db)))%nat)
                   (roles (bootstrap_rbac uc true db))) as Hall.
    { rewrite bootstrap_roles. apply foldl_role_step_Forall.
      - intros perms r -> pid (c & _ & Hc)%elem_of_granted.
        by apply by_code_bound in Hc.
      - apply Forall_forall. intros r Hr pid Hpid.
        specialize (Hroles r pid Hr Hpid). lia. }
    rewrite Forall_forall in Hall. intros r pid Hr. by apply Hall.
  - pose proof (bootstrap_roles_length uc db) as Hlen.
    intros u' mine' j. rewrite bootstrap_users.
    intros (u & -> & Hu)%list_elem_of_fmap. unfold sync_user.
    destruct (u_roles u) as [mine|] eqn:Hmine; [|by rewrite Hmine].
    assert (∀ j, j ∈ mine →
              (j < length (roles (bootstrap_rbac uc true db)))%nat) as Hold.
    { intros k Hk. specialize (Husers u mine k Hu Hmine Hk). lia. }
    destruct (first_role _ _) as [[k r]|] eqn:Hf.
    + case_bool_decide.
      * rewrite Hmine. intros [= <-]. apply Hold.
      * cbn [u_roles]. intros [= <-] [Hj| ->%list_elem_of_singleton]%elem_of_app.
        -- by apply Hold.
        -- apply first_role_Some in Hf as (Hk & _). by eapply lookup_lt_Some.
    + rewrite Hmine. intros [= <-]. apply Hold.
Qed.

Lemma bootstrap_keeps_references_witness :
  refs_valid (bootstrap_rbac id true sample_db).
Proof.
  apply bootstrap_keeps_references. split.
  - intros r pid ->%list_elem_of_singleton ->%list_elem_of_singleton.
    cbn. lia.
  - intros u mine j Hu Hmine Hj. cbn [roles sample_db length].
    cbn [users sample_db] in Hu.
    repeat (apply elem_of_cons in Hu as [->|Hu]); [..|by apply elem_of_nil in Hu];
      cbn in Hmine; injection Hmine as <- || discriminate Hmine.
    + by apply elem_of_nil in Hj.
    + apply list_elem_of_singleton in Hj as ->. lia.
Defined.

(* ===================================================================== *)
(** * Further properties: [ensure_user] and [main] of the bootstrap script *)
(* ===================================================================== *)

Section Blank.
Implicit Types (s : pystr).

Lemma lstrip_split s :
  ∃ ws, s = ws ++ lstrip s ∧ forallb is_space ws = true.
Proof.
  induction s as [|c r (ws & Hr & Hws)]; [by exists []|]. simpl.
  destruct (is_space c) eqn:E.
  - exists (c :: ws). split; [cbn [app]; by f_equal|]. simpl. by rewrite E.
  - by exists [].
Qed.

Lemma strip_nil_blank s : strip s = [] → forallb is_space s = true.
Proof.
  unfold strip. destruct (lstrip_split s) as (ws & Hs & Hws).
  destruct (lstrip_head s) as [E|(c & r & E & Hc)]; rewrite E in *.
  - intros _. rewrite Hs. by rewrite app_nil_r.
  - by rewrite rstrip_cons.
Qed.

Lemma strip_nil_iff s : strip s = [] ↔ forallb is_space s = true.
Proof. split; [apply strip_nil_blank|apply strip_blank_only]. Qed.

Lemma elem_of_lstrip s c : c ∈ lstrip s → c ∈ s.
Proof.
  induction s as [|d r IH]; [done|]. simpl.
  destruct (is_space d); [|done]. intros ?%IH. by right.
Qed.

Lemma elem_of_strip s c : c ∈ strip s → c ∈ s.
Proof.
  unfold strip, rstrip. rewrite elem_of_reverse.
  intros ?%elem_of_lstrip. rewrite elem_of_reverse in *.
  by apply elem_of_lstrip.
Qed.

Lemma strip_ascii s :
  forallb is_ascii s = true → forallb is_ascii (strip s) = true.
Proof.
  rewrite !forallb_forall. intros Hs c Hc. apply Hs.
  apply (proj1 (list_elem_of_In _ _)), elem_of_strip.
  by apply (proj2 (list_elem_of_In _ _)).
Qed.

Lemma lower_nil_iff (ul : pystr → pystr) s :
  forallb is_ascii s = true → lower ul s = [] ↔ s = [].
Proof.
  intros Hs. unfold lower. rewrite Hs. by destruct s.
Qed.

Lemma lower_nil (ul : pystr → pystr) : lower ul [] = [].
Proof. reflexivity. Qed.

End Blank.

Section Accounts.
Context {Cred : Type}.
Implicit Types (accounts : list (Account Cred)) (a : Account Cred).

Lemma first_account_Some accounts e i a :
  first_account accounts e = Some (i, a)
  ↔ accounts !! i = Some a ∧ a_email a = e
    ∧ ∀ j a', accounts !! j = Some a' → (j < i)%nat → a_email a' ≠ e.
Proof. unfold first_account. by rewrite list_find_Some. Qed.

Lemma first_account_None accounts e :
  first_account accounts e = None ↔ e ∉ a_email <$> accounts.
Proof.
  unfold first_account. rewrite list_find_None, Forall_forall. split.
  - intros Hall (a & -> & Ha)%list_elem_of_fmap. by apply (Hall a).
  - intros Hno a Ha He. apply Hno, list_elem_of_fmap. by exists a.
Qed.

Lemma first_account_new accounts e a :
  first_account accounts e = None → a_email a = e →
  first_account (accounts ++ [a]) e = Some (length accounts, a).
Proof.
  intros Hno He. apply first_account_Some. split_and!.
  - by rewrite lookup_app_r, Nat.sub_diag.
  - done.
  - intros j a' Hj Hlt He'. rewrite lookup_app_l in Hj by done.
    apply first_account_None in Hno. apply Hno, list_elem_of_fmap.
    exists a'. split; [done|]. by eapply list_elem_of_lookup_2.
Qed.

Lemma first_account_alter accounts e k (f : Account Cred → Account Cred) a :
  (∀ a, a_email (f a) = a_email a) →
  first_account accounts e = Some (k, a) →
  first_account (alter f k accounts) e = Some (k, f a).
Proof.
  intros Hf (Hk & He & Hleast)%first_account_Some.
  apply first_account_Some. split_and!.
  - by rewrite list_lookup_alter_eq, Hk.
  - by rewrite Hf.
  - intros j a' Hj Hlt. rewrite list_lookup_alter_ne in Hj by lia.
    by eapply Hleast.
Qed.

End Accounts.

Section EnsureUser.
Variable unicode_lower : pystr → pystr.
Context {Cred : Type}.
Variable set_password : pystr → Cred → Cred.
Variable no_password : Cred.
Variable user_has_roles : bool.
Implicit Types (d : site Cred) (a : Account Cred).
Implicit Types (email nom secteur : option pystr) (password role : pystr).

Local Abbreviation ensure :=
  (ensure_user unicode_lower set_password no_password user_has_roles).
Local Abbreviation fresh := (new_account no_password user_has_roles).
Local Abbreviation prepare := (prepare_account set_password).
Local Abbreviation norm email :=
  (lower unicode_lower (strip (default [] email))).

Lemma ensure_user_blank email password role nom secteur d :
  norm email = [] → ensure email password role nom secteur d = Raises ValueError.
Proof.
  intros He. unfold ensure_user. by rewrite bool_decide_eq_true_2.
Qed.

(** What a call that gets past the email test returns. *)
Lemma ensure_user_result email password role nom secteur d :
  norm email ≠ [] →
  ∃ i created accounts a0 j r rs,
    ensure email password role nom secteur d
    = Returns ({| s_permissions := s_permissions d;
                  s_roles := rs;
                  s_accounts :=
                    alter (attach_role j) i
                      (alter (prepare password role secteur) i accounts) |},
               (i, created))
    ∧ first_account accounts (norm email) = Some (i, a0)
    ∧ match first_account (s_accounts d) (norm email) with
      | Some (i0, a) =>
        created = false ∧ i = i0 ∧ a0 = a ∧ accounts = s_accounts d
      | None =>
        created = true ∧ i = length (s_accounts d)
        ∧ a0 = fresh (norm email) nom
        ∧ accounts = s_accounts d ++ [a0]
      end
    ∧ first_role rs role = Some (j, r)
    ∧ match first_role (s_roles d) role with
      | Some _ => rs = s_roles d
      | None => rs = s_roles d ++ [bare_role role]
      end.
Proof.
  intros He. unfold ensure_user. cbv zeta.
  rewrite bool_decide_eq_false_2 by done.
  destruct (first_account (s_accounts d) (norm email)) as [[i0 a]|] eqn:Ea;
    destruct (first_role (s_roles d) role) as [[j0 r0]|] eqn:Er.
  - exists i0, false, (s_accounts d), a, j0, r0, (s_roles d).
    done.
  - exists i0, false, (s_accounts d), a, (length (s_roles d)),
      (bare_role role), (s_roles d ++ [bare_role role]).
    split_and!; try done.
    apply first_role_Some. split_and!.
    + by rewrite lookup_app_r, Nat.sub_diag.
    + done.
    + intros k r' Hk Hlt Hc. rewrite lookup_app_l in Hk by done.
      apply first_role_None in Er. apply Er, list_elem_of_fmap.
      exists r'. split; [done|]. by eapply list_elem_of_lookup_2.
  - exists (length (s_accounts d)), true,
      (s_accounts d ++ [fresh (norm email) nom]),
      (fresh (norm email) nom), j0, r0, (s_roles d).
    split_and!; try done.
    by apply first_account_new.
  - exists (length (s_accounts d)), true,
      (s_accounts d ++ [fresh (norm email) nom]),
      (fresh (norm email) nom), (length (s_roles d)),
      (bare_role role), (s_roles d ++ [bare_role role]).
    split_and!; try done.
    + by apply first_account_new.
    + apply first_role_Some. split_and!.
      * by rewrite lookup_app_r, Nat.sub_diag.
      * done.
      * intros k r' Hk Hlt Hc. rewrite lookup_app_l in Hk by done.
        apply first_role_None in Er. apply Er, list_elem_of_fmap.
        exists r'. split; [done|]. by eapply list_elem_of_lookup_2.
Qed.

Lemma ensure_user_returns_nonblank email password role nom secteur d res :
  ensure email password role nom secteur d = Returns res → norm email ≠ [].
Proof.
  intros Hres He. by rewrite ensure_user_blank in Hres.
Qed.

Lemma attach_role_email j a : a_email (attach_role j a) = a_email a.
Proof.
  unfold attach_role. destruct (u_roles (a_user a)); [|done].
  by case_bool_decide.
Qed.

Lemma prepare_email password role secteur a :
  a_email (prepare password role secteur a) = a_email a.
Proof. done. Qed.

(** The account the call leaves at the user's position. *)
Lemma ensure_user_account email password role nom secteur d d' i created :
  ensure email password role nom secteur d = Returns (d', (i, created)) →
  ∃ a0 j r,
    first_account (s_accounts d') (norm email)
    = Some (i, attach_role j (prepare password role secteur a0))
    ∧ first_role (s_roles d') role = Some (j, r)
    ∧ s_permissions d' = s_permissions d
    ∧ (∀ k, k ≠ i → s_accounts d' !! k = s_accounts d !! k)
    ∧ match first_account (s_accounts d) (norm email) with
      | Some (i0, a) => created = false ∧ i = i0 ∧ a0 = a
                        ∧ length (s_accounts d') = length (s_accounts d)
      | None => created = true ∧ i = length (s_accounts d)
                ∧ a0 = fresh (norm email) nom
                ∧ length (s_accounts d') = S (length (s_accounts d))
      end
    ∧ match first_role (s_roles d) role with
      | Some _ => s_roles d' = s_roles d
      | None => s_roles d' = s_roles d ++ [bare_role role]
      end.
Proof.
  intros Hres. pose proof (ensure_user_returns_nonblank _ _ _ _ _ _ _ Hres) as He.
  destruct (ensure_user_result email password role nom secteur d He)
    as (i' & created' & accounts & a0 & j & r & rs & Heq & Ha & Hcase & Hr & Hrs).
  rewrite Heq in Hres. injection Hres as <- <- <-.
  exists a0, j, r. cbn [s_accounts s_roles s_permissions].
  split.
  { apply first_account_alter; [apply attach_role_email|].
    by apply first_account_alter. }
  split; [done|]. split; [done|]. split.
  { intros k Hk. rewrite !list_lookup_alter_ne by done.
    destruct (first_account (s_accounts d) (norm email)) as [[i0 a]|].
    - by destruct Hcase as (_ & _ & _ & ->).
    - destruct Hcase as (_ & -> & _ & ->).
      destruct (decide (k < length (s_accounts d))%nat).
      + by rewrite lookup_app_l.
      + rewrite !lookup_ge_None_2; [done|lia|rewrite length_app; cbn; lia]. }
  split; [|done].
  rewrite !length_alter.
  destruct (first_account (s_accounts d) (norm email)) as [[i0 a]|].
  - by destruct Hcase as (-> & -> & -> & ->).
  - destruct Hcase as (-> & -> & -> & ->). split_and!; try done.
    rewrite length_app. cbn. lia.
Qed.

Lemma attach_role_columns j a :
  a_nom (attach_role j a) = a_nom a
  ∧ a_secteur (attach_role j a) = a_secteur a
  ∧ a_cred (attach_role j a) = a_cred a
  ∧ u_role (a_user (attach_role j a)) = u_role (a_user a).
Proof.
  unfold attach_role. destruct (u_roles (a_user a)); [|done].
  by case_bool_decide.
Qed.

Lemma attach_role_roles j a :
  u_roles (a_user (attach_role j a))
  = (λ mine, if bool_decide (j ∈ mine) then mine else mine ++ [j])
      <$> u_roles (a_user a).
Proof.
  unfold attach_role. destruct (u_roles (a_user a)) as [mine|] eqn:E;
    cbn [fmap option_fmap option_map]; [|by rewrite E].
  by case_bool_decide.
Qed.

Lemma attach_role_holds j a mine :
  u_roles (a_user (attach_role j a)) = Some mine → j ∈ mine.
Proof.
  rewrite attach_role_roles. destruct (u_roles (a_user a)) as [m|]; [|done].
  cbn [fmap option_fmap option_map]. intros [= <-].
  case_bool_decide; [done|]. apply elem_of_app. right. left.
Qed.

(** An account the call has been through is only given its password
    again by a second call. *)
Lemma settled_account password role secteur j a :
  u_role (a_user a) = Some (legacy_for role) →
  (∀ s, secteur = Some s → a_secteur a = Some s) →
  (∀ mine, u_roles (a_user a) = Some mine → j ∈ mine) →
  attach_role j (prepare password role secteur a)
  = set_again set_password password a.
Proof.
  destruct a as [e n sec c [ur urs]]. cbn. intros -> Hsec Hj.
  unfold attach_role, prepare_account, set_again. cbn.
  assert (match secteur with Some s => Some s | None => sec end = sec) as ->.
  { destruct secteur as [s|]; [|done]. symmetry. by apply Hsec. }
  destruct urs as [mine|]; [|done].
  by rewrite bool_decide_eq_true_2 by (by apply Hj).
Qed.

End EnsureUser.

(** X14.  [ensure_user] raises [ValueError] when the email is [None],
    empty or made of whitespace only, and never returns then; for an
    email written in ASCII these are the only cases in which it raises. *)
Theorem ensure_user_rejects_blank_email {Cred} (ul : pystr → pystr)
    (setp : pystr → Cred → Cred) (nop : Cred) (hr : bool)
    (email : option pystr) (password role : pystr)
    (nom secteur : option pystr) (d : site Cred) :
  let call := ensure_user ul setp nop hr email password role nom secteur d in
  (forallb is_space (default [] email) = true → call = Raises ValueError)
  ∧ (∀ res, call = Returns res → forallb is_space (default [] email) = false)
  ∧ (forallb is_ascii (default [] email) = true →
     forallb is_space (default [] email) = false →
     ∃ d' i created, call = Returns (d', (i, created))).
Proof.
  intros call. split; [|split].
  - intros Hb. apply ensure_user_blank. by rewrite strip_blank_only.
  - intros res Hres. apply ensure_user_returns_nonblank in Hres.
    destruct (forallb is_space (default [] email)) eqn:E; [|done].
    by rewrite strip_blank_only in Hres.
  - intros Hascii Hb.
    destruct (ensure_user_result ul setp nop hr email password role nom
                secteur d) as (i & c & ? & ? & ? & ? & ? & Heq & _).
    + rewrite lower_nil_iff by (by apply strip_ascii).
      rewrite strip_nil_iff. by rewrite Hb.
    + by eexists _, i, c.
Qed.

Lemma ensure_user_rejects_blank_email_witness :
  ensure_user id keep_last None true (Some (py "  ")) (py "secret")
    (py "finance") None None sample_site = Raises ValueError
  ∧ ∃ d' i created,
      ensure_user id keep_last None true (Some (py " Chef@Asso.fr "))
        (py "secret") (py "finance") None None sample_site
      = Returns (d', (i, created)).
Proof.
  destruct (ensure_user_rejects_blank_email id keep_last None true
              (Some (py "  ")) (py "secret") (py "finance") None None
              sample_site) as (Hraise & _).
  destruct (ensure_user_rejects_blank_email id keep_last None true
              (Some (py " Chef@Asso.fr ")) (py "secret") (py "finance")
              None None sample_site) as (_ & _ & Hret).
  split; [apply Hraise|apply Hret]; reflexivity.
Defined.

(** X15.  When [ensure_user] returns, the user it returns is the first
    account with the normalised email (stripped, lower-cased); [created]
    tells that no account had that email; the account carries the legacy
    role of the requested role ([directrice] for [direction]), the
    sector when one is given, the password set on the credential it had
    (the blank one when created); and the first role with the requested
    code exists and is among the user's roles when user objects have a
    [roles] attribute. *)
Theorem ensure_user_postcondition {Cred} (ul : pystr → pystr)
    (setp : pystr → Cred → Cred) (nop : Cred) (hr : bool)
    (email : option pystr) (password role : pystr)
    (nom secteur : option pystr) (d d' : site Cred) (i : nat)
    (created : bool) :
  ensure_user ul setp nop hr email password role nom secteur d
  = Returns (d', (i, created)) →
  let e := lower ul (strip (default [] email)) in
  e ≠ []
  ∧ (created = true ↔ e ∉ a_email <$> s_accounts d)
  ∧ ∃ a, first_account (s_accounts d') e = Some (i, a)
         ∧ u_role (a_user a) = Some (legacy_for role)
         ∧ (∀ s, secteur = Some s → a_secteur a = Some s)
         ∧ a_cred a = setp password (from_option a_cred nop (s_accounts d !! i))
         ∧ (created = true →
            a_nom a = match nom with
                      | None | Some [] => py "Utilisateur"
                      | Some n => n
                      end)
         ∧ ∃ j r, first_role (s_roles d') role = Some (j, r)
                  ∧ r_code r = role
                  ∧ (∀ mine, u_roles (a_user a) = Some mine → j ∈ mine)
                  ∧ (hr = false → created = true → u_roles (a_user a) = None).
Proof.
  intros Hres e.
  pose proof (ensure_user_returns_nonblank _ _ _ _ _ _ _ _ _ _ _ Hres) as He.
  destruct (ensure_user_account _ _ _ _ _ _ _ _ _ _ _ _ _ Hres)
    as (a0 & j & r & Ha & Hr & _ & _ & Hcase & _).
  fold e in Ha, Hcase. split; [exact He|].
  destruct (attach_role_columns j (prepare_account setp password role secteur a0))
    as (Hnom & Hsec & Hcred & Hrole).
  split.
  { rewrite <- first_account_None.
    destruct (first_account (s_accounts d) e) as [[i0 a]|].
    - by destruct Hcase as (-> & _).
    - by destruct Hcase as (-> & _). }
  eexists. split; [exact Ha|]. split; [by rewrite Hrole|].
  split. { intros s ->. by rewrite Hsec. }
  split.
  { rewrite Hcred. cbn [a_cred prepare_account]. f_equal.
    destruct (first_account (s_accounts d) e) as [[i0 a]|] eqn:Ea.
    - destruct Hcase as (_ & -> & -> & _).
      apply first_account_Some in Ea as (Hlook & _). by rewrite Hlook.
    - destruct Hcase as (_ & -> & -> & _).
      by rewrite lookup_ge_None_2. }
  split.
  { intros ->. rewrite Hnom.
    destruct (first_account (s_accounts d) e) as [[i0 a]|].
    - by destruct Hcase as (? & _).
    - by destruct Hcase as (_ & _ & -> & _). }
  exists j, r. split; [exact Hr|]. split.
  { by apply first_role_Some in Hr as (_ & ? & _). }
  split; [apply attach_role_holds|].
  intros -> ->. rewrite attach_role_roles.
  destruct (first_account (s_accounts d) e) as [[i0 a]|].
  - by destruct Hcase as (? & _).
  - by destruct Hcase as (_ & _ & -> & _).
Qed.

Lemma ensure_user_postcondition_witness :
  ∃ a, first_account (s_accounts repaired_site) (py "chef@asso.fr")
       = Some (0%nat, a)
       ∧ u_role (a_user a) = Some (py "finance")
       ∧ a_cred a = Some (py "secret")
       ∧ ∃ j r, first_role (s_roles repaired_site) (py "finance")
                = Some (j, r)
                ∧ ∀ mine, u_roles (a_user a) = Some mine → j ∈ mine.
Proof.
  destruct (ensure_user_postcondition id keep_last None true
              (Some (py " Chef@Asso.fr ")) (py "secret") (py "finance")
              (Some (py "Autre")) None sample_site repaired_site 0%nat false)
    as (_ & _ & a & Ha & Hrole & _ & Hcred & _ & j & r & Hr & _ & Hj & _).
  { vm_compute. reflexivity. }
  exists a. split; [exact Ha|]. split; [exact Hrole|].
  split; [exact Hcred|]. exists j, r. by split.
Defined.

(** X16.  [ensure_user] touches nothing but the user it returns and, at
    most, one new role: the permissions are not changed; the roles are
    not changed when one carries the requested code, otherwise a role
    with that code, labelled with it and without permissions, is
    appended; every other account is left as it was; an account that
    existed keeps its email, its name (the [nom] argument is not used
    for it), its sector when none is given, and the roles it held, in
    front. *)
Theorem ensure_user_frame {Cred} (ul : pystr → pystr)
    (setp : pystr → Cred → Cred) (nop : Cred) (hr : bool)
    (email : option pystr) (password role : pystr)
    (nom secteur : option pystr) (d d' : site Cred) (i : nat)
    (created : bool) :
  ensure_user ul setp nop hr email password role nom secteur d
  = Returns (d', (i, created)) →
  s_permissions d' = s_permissions d
  ∧ s_roles d' = (if bool_decide (role ∈ r_code <$> s_roles d) then s_roles d
                  else s_roles d ++ [bare_role role])
  ∧ length (s_accounts d')
    = (length (s_accounts d) + if created then 1 else 0)%nat
  ∧ (∀ k, k ≠ i → s_accounts d' !! k = s_accounts d !! k)
  ∧ (∀ a0, s_accounts d !! i = Some a0 →
       ∃ a, s_accounts d' !! i = Some a
            ∧ a_email a = a_email a0 ∧ a_nom a = a_nom a0
            ∧ (secteur = None → a_secteur a = a_secteur a0)
            ∧ match u_roles (a_user a0) with
              | Some mine => ∃ added, u_roles (a_user a) = Some (mine ++ added)
              | None => u_roles (a_user a) = None
              end).
Proof.
  intros Hres.
  destruct (ensure_user_account _ _ _ _ _ _ _ _ _ _ _ _ _ Hres)
    as (a0 & j & r & Ha & Hr & Hperms & Hother & Hcase & Hroles).
  split; [exact Hperms|]. split.
  { destruct (first_role (s_roles d) role) as [[j0 r0]|] eqn:Er.
    - rewrite bool_decide_eq_true_2; [done|].
      destruct (decide (role ∈ r_code <$> s_roles d)) as [|Hno]; [done|].
      apply first_role_None in Hno. congruence.
    - rewrite bool_decide_eq_false_2; [done|]. by apply first_role_None. }
  split.
  { destruct (first_account (s_accounts d) _) as [[i0 a]|].
    - destruct Hcase as (-> & _ & _ & ->). lia.
    - destruct Hcase as (-> & _ & _ & ->). lia. }
  split; [exact Hother|].
  intros a1 Ha1. eexists. apply first_account_Some in Ha as (Hlook & _).
  split; [exact Hlook|].
  destruct (first_account (s_accounts d) _) as [[i0 a]|] eqn:Ea.
  - destruct Hcase as (_ & -> & -> & _).
    apply first_account_Some in Ea as (Hlook0 & _).
    rewrite Ha1 in Hlook0. injection Hlook0 as ->.
    destruct (attach_role_columns j (prepare_account setp password role secteur a))
      as (Hnom & Hsec & _ & _).
    rewrite attach_role_email, Hnom, Hsec, attach_role_roles.
    split; [done|]. split; [done|]. split; [by intros ->|].
    cbn [prepare_account a_user u_roles].
    destruct (u_roles (a_user a)) as [mine|];
      cbn [fmap option_fmap option_map]; [|done].
    case_bool_decide; [exists []; by rewrite app_nil_r|by exists [j]].
  - destruct Hcase as (_ & -> & _). apply lookup_lt_Some in Ha1. lia.
Qed.

Lemma ensure_user_frame_witness :
  s_permissions repaired_site = s_permissions sample_site
  ∧ s_roles repaired_site = s_roles sample_site ++ [bare_role (py "finance")]
  ∧ ∃ a, s_accounts repaired_site !! 0%nat = Some a ∧ a_nom a = py "Chef".
Proof.
  destruct (ensure_user_frame id keep_last None true
              (Some (py " Chef@Asso.fr ")) (py "secret") (py "finance")
              (Some (py "Autre")) None sample_site repaired_site 0%nat false)
    as (Hperms & Hroles & _ & _ & Hsame).
  { vm_compute. reflexivity. }
  split; [exact Hperms|]. split; [exact Hroles|].
  destruct (Hsame _ eq_refl) as (a & Ha & _ & Hnom & _).
  exists a. by split.
Defined.

(** X17.  A second call of [ensure_user] with the same arguments finds
    the user of the first call ([created] is [False], same position),
    adds no account and no role and attaches nothing: it only sets the
    password again. *)
Theorem ensure_user_second_call {Cred} (ul : pystr → pystr)
    (setp : pystr → Cred → Cred) (nop : Cred) (hr : bool)
    (email : option pystr) (password role : pystr)
    (nom secteur : option pystr) (d d' : site Cred) (i : nat)
    (created : bool) :
  ensure_user ul setp nop hr email password role nom secteur d
  = Returns (d', (i, created)) →
  ensure_user ul setp nop hr email password role nom secteur d'
  = Returns ({| s_permissions := s_permissions d';
                s_roles := s_roles d';
                s_accounts := alter (set_again setp password) i
                                    (s_accounts d') |},
             (i, false)).
Proof.
  intros Hres.
  pose proof (ensure_user_returns_nonblank _ _ _ _ _ _ _ _ _ _ _ Hres) as He.
  destruct (ensure_user_account _ _ _ _ _ _ _ _ _ _ _ _ _ Hres)
    as (a0 & j & r & Ha & Hr & _).
  destruct (ensure_user_result ul setp nop hr email password role nom secteur
              d' He)
    as (i2 & c2 & acs & a2 & j2 & r2 & rs & Heq & _ & Hcase & Hr2 & Hrs).
  rewrite Ha in Hcase. destruct Hcase as (-> & -> & -> & ->).
  rewrite Hr in Hrs. subst rs. rewrite Hr in Hr2. injection Hr2 as <- <-.
  rewrite Heq. do 2 f_equal. f_equal. rewrite list_alter_alter_eq.
  apply list_alter_ext; [|done].
  apply first_account_Some in Ha as (Hlook & _).
  intros a Hlook'. rewrite Hlook in Hlook'. injection Hlook' as <-.
  destruct (attach_role_columns j (prepare_account setp password role secteur a0))
    as (_ & Hsec & _ & Hrole).
  apply settled_account.
  - by rewrite Hrole.
  - intros s ->. by rewrite Hsec.
  - apply attach_role_holds.
Qed.

Lemma ensure_user_second_call_witness :
  repair_chef repaired_site
  = Returns ({| s_permissions := s_permissions repaired_site;
                s_roles := s_roles repaired_site;
                s_accounts := alter (set_again keep_last (py "secret")) 0%nat
                                    (s_accounts repaired_site) |},
             (0%nat, false))
  ∧ alter (set_again keep_last (py "secret")) 0%nat (s_accounts repaired_site)
    = s_accounts repaired_site.
Proof.
  split; [|reflexivity].
  apply (ensure_user_second_call id keep_last None true
           (Some (py " Chef@Asso.fr ")) (py "secret") (py "finance")
           (Some (py "Autre")) None sample_site repaired_site 0%nat false).
  vm_compute. reflexivity.
Defined.

Section LegacyRoundTrip.

Lemma choices_map_back :
  Forall (λ role, legacy_target (Some (legacy_for role)) = role) role_choices.
Proof. holds_by_evaluation. Qed.

Lemma choices_are_templates role :
  role ∈ role_choices ↔ role ∈ ROLE_TEMPLATES.*1.
Proof.
  rewrite template_codes. unfold role_choices.
  rewrite !elem_of_cons, !elem_of_nil. tauto.
Qed.

Lemma legacy_target_cons c r :
  legacy_target (Some (c :: r)) = legacy_role_of (strip (c :: r)).
Proof. by rewrite legacy_target_spec. Qed.

End LegacyRoundTrip.

(** X18.  The legacy role [ensure_user] writes is mapped back to the
    requested role by the legacy map of [bootstrap_rbac] exactly when
    the requested code is not empty, has no surrounding whitespace and
    is none of [directrice], [financiere], [financière]; so it is for
    the four roles the script accepts.  For any other code a later
    [bootstrap_rbac] looks for another role than the one [ensure_user]
    attached. *)
Theorem legacy_role_maps_back (role : pystr) :
  (legacy_target (Some (legacy_for role)) = role
   ↔ strip role = role ∧ role ≠ []
     ∧ role ∉ [ py "directrice"; py "financiere"; py "financière" ])
  ∧ (role ∈ role_choices → legacy_target (Some (legacy_for role)) = role).
Proof.
  split.
  2: { intros Hin. pose proof choices_map_back as Hall.
       rewrite Forall_forall in Hall. by apply Hall. }
  unfold legacy_for. case_bool_decide as Hdir.
  { subst role. split; [intros _|intros _; reflexivity].
    split; [reflexivity|]. split; [done|]. fails_by_evaluation. }
  destruct role as [|c r].
  { split; [by intros ?|by intros (_ & ? & _)]. }
  rewrite legacy_target_cons. unfold legacy_role_of.
  set (role := c :: r) in *.
  case_bool_decide as H1.
  { split; [by intros ?|]. intros (Hs & _ & Hno). rewrite Hs in H1.
    apply elem_of_cons in H1 as [->|H1]; [exfalso; apply Hno; left|].
    by apply list_elem_of_singleton in H1. }
  case_bool_decide as H2.
  { split.
    - intros <-. split; [reflexivity|]. split; [done|]. fails_by_evaluation.
    - intros (Hs & _ & Hno). rewrite Hs in H2.
      apply elem_of_cons in H2 as [->|H2];
        [exfalso; apply Hno; right; left|].
      apply elem_of_cons in H2 as [->|H2];
        [exfalso; apply Hno; right; right; left|].
      by apply list_elem_of_singleton in H2. }
  split.
  - intros Hs. split; [done|]. split; [done|]. intros Hin.
    rewrite Hs in H1, H2.
    apply elem_of_cons in Hin as [->|Hin]; [apply H1; left|].
    apply elem_of_cons in Hin as [->|Hin]; [apply H2; left|].
    apply list_elem_of_singleton in Hin as ->. apply H2. right. left.
  - by intros (? & _).
Qed.

Lemma legacy_role_maps_back_witness :
  legacy_target (Some (legacy_for (py "direction"))) = py "direction"
  ∧ legacy_target (Some (legacy_for (py "directrice"))) ≠ py "directrice".
Proof.
  split.
  - apply (legacy_role_maps_back (py "direction")). left.
  - intros Hback.
    apply (proj1 (proj1 (legacy_role_maps_back (py "directrice")))) in Hback.
    destruct Hback as (_ & _ & Hno). apply Hno. left.
Defined.

Section ScriptRun.
Variable uc : pystr → pystr.
Context {Cred : Type}.
Implicit Types (d : site Cred).

Lemma fmap_zip_with_user (accounts : list (Account Cred)) (us : list User) :
  length us = length accounts →
  a_user <$> zip_with with_user accounts us = us.
Proof.
  revert us. induction accounts as [|a accounts IH]; intros [|u us] Hlen;
    try done. cbn in *. f_equal. apply IH. lia.
Qed.

Lemma site_db_bootstrap_site b d :
  site_db (bootstrap_site uc b d) = bootstrap_rbac uc b (site_db d).
Proof.
  apply database_eq; [reflexivity|reflexivity|].
  unfold site_db at 1, bootstrap_site. cbn [users s_accounts].
  apply fmap_zip_with_user. destruct b.
  - rewrite bootstrap_users, length_fmap.
    unfold site_db. cbn [users]. apply length_fmap.
  - rewrite bootstrap_skipped. unfold site_db. cbn [users].
    apply length_fmap.
Qed.

Lemma zip_with_user_id (accounts : list (Account Cred)) :
  zip_with with_user accounts (a_user <$> accounts) = accounts.
Proof.
  induction accounts as [|a accounts IH]; [done|].
  cbn. rewrite IH. by destruct a.
Qed.

(** A bootstrap that gives up on [db.create_all()] changes nothing. *)
Lemma bootstrap_site_skipped d : bootstrap_site uc false d = d.
Proof.
  unfold bootstrap_site. rewrite bootstrap_skipped. destruct d as [ps rs acs].
  unfold site_db. cbn [permissions roles users s_permissions s_roles
                       s_accounts].
  by rewrite zip_with_user_id.
Qed.

(** Two bootstraps in a row, one of which at least got past its
    [db.create_all()], leave tables a further bootstrap does not
    change. *)
Lemma bootstrapped_once b1 b2 d :
  b1 || b2 = true →
  bootstrap_rbac uc true
    (site_db (bootstrap_site uc b2 (bootstrap_site uc b1 d)))
  = site_db (bootstrap_site uc b2 (bootstrap_site uc b1 d)).
Proof.
  intros Hb. rewrite !site_db_bootstrap_site.
  destruct b1, b2; try done; rewrite ?bootstrap_skipped;
    by rewrite ?bootstrap_twice.
Qed.

(** On tables a bootstrap has left, a user whose legacy role is mapped
    to a role it holds is left alone. *)
Lemma sync_user_settled rs u j r :
  first_role rs (legacy_target (u_role u)) = Some (j, r) →
  (∀ mine, u_roles u = Some mine → j ∈ mine) →
  sync_user rs u = u.
Proof.
  intros Hr Hj. unfold sync_user.
  destruct (u_roles u) as [mine|]; [|done]. rewrite Hr.
  by rewrite bool_decide_eq_true_2 by (by apply Hj).
Qed.

Lemma bootstrapped_tables (db db2 : database) :
  bootstrap_rbac uc true db = db →
  permissions db2 = permissions db → roles db2 = roles db →
  (∀ u, u ∈ users db2 → sync_user (roles db) u = u) →
  bootstrap_rbac uc true db2 = db2.
Proof.
  intros Hfix Hp Hr Hu.
  assert (permissions (bootstrap_rbac uc true db2) = permissions db2) as Hp2.
  { rewrite bootstrap_permissions, Hp, <- bootstrap_permissions.
    by rewrite Hfix. }
  assert (roles (bootstrap_rbac uc true db2) = roles db2) as Hr2.
  { rewrite bootstrap_roles, Hp2, Hp, Hr.
    rewrite <- Hfix at 3. rewrite bootstrap_roles. by rewrite Hfix. }
  apply database_eq; [exact Hp2|exact Hr2|].
  rewrite bootstrap_users, Hr2, Hr.
  rewrite <- (list_fmap_id (users db2)) at 2.
  apply list_fmap_ext. intros k u Hk. apply Hu.
  by eapply list_elem_of_lookup_2.
Qed.

End ScriptRun.

(** X19.  [main] stops on a role that is not one of the four choices.
    When it returns and at least one of the two [bootstrap_rbac] on its
    way (the one of [create_app], the one of [main]) got past its
    [db.create_all()], the tables it leaves are stable under
    [bootstrap_rbac]: the next start of the application changes no
    permission, no role and no user, the user the script made or
    repaired included.  When both gave up, [main] is [ensure_user] on
    the tables as they were. *)
Theorem main_leaves_bootstrapped_tables {Cred} (uc ul : pystr → pystr)
    (setp : pystr → Cred → Cred) (nop : Cred) (hr : bool)
    (env : script_env)
    (email : option pystr) (password role : pystr)
    (nom secteur : option pystr) (d d' : site Cred) (res : nat * bool) :
  (role ∉ role_choices →
   main uc ul setp nop hr env email password role nom secteur d
   = Raises SystemExit)
  ∧ (main uc ul setp nop hr env email password role nom secteur d
     = Returns (d', res) →
     role ∈ role_choices
     ∧ (app_rbac_create_all env || main_rbac_create_all env = true →
        bootstrap_rbac uc true (site_db d') = site_db d')
     ∧ (app_rbac_create_all env || main_rbac_create_all env = false →
        ensure_user ul setp nop hr email password role nom secteur d
        = Returns (d', res))).
Proof.
  unfold main. split.
  { intros Hno. by rewrite bool_decide_eq_true_2. }
  case_bool_decide as Hrole; [done|].
  destruct (app_create_all env); [|done].
  destruct (app_ensure_schema env); [|done]. cbn [negb].
  destruct (main_create_all env); [|done]. cbn [negb].
  intros Hres. split; [exact Hrole|]. split.
  2: { intros [H1 H2]%orb_false_iff. rewrite H1, H2 in Hres.
       cbv zeta in Hres. by rewrite !bootstrap_site_skipped in Hres. }
  intros Hb. destruct res as [i created].
  pose proof (bootstrapped_once uc _ _ d Hb) as Hfix.
  set (d1 := bootstrap_site uc (main_rbac_create_all env)
               (bootstrap_site uc (app_rbac_create_all env) d)) in *.
  clearbody d1.
  assert (∃ j r, first_role (s_roles d1) role = Some (j, r)) as (j1 & r1 & Hr1).
  { apply choices_are_templates, list_elem_of_fmap in Hrole
      as ([c perms] & -> & Hin).
    change (s_roles d1) with (roles (site_db d1)). rewrite <- Hfix.
    rewrite bootstrap_roles.
    destruct (foldl_role_step_first
                (by_code (permissions (bootstrap_rbac uc true (site_db d1))))
                ROLE_TEMPLATES (roles (site_db d1)) c perms
                ROLE_TEMPLATES_codes_NoDup Hin) as (j & r & Hf & _).
    by exists j, r. }
  destruct (ensure_user_account _ _ _ _ _ _ _ _ _ _ _ _ _ Hres)
    as (a0 & j & r & Ha & Hr & Hperms & Hother & _ & Hroles).
  rewrite Hr1 in Hroles.
  apply (bootstrapped_tables uc (site_db d1)); [exact Hfix|exact Hperms| |].
  { exact Hroles. }
  intros u (a & -> & Hin)%list_elem_of_fmap.
  apply list_elem_of_lookup in Hin as [k Hk].
  destruct (decide (k = i)) as [->|Hne].
  - apply first_account_Some in Ha as (Hlook & _).
    rewrite Hlook in Hk. injection Hk as <-.
    destruct (attach_role_columns j (prepare_account setp password role secteur a0))
      as (_ & _ & _ & Hlegacy).
    apply (sync_user_settled _ _ j r).
    + rewrite Hlegacy. cbn [prepare_account a_user u_role].
      pose proof choices_map_back as Hall. rewrite Forall_forall in Hall.
      rewrite (Hall _ Hrole). change (roles (site_db d1)) with (s_roles d1).
      by rewrite <- Hroles.
    + apply attach_role_holds.
  - rewrite Hother in Hk by done.
    assert (a_user a ∈ users (site_db d1)) as Hu.
    { apply list_elem_of_fmap. exists a. split; [done|].
      by eapply list_elem_of_lookup_2. }
    pose proof (f_equal users Hfix) as Hus. rewrite bootstrap_users in Hus.
    rewrite Hfix in Hus.
    apply list_elem_of_lookup in Hu as [n Hn].
    pose proof (f_equal (.!! n) Hus) as Hn'. cbn beta in Hn'.
    rewrite list_lookup_fmap, Hn in Hn'.
    cbn [fmap option_fmap option_map] in Hn'. injection Hn' as Hn'.
    exact Hn'.
Qed.

Lemma main_leaves_bootstrapped_tables_witness :
  bootstrap_rbac id true (site_db (script_site all_well))
  = site_db (script_site all_well)
  ∧ script_run all_well (py "directrice") sample_site = Raises SystemExit
  ∧ script_run bootstraps_skipped (py "finance") sample_site
    = Returns (script_site bootstraps_skipped, (1%nat, true))
  ∧ bootstrap_rbac id true (site_db (script_site bootstraps_skipped))
    ≠ site_db (script_site bootstraps_skipped).
Proof.
  split; [|split; [|split]].
  - destruct (main_leaves_bootstrapped_tables id id keep_last None true
                all_well (Some (py "compta@asso.fr")) (py "secret")
                (py "finance") (Some (py "Compta")) None sample_site
                (script_site all_well) (1%nat, true)) as (_ & Hret).
    destruct Hret as (_ & Hfix & _); [vm_compute; reflexivity|].
    apply Hfix. reflexivity.
  - apply (main_leaves_bootstrapped_tables id id keep_last None true
             all_well (Some (py "compta@asso.fr")) (py "secret")
             (py "directrice") (Some (py "Compta")) None sample_site
             sample_site (0%nat, true)).
    fails_by_evaluation.
  - vm_compute. reflexivity.
  - fails_by_evaluation.
Defined.

Section AfterEnsureUser.

Lemma sync_user_role rs u : u_role (sync_user rs u) = u_role u.
Proof.
  unfold sync_user. destruct (u_roles u); [|done].
  destruct (first_role _ _) as [[j r]|]; [|done]. by case_bool_decide.
Qed.

Lemma sync_user_keeps rs u mine' j :
  u_roles (sync_user rs u) = Some mine' →
  (∀ mine, u_roles u = Some mine → j ∈ mine) → j ∈ mine'.
Proof.
  unfold sync_user. destruct (u_roles u) as [mine|] eqn:E; [|by rewrite E].
  intros Hres Hj. specialize (Hj mine eq_refl).
  destruct (first_role _ _) as [[k r]|]; [|rewrite E in Hres; congruence].
  case_bool_decide; [rewrite E in Hres; congruence|].
  cbn [u_roles] in Hres. injection Hres as <-. apply elem_of_app. by left.
Qed.

End AfterEnsureUser.

(** X20.  When [ensure_user] is given the code of a template role, the
    next [bootstrap_rbac] completes its work, whether or not the role
    existed: the role [ensure_user] attached, at the position it had, is
    given exactly the permission codes of its template, and the user
    still holds it, with the legacy role [ensure_user] wrote. *)
Theorem bootstrap_completes_ensured_role {Cred} (uc ul : pystr → pystr)
    (setp : pystr → Cred → Cred) (nop : Cred) (hr : bool)
    (email : option pystr) (password role : pystr)
    (nom secteur : option pystr) (d d' : site Cred) (i : nat)
    (created : bool) (perms : list pystr) :
  ensure_user ul setp nop hr email password role nom secteur d
  = Returns (d', (i, created)) →
  (role, perms) ∈ ROLE_TEMPLATES →
  let db := bootstrap_rbac uc true (site_db d') in
  ∃ j r r' u,
    first_role (s_roles d') role = Some (j, r)
    ∧ first_role (roles db) role = Some (j, r')
    ∧ (∀ c, c ∈ role_codes (permissions db) r' ↔ c ∈ perms)
    ∧ users db !! i = Some u
    ∧ u_role u = Some (legacy_for role)
    ∧ (∀ mine, u_roles u = Some mine → j ∈ mine).
Proof.
  intros Hres Hin db.
  destruct (ensure_user_account _ _ _ _ _ _ _ _ _ _ _ _ _ Hres)
    as (a0 & j & r & Ha & Hr & _).
  destruct (foldl_role_step_first (by_code (permissions db)) ROLE_TEMPLATES
              (roles (site_db d')) role perms ROLE_TEMPLATES_codes_NoDup Hin)
    as (j' & r' & Hf & _ & Hp & Hsame).
  change (roles (site_db d')) with (s_roles d') in Hsame.
  rewrite Hr in Hsame. destruct Hsame as [-> _].
  apply first_account_Some in Ha as (Hlook & _).
  destruct (attach_role_columns j (prepare_account setp password role secteur a0))
    as (_ & _ & _ & Hlegacy).
  exists j, r, r', (sync_user (roles db) (a_user
    (attach_role j (prepare_account setp password role secteur a0)))).
  split; [exact Hr|]. split.
  { unfold db at 1. rewrite bootstrap_roles. exact Hf. }
  split.
  { intros c. rewrite (role_codes_granted _ perms r' c Hp). split.
    - by intros [? _].
    - intros Hc. split; [done|].
      by apply (template_perm_present uc (site_db d') role perms). }
  split.
  { unfold db at 1. rewrite bootstrap_users, list_lookup_fmap.
    change (users (site_db d')) with (a_user <$> s_accounts d').
    by rewrite list_lookup_fmap, Hlook. }
  split.
  { by rewrite sync_user_role, Hlegacy. }
  intros mine Hmine. apply (sync_user_keeps _ _ _ _ Hmine).
  apply attach_role_holds.
Qed.

Lemma bootstrap_completes_ensured_role_witness :
  first_role (s_roles sample_site) (py "finance") = None
  ∧ ∃ j r r' u,
      first_role (s_roles repaired_site) (py "finance") = Some (j, r)
      ∧ r_permissions r = []
      ∧ first_role (roles (bootstrap_rbac id true (site_db repaired_site)))
          (py "finance") = Some (j, r')
      ∧ py "ateliers:sync"
          ∈ role_codes
              (permissions (bootstrap_rbac id true (site_db repaired_site))) r'
      ∧ users (bootstrap_rbac id true (site_db repaired_site)) !! 0%nat
        = Some u
      ∧ ∀ mine, u_roles u = Some mine → j ∈ mine.
Proof.
  split; [reflexivity|].
  destruct (bootstrap_completes_ensured_role id id keep_last None true
              (Some (py " Chef@Asso.fr ")) (py "secret") (py "finance")
              (Some (py "Autre")) None sample_site repaired_site 0%nat false
              (from_option snd [] (ROLE_TEMPLATES !! 2%nat)))
    as (j & r & r' & u & Hr & Hr' & Hcodes & Hu & _ & Hj).
  { vm_compute. reflexivity. }
  { holds_by_evaluation. }
  exists j, r, r', u. split; [exact Hr|]. split.
  { revert Hr. vm_compute. by intros [= <- <-]. }
  split; [exact Hr'|]. split.
  { apply Hcodes. holds_by_evaluation. }
  by split.
Defined.

(* ===================================================================== *)
(** * Further properties: [ensure_schema] *)
(* ===================================================================== *)

Section OnlyLogic.
Context {W : Type}.
Variable Q : event → Prop.

Lemma only_ret {A} (a : A) : only Q (mret a : M W A).
Proof. intros st. exists []. by rewrite ret_run, app_nil_r. Qed.

Lemma only_bind {A B} (m : M W A) (k : A → M W B) :
  only Q m → (∀ a, only Q (k a)) → only Q (m ≫= k).
Proof.
  intros Hm Hk st. destruct (Hm st) as (t1 & Ht1 & H1).
  rewrite bind_run. destruct (m st) as [[a|] st1]; cbn [fst snd] in *.
  - destruct (Hk a st1) as (t2 & Ht2 & H2). exists (t1 ++ t2).
    split; [by rewrite Ht2, Ht1, app_assoc|]. by apply Forall_app.
  - by exists t1.
Qed.

Lemma only_try {A} (body handler : M W A) :
  only Q body → only Q handler → only Q (try_except body handler).
Proof.
  intros Hb Hh st. destruct (Hb st) as (t1 & Ht1 & H1).
  unfold try_except. destruct (body st) as [[a|] st1]; cbn [fst snd] in *.
  - by exists t1.
  - destruct (Hh st1) as (t2 & Ht2 & H2). exists (t1 ++ t2).
    split; [by rewrite Ht2, Ht1, app_assoc|]. by apply Forall_app.
Qed.

End OnlyLogic.

Section AllowedStatements.
Context {W : Type}.
Variable insp_has_table : pystr → W → option bool * W.
Variable insp_get_columns : pystr → W → option (list pystr) * W.
Variable session_execute : pystr → W → bool * W.
Variable session_commit : W → bool * W.
Variable session_rollback : W → bool * W.
Variable dialect : pystr.

Local Abbreviation allowed_call := (allowed_call dialect).

Lemma allowed_other e :
  (∀ sql ok, e ≠ EvExecute sql ok) → allowed_call e.
Proof. intros He sql ok ->. by destruct (He sql ok). Qed.

Lemma only_has_table name :
  only allowed_call (has_table insp_has_table name).
Proof.
  intros st. rewrite has_table_run. cbn [snd trace]. eexists.
  split; [reflexivity|]. apply Forall_singleton, allowed_other. by intros.
Qed.

Lemma only_column_names table :
  only allowed_call (column_names insp_get_columns table).
Proof.
  intros st. rewrite column_names_run. cbn [snd trace]. eexists.
  split; [reflexivity|]. apply Forall_singleton, allowed_other. by intros.
Qed.

Lemma only_get_cols table :
  only allowed_call (get_cols insp_has_table insp_get_columns table).
Proof.
  apply only_bind; [apply only_has_table|]. intros present.
  destruct (negb present); [apply only_ret|apply only_column_names].
Qed.

Lemma only_exec_sql sql :
  allowed_statement dialect sql →
  only allowed_call (exec_sql session_execute sql).
Proof.
  intros Hsql st. rewrite exec_sql_run. cbn [snd trace]. eexists.
  split; [reflexivity|]. apply Forall_singleton. by intros ? ? [= <- _].
Qed.

Lemma only_commit : only allowed_call (commit session_commit).
Proof.
  intros st. rewrite commit_run. cbn [snd trace]. eexists.
  split; [reflexivity|]. apply Forall_singleton, allowed_other. by intros.
Qed.

Lemma only_rollback : only allowed_call (rollback session_rollback).
Proof.
  intros st. rewrite rollback_run. cbn [snd trace]. eexists.
  split; [reflexivity|]. apply Forall_singleton, allowed_other. by intros.
Qed.

Lemma only_add_col table col sql_sqlite sql_pg :
  (table, col) ∈ migrated_columns →
  alter_target sql_sqlite = Some (table, col) →
  if_not_exists sql_sqlite = false →
  alter_target sql_pg = Some (table, col) →
  if_not_exists sql_pg = true →
  only allowed_call
    (add_col insp_has_table insp_get_columns session_execute dialect
       table col sql_sqlite sql_pg).
Proof.
  intros Hin Hs1 Hs2 Hp1 Hp2. apply only_bind; [apply only_get_cols|].
  intros cols. case_bool_decide; [apply only_ret|].
  case_bool_decide as Hd; apply only_exec_sql; right; right;
    exists (table, col).
  - by rewrite bool_decide_eq_true_2.
  - by rewrite bool_decide_eq_false_2.
Qed.

Lemma only_create_index :
  only allowed_call
    (create_index session_execute dialect PRESENCE_INDEX_sql
       PRESENCE_INDEX_sql).
Proof.
  unfold create_index. case_bool_decide; apply only_exec_sql; by left.
Qed.

Ltac allowed_step :=
  first
    [ apply only_commit
    | apply only_rollback
    | apply only_ret
    | apply only_create_index
    | apply only_add_col;
        [holds_by_evaluation|vm_compute; reflexivity..]
    | apply only_try
    | apply only_bind; [|intros _] ].

Lemma only_ensure_schema :
  only allowed_call
    (ensure_schema insp_has_table insp_get_columns session_execute
       session_commit session_rollback dialect).
Proof.
  unfold ensure_schema, body_ligne_budget, body_session_activite,
    body_atelier_activite, body_participant, body_archive_emargement,
    body_presence_index, body_depense.
  repeat allowed_step.
  case_bool_decide as Hpg; [|apply only_ret].
  apply only_try; [|apply only_ret].
  apply only_exec_sql. right. left. by split.
Qed.

End AllowedStatements.

(** X21.  Whatever the database answers, a run of [ensure_schema] sends
    no other statement than the creation of the presence index, the
    addition of one of the nineteen migrated columns to its table, and,
    when the dialect is [postgresql] only, the relaxation of
    [depense.ligne_budget_id].  A column addition is written with
    [IF NOT EXISTS] exactly when the dialect is not [sqlite]. *)
Theorem ensure_schema_statements_allowed {W : Type}
    (insp_has_table : pystr → W → option bool * W)
    (insp_get_columns : pystr → W → option (list pystr) * W)
    (session_execute : pystr → W → bool * W)
    (session_commit : W → bool * W)
    (session_rollback : W → bool * W)
    (dialect : pystr) (st : state W) :
  let run := ensure_schema insp_has_table insp_get_columns session_execute
               session_commit session_rollback dialect st in
  ∃ t, trace run.2 = trace st ++ t
       ∧ ∀ sql ok, EvExecute sql ok ∈ t →
           sql = PRESENCE_INDEX_sql
           ∨ (dialect = py "postgresql" ∧ sql = DROP_NOT_NULL_sql)
           ∨ (∃ table col,
                (table, col) ∈ migrated_columns
                ∧ alter_target sql = Some (table, col)
                ∧ if_not_exists sql
                  = negb (bool_decide (dialect = py "sqlite"))).
Proof.
  intros run.
  destruct (only_ensure_schema insp_has_table insp_get_columns
              session_execute session_commit session_rollback dialect st)
    as (t & Ht & Hall).
  exists t. split; [exact Ht|]. intros sql ok Hin.
  rewrite Forall_forall in Hall.
  destruct (Hall _ Hin sql ok eq_refl) as [?|[?|([table col] & ? & ? & ?)]];
    [by left|by right; left|].
  right. right. by exists table, col.
Qed.

Section SettlesLogic.
Context {W : Type}.
Variable Inv : W → Prop.

Lemma executed_app t1 t2 : executed (t1 ++ t2) = executed t1 ++ executed t2.
Proof. apply omap_app. Qed.

Lemma settles_ret {A} (a : A) : settles Inv [] true (mret a : M W A).
Proof.
  intros st Hst. rewrite ret_run. cbn [fst snd]. split; [done|].
  split; [by eexists|]. exists []. by rewrite app_nil_r.
Qed.

Lemma settles_bind {A B} (m : M W A) (k : A → M W B) l1 l2 b1 b2 :
  settles Inv l1 b1 m → (∀ a, settles Inv l2 b2 (k a)) →
  b1 = true ∨ l2 = [] →
  settles Inv (l1 ++ l2) (b1 && b2) (m ≫= k).
Proof.
  intros Hm Hk Hside st Hst.
  destruct (Hm st Hst) as (Hi1 & Hr1 & t1 & Ht1 & He1).
  rewrite bind_run. destruct (m st) as [[a|] st1]; cbn [fst snd] in *.
  - destruct (Hk a st1 Hi1) as (Hi2 & Hr2 & t2 & Ht2 & He2).
    split; [done|]. split.
    { intros [_ ->]%andb_true_iff. by apply Hr2. }
    exists (t1 ++ t2). split; [by rewrite Ht2, Ht1, app_assoc|].
    by rewrite executed_app, He1, He2.
  - split; [done|]. split.
    { intros [-> _]%andb_true_iff. by destruct (Hr1 eq_refl). }
    exists t1. split; [done|]. destruct Hside as [->| ->].
    + by destruct (Hr1 eq_refl).
    + by rewrite app_nil_r.
Qed.

Lemma settles_try {A} (body handler : M W A) l b b' :
  settles Inv l b body → settles Inv [] b' handler →
  settles Inv l b' (try_except body handler).
Proof.
  intros Hb Hh st Hst.
  destruct (Hb st Hst) as (Hi1 & Hr1 & t1 & Ht1 & He1).
  unfold try_except. destruct (body st) as [[a|] st1]; cbn [fst snd] in *.
  - split; [done|]. split; [by eexists|]. by exists t1.
  - destruct (Hh st1 Hi1) as (Hi2 & Hr2 & t2 & Ht2 & He2).
    split; [done|]. split; [done|].
    exists (t1 ++ t2). split; [by rewrite Ht2, Ht1, app_assoc|].
    by rewrite executed_app, He1, He2, app_nil_r.
Qed.

Lemma settles_upto_exact {A} (m : M W A) l b :
  settles Inv l b m → settles_upto Inv l m.
Proof.
  intros Hm st Hst. destruct (Hm st Hst) as (Hi & _ & t & Ht & He).
  split; [done|]. exists t. split; [done|]. by rewrite He.
Qed.

Lemma settles_upto_bind {A B} (m : M W A) (k : A → M W B) l1 l2 :
  settles_upto Inv l1 m → (∀ a, settles_upto Inv l2 (k a)) →
  settles_upto Inv (l1 ++ l2) (m ≫= k).
Proof.
  intros Hm Hk st Hst.
  destruct (Hm st Hst) as (Hi1 & t1 & Ht1 & Hp1 & He1).
  rewrite bind_run. destruct (m st) as [[a|] st1]; cbn [fst snd] in *.
  - destruct (Hk a st1 Hi1) as (Hi2 & t2 & Ht2 & Hp2 & He2).
    split; [done|]. exists (t1 ++ t2).
    split; [by rewrite Ht2, Ht1, app_assoc|].
    rewrite executed_app, (He1 (mk_is_Some _ _ eq_refl)). split.
    + by apply prefix_app.
    + intros Hsome. by rewrite He2.
  - split; [done|]. exists t1. split; [done|]. split.
    + by apply prefix_app_r.
    + by intros [? [=]].
Qed.

End SettlesLogic.

Section UpToDate.
Context {W : Type}.
Variable insp_has_table : pystr → W → option bool * W.
Variable insp_get_columns : pystr → W → option (list pystr) * W.
Variable session_execute : pystr → W → bool * W.
Variable session_commit : W → bool * W.
Variable session_rollback : W → bool * W.
Variable dialect : pystr.
Variable Inv : W → Prop.
Hypothesis Inv_has_table : ∀ t w, Inv w → Inv (insp_has_table t w).2.
Hypothesis Inv_get_columns : ∀ t w, Inv w → Inv (insp_get_columns t w).2.
Hypothesis Inv_execute : ∀ sql w, Inv w → Inv (session_execute sql w).2.
Hypothesis Inv_commit : ∀ w, Inv w → Inv (session_commit w).2.
Hypothesis Inv_rollback : ∀ w, Inv w → Inv (session_rollback w).2.
Hypothesis Inv_up_to_date :
  ∀ w, Inv w → up_to_date insp_has_table insp_get_columns w.

Local Abbreviation settles_ := (settles Inv).

Lemma settles_exec_sql sql :
  settles_ [sql] false (exec_sql session_execute sql).
Proof.
  intros st Hst. rewrite exec_sql_run. cbn [fst snd world trace].
  split; [by apply Inv_execute|]. split; [done|]. by eexists.
Qed.

Lemma settles_commit : settles_ [] false (commit session_commit).
Proof.
  intros st Hst. rewrite commit_run. cbn [fst snd world trace].
  split; [by apply Inv_commit|]. split; [done|]. by eexists.
Qed.

Lemma settles_rollback : settles_ [] false (rollback session_rollback).
Proof.
  intros st Hst. rewrite rollback_run. cbn [fst snd world trace].
  split; [by apply Inv_rollback|]. split; [done|]. by eexists.
Qed.

Lemma settles_add_col table col sql_sqlite sql_pg :
  (table, col) ∈ migrated_columns →
  settles_ [] true
    (add_col insp_has_table insp_get_columns session_execute dialect
       table col sql_sqlite sql_pg).
Proof.
  intros Hin st Hst.
  destruct (Inv_up_to_date _ Hst table col Hin)
    as (w1 & names & w2 & Hh & Hg & Hcol).
  unfold add_col, get_cols. rewrite !bind_run, has_table_run, Hh.
  cbn [fst snd default from_option id negb world].
  rewrite column_names_run. cbn [world trace]. rewrite Hg. cbn [fst snd].
  rewrite bool_decide_eq_true_2 by (by apply elem_of_list_to_set).
  rewrite ret_run. cbn [fst snd world trace].
  split.
  { pose proof (Inv_has_table table _ Hst) as H1. rewrite Hh in H1.
    cbn [snd] in H1.
    pose proof (Inv_get_columns table _ H1) as H2. by rewrite Hg in H2. }
  split; [by eexists|]. eexists. by rewrite <- app_assoc.
Qed.

Lemma settles_create_index sql :
  settles_ [sql] false (create_index session_execute dialect sql sql).
Proof. unfold create_index. case_bool_decide; apply settles_exec_sql. Qed.

Lemma settles_relax :
  settles_ (if bool_decide (dialect = py "postgresql")
            then [DROP_NOT_NULL_sql] else []) true
    (if bool_decide (dialect = py "postgresql")
     then try_except (exec_sql session_execute DROP_NOT_NULL_sql) (mret tt)
     else mret tt).
Proof.
  case_bool_decide; [|apply settles_ret].
  eapply settles_try; [apply settles_exec_sql|apply settles_ret].
Qed.

Ltac added_already :=
  change (@nil pystr) with (@nil pystr ++ []);
  change false with (true && false);
  apply settles_bind; [apply settles_add_col; holds_by_evaluation| |by left];
  intros _.

Ltac quiet_group :=
  apply (settles_upto_exact Inv _ [] false);
  eapply settles_try; [|apply settles_rollback];
  repeat added_already; apply settles_commit.

Lemma settles_ensure_schema :
  settles_upto Inv
    (PRESENCE_INDEX_sql
     :: if bool_decide (dialect = py "postgresql")
        then [DROP_NOT_NULL_sql] else [])
    (ensure_schema insp_has_table insp_get_columns session_execute
       session_commit session_rollback dialect).
Proof.
  unfold ensure_schema.
  do 5 (apply (settles_upto_bind Inv _ _ []);
          [unfold body_ligne_budget, body_session_activite,
             body_atelier_activite, body_participant,
             body_archive_emargement; quiet_group
          |intros _]).
  apply (settles_upto_bind Inv _ _ [PRESENCE_INDEX_sql]); [|intros _].
  { unfold body_presence_index.
    apply (settles_upto_exact Inv _ [PRESENCE_INDEX_sql] false).
    eapply settles_try; [|apply settles_rollback].
    apply (settles_bind Inv _ _ [PRESENCE_INDEX_sql] [] false false);
      [apply settles_create_index|intros _; apply settles_commit|by right]. }
  unfold body_depense.
  apply (settles_upto_exact Inv _ _ false).
  eapply settles_try; [|apply settles_rollback].
  do 3 (apply (settles_bind Inv _ _ [] _ true false);
          [apply settles_add_col; holds_by_evaluation|intros _|by left]).
  rewrite <- (app_nil_r (if bool_decide _ then _ else _)).
  apply (settles_bind Inv _ _ _ [] true false);
    [apply settles_relax|intros _; apply settles_commit|by left].
Qed.

End UpToDate.

(** X22.  On a database that already has every migrated column, and
    keeps them, a run of [ensure_schema] executes nothing but the
    creation of the presence index and then, when the dialect is
    [postgresql], the relaxation of [depense.ligne_budget_id].  It
    executes exactly these whenever it returns, whatever fails among
    the statements and the commits, and it returns as long as no
    rollback raises; when a rollback raises the run stops there, having
    executed the first of these statements only, or none. *)
Theorem up_to_date_run_executes_index_only {W : Type}
    (insp_has_table : pystr → W → option bool * W)
    (insp_get_columns : pystr → W → option (list pystr) * W)
    (session_execute : pystr → W → bool * W)
    (session_commit : W → bool * W)
    (session_rollback : W → bool * W)
    (dialect : pystr) (Inv : W → Prop) :
  (∀ t w, Inv w → Inv (insp_has_table t w).2) →
  (∀ t w, Inv w → Inv (insp_get_columns t w).2) →
  (∀ sql w, Inv w → Inv (session_execute sql w).2) →
  (∀ w, Inv w → Inv (session_commit w).2) →
  (∀ w, Inv w → Inv (session_rollback w).2) →
  (∀ w, Inv w → up_to_date insp_has_table insp_get_columns w) →
  ∀ st, Inv (world st) →
    let run := ensure_schema insp_has_table insp_get_columns session_execute
                 session_commit session_rollback dialect st in
    let wanted := PRESENCE_INDEX_sql
                  :: if bool_decide (dialect = py "postgresql")
                     then [DROP_NOT_NULL_sql] else [] in
    Inv (world run.2)
    ∧ (∃ t, trace run.2 = trace st ++ t
            ∧ executed t `prefix_of` wanted
            ∧ (run.1 = Some tt → executed t = wanted))
    ∧ ((∀ w, (session_rollback w).1 = true) → run.1 = Some tt).
Proof.
  intros H1 H2 H3 H4 H5 H6 st Hst run wanted.
  destruct (settles_ensure_schema insp_has_table insp_get_columns
              session_execute session_commit session_rollback dialect Inv
              H1 H2 H3 H4 H5 H6 st Hst) as (Hinv & t & Ht & Hpre & Hex).
  split; [exact Hinv|]. split.
  - exists t. split; [exact Ht|]. split; [exact Hpre|].
    intros Hret. apply Hex. unfold run in Hret. by rewrite Hret.
  - intros Hok. unfold run. rewrite ensure_schema_run.
    by apply run_groups_returns.
Qed.

Section ToyUpToDate.

Lemma toy_has_column_check table col w :
  match committed w !! table, working w !! table with
  | Some a, Some b => bool_decide (col ∈ a) && bool_decide (col ∈ b)
  | _, _ => false
  end = true →
  toy_has_column table col w.
Proof.
  destruct (committed w !! table) as [a|] eqn:Ea; [|done].
  destruct (working w !! table) as [b|] eqn:Eb; [|done].
  intros [Ha Hb]%andb_true_iff.
  apply bool_decide_eq_true_1 in Ha, Hb.
  split; [by exists a|by exists b].
Qed.

End ToyUpToDate.

Lemma up_to_date_run_executes_index_only_witness :
  let st1 := (toy_ensure_schema [] (py "postgresql") toy_start).2 in
  (∃ t, trace (toy_ensure_schema [DROP_NOT_NULL_sql] (py "postgresql") st1).2
        = trace st1 ++ t
        ∧ executed t = [PRESENCE_INDEX_sql; DROP_NOT_NULL_sql])
  ∧ (let run := ensure_schema toy_has_table toy_get_columns
                  (toy_execute [PRESENCE_INDEX_sql]) toy_commit
                  toy_rollback_lost (py "postgresql") st1 in
     run.1 = None
     ∧ ∃ t, trace run.2 = trace st1 ++ t
            ∧ executed t `prefix_of` [PRESENCE_INDEX_sql; DROP_NOT_NULL_sql]).
Proof.
  intros st1.
  assert (∀ table col, (table, col) ∈ migrated_columns →
                       toy_has_column table col (world st1)) as Hst1.
  { assert (Forall (λ tc : pystr * pystr,
                      match committed (world st1) !! tc.1,
                            working (world st1) !! tc.1 with
                      | Some a, Some b =>
                        bool_decide (tc.2 ∈ a) && bool_decide (tc.2 ∈ b)
                      | _, _ => false
                      end = true) migrated_columns) as Hall.
    { holds_by_evaluation. }
    rewrite Forall_forall in Hall. intros table col Hin.
    apply toy_has_column_check. exact (Hall _ Hin). }
  split.
  - destruct (up_to_date_run_executes_index_only toy_has_table
                toy_get_columns (toy_execute [DROP_NOT_NULL_sql]) toy_commit
                toy_rollback (py "postgresql")
                (λ w, ∀ table col, (table, col) ∈ migrated_columns →
                                   toy_has_column table col w))
      with (st := st1) as (_ & (t & Ht & _ & Hex) & Hret).
    + intros t w Hw. exact Hw.
    + intros t w Hw. exact Hw.
    + intros sql w Hw table col Hin.
      by apply toy_execute_keeps_column, Hw.
    + intros w Hw table col Hin. by apply toy_commit_keeps_column, Hw.
    + intros w Hw table col Hin. by apply toy_rollback_keeps_column, Hw.
    + intros w Hw table col Hin. by apply toy_reports_column, Hw.
    + exact Hst1.
    + exists t. split; [exact Ht|]. apply Hex, Hret. intros w. reflexivity.
  - destruct (up_to_date_run_executes_index_only toy_has_table
                toy_get_columns (toy_execute [PRESENCE_INDEX_sql]) toy_commit
                toy_rollback_lost (py "postgresql")
                (λ w, ∀ table col, (table, col) ∈ migrated_columns →
                                   toy_has_column table col w))
      with (st := st1) as (_ & (t & Ht & Hpre & _) & _).
    + intros t w Hw. exact Hw.
    + intros t w Hw. exact Hw.
    + intros sql w Hw table col Hin.
      by apply toy_execute_keeps_column, Hw.
    + intros w Hw table col Hin. by apply toy_commit_keeps_column, Hw.
    + intros w Hw. exact Hw.
    + intros w Hw table col Hin. by apply toy_reports_column, Hw.
    + exact Hst1.
    + split; [vm_compute; reflexivity|]. exists t. split; [exact Ht|exact Hpre].
Defined.
